(** * rectpack: a shallow embedding of the packing engines

    The development follows the Go sources file by file:
    - [point.go]/[size.go]/[rect.go]: geometry ([Point], [Size], [Rect]);
    - [heuristic.go]: the bit-packed [Heuristic] and [Validate];
    - [algorithm.go]: [algorithmBase], [padSize], [unpadRect];
    - [maxrects.go], [skyline.go], [guillotine.go]: the three engines;
    - [sort.go], [packer.go]: comparators and the [Packer].

    Go's [int] is taken as the 64 bit two's complement integer: a value is a
    [Z], and every arithmetic operation of the source is followed by
    [wrap].  A run-time panic (index out of range, the explicit [panic] of
    [Reset]) is the [None] of an [option].  A slice is a [list]; an index
    that a loop decrements and immediately increments again ([i--] before the
    loop's [i++]) is kept unchanged. *)

From stdpp Require Import prelude gmap.
From Stdlib Require Import ZArith Lia.

Local Open Scope Z_scope.

(** ** Machine integers *)

Definition MaxInt : Z := 9223372036854775807.
Definition MinInt : Z := -9223372036854775808.

Definition wrap (z : Z) : Z := (z + 9223372036854775808) `mod` 18446744073709551616 - 9223372036854775808.

Definition add (a b : Z) : Z := wrap (a + b).
Definition sub (a b : Z) : Z := wrap (a - b).
Definition mul (a b : Z) : Z := wrap (a * b).
Definition neg (a : Z) : Z := wrap (- a).

Infix "⊞" := add (at level 50, left associativity).
Infix "⊟" := sub (at level 50, left associativity).
Infix "⊠" := mul (at level 40, left associativity).

Definition in_int (z : Z) : Prop := MinInt <= z <= MaxInt.

(** [abs] of algorithm.go. *)
Definition abs (x : Z) : Z := if 0 <=? x then x else neg x.

(** The builtin [min] and [max]. *)
Definition imin (a b : Z) : Z := if a <=? b then a else b.
Definition imax (a b : Z) : Z := if a <=? b then b else a.

(** [cmp.Compare] on integers. *)
Definition cmp_Compare (a b : Z) : Z :=
  if a <? b then -1 else if b <? a then 1 else 0.

(** ** Geometry (point.go, size.go, rect.go) *)

Record Point := mkPoint { X : Z; Y : Z }.

Record Size := mkSize { Width : Z; Height : Z; ID : Z }.

Record Rect := mkRect { rPoint : Point; rSize : Size; Flipped : bool }.

#[global] Instance Point_eq_dec : EqDecision Point.
Proof. solve_decision. Defined.
#[global] Instance Size_eq_dec : EqDecision Size.
Proof. solve_decision. Defined.
#[global] Instance Rect_eq_dec : EqDecision Rect.
Proof. solve_decision. Defined.

(** Promoted fields of the embedded structs. *)
Definition rX (r : Rect) : Z := X (rPoint r).
Definition rY (r : Rect) : Z := Y (rPoint r).
Definition rW (r : Rect) : Z := Width (rSize r).
Definition rH (r : Rect) : Z := Height (rSize r).
Definition rID (r : Rect) : Z := ID (rSize r).

(** Field assignments. *)
Definition setX (r : Rect) (x : Z) : Rect :=
  mkRect (mkPoint x (rY r)) (rSize r) (Flipped r).
Definition setY (r : Rect) (y : Z) : Rect :=
  mkRect (mkPoint (rX r) y) (rSize r) (Flipped r).
Definition setW (r : Rect) (w : Z) : Rect :=
  mkRect (rPoint r) (mkSize w (rH r) (rID r)) (Flipped r).
Definition setH (r : Rect) (h : Z) : Rect :=
  mkRect (rPoint r) (mkSize (rW r) h (rID r)) (Flipped r).
Definition setID (r : Rect) (i : Z) : Rect :=
  mkRect (rPoint r) (mkSize (rW r) (rH r) i) (Flipped r).
Definition setFlipped (r : Rect) (b : bool) : Rect :=
  mkRect (rPoint r) (rSize r) b.

(** The zero value [var r Rect]. *)
Definition zeroRect : Rect := mkRect (mkPoint 0 0) (mkSize 0 0 0) false.
Definition zeroSize : Size := mkSize 0 0 0.

Definition NewSize (width height : Z) : Size := mkSize width height 0.
Definition NewSizeID (id width height : Z) : Size := mkSize width height id.
Definition NewRect (x y w h : Z) : Rect :=
  mkRect (mkPoint x y) (mkSize w h 0) false.

Definition Area (sz : Size) : Z := Width sz ⊠ Height sz.
Definition rArea (r : Rect) : Z := Area (rSize r).

Definition Right (r : Rect) : Z := rX r ⊞ rW r.
Definition Bottom (r : Rect) : Z := rY r ⊞ rH r.

Definition ContainsRect (r rect : Rect) : bool :=
  (rX r <=? rX rect) &&
  (rX rect ⊞ rW rect <=? rX r ⊞ rW r) &&
  (rY r <=? rY rect) &&
  (rY rect ⊞ rH rect <=? rY r ⊞ rH r).

Definition Intersects (r rect : Rect) : bool :=
  (rX rect <? rX r ⊞ rW r) &&
  (rX r <? rX rect ⊞ rW rect) &&
  (rY rect <? rY r ⊞ rH r) &&
  (rY r <? rY rect ⊞ rH rect).

Definition Intersect (r rect : Rect) : Rect :=
  let x1 := imax (rX r) (rX rect) in
  let x2 := imin (rX r ⊞ rW r) (rX rect ⊞ rW rect) in
  let y1 := imax (rY r) (rY rect) in
  let y2 := imin (rY r ⊞ rH r) (rY rect ⊞ rH rect) in
  if (x1 <=? x2) && (y1 <=? y2)
  then mkRect (mkPoint x1 y1) (mkSize (x2 ⊟ x1) (y2 ⊟ y1) 0) false
  else zeroRect.

(** ** Heuristic (heuristic.go) *)

(** [type Heuristic uint16]. *)
Definition Heuristic := Z.

Definition is_uint16 (h : Heuristic) : Prop := 0 <= h < 65536.

Definition MaxRects : Heuristic := 0x0.
Definition Skyline : Heuristic := 0x1.
Definition Guillotine : Heuristic := 0x2.

Definition BestShortSideFit : Heuristic := 0x00.
Definition BestLongSideFit : Heuristic := 0x10.
Definition BestAreaFit : Heuristic := 0x20.
Definition BottomLeft : Heuristic := 0x30.
Definition ContactPoint : Heuristic := 0x40.
Definition WorstAreaFit : Heuristic := 0x50.
Definition WorstShortSideFit : Heuristic := 0x60.
Definition WorstLongSideFit : Heuristic := 0x70.
Definition MinWaste : Heuristic := 0x80.

Definition SplitShorterLeftoverAxis : Heuristic := 0x0000.
Definition SplitLongerLeftoverAxis : Heuristic := 0x0100.
Definition SplitMinimizeArea : Heuristic := 0x0200.
Definition SplitMaximizeArea : Heuristic := 0x0300.
Definition SplitShorterAxis : Heuristic := 0x0400.
Definition SplitLongerAxis : Heuristic := 0x0500.

Definition typeMask : Heuristic := 0x000F.
Definition fitMask : Heuristic := 0x00F0.
Definition splitMask : Heuristic := 0x0F00.

Definition MaxRectsBSSF : Heuristic := Z.lor MaxRects BestShortSideFit.
Definition MaxRectsBL : Heuristic := Z.lor MaxRects BottomLeft.
Definition MaxRectsCP : Heuristic := Z.lor MaxRects ContactPoint.
Definition MaxRectsBLSF : Heuristic := Z.lor MaxRects BestLongSideFit.
Definition MaxRectsBAF : Heuristic := Z.lor MaxRects BestAreaFit.
Definition GuillotineBAF : Heuristic := Z.lor Guillotine BestAreaFit.
Definition GuillotineBSSF : Heuristic := Z.lor Guillotine BestShortSideFit.
Definition GuillotineBLSF : Heuristic := Z.lor Guillotine BestLongSideFit.
Definition GuillotineWAF : Heuristic := Z.lor Guillotine WorstAreaFit.
Definition GuillotineWSSF : Heuristic := Z.lor Guillotine WorstShortSideFit.
Definition GuillotineWLSF : Heuristic := Z.lor Guillotine WorstLongSideFit.
Definition SkylineBLF : Heuristic := Z.lor Skyline BottomLeft.
Definition SkylineMinWaste : Heuristic := Z.lor Skyline MinWaste.

Definition Algorithm (e : Heuristic) : Heuristic := Z.land e typeMask.
Definition Bin (e : Heuristic) : Heuristic := Z.land e fitMask.
Definition Split (e : Heuristic) : Heuristic := Z.land e splitMask.

(** The three package-level error values. *)
Inductive error := algoErr | splitErr | binErr.

(** Membership of a [case a, b, c:] list. *)
Definition one_of (x : Heuristic) (l : list Heuristic) : bool :=
  existsb (Z.eqb x) l.

(** [Validate]: [None] is Go's [nil]. *)
Definition Validate (e : Heuristic) : option error :=
  let bin := Z.land e fitMask in
  let split := Z.land e splitMask in
  let ty := Z.land e typeMask in
  if ty =? MaxRects then
    if negb (split =? 0) then Some splitErr
    else if one_of bin [BestShortSideFit; BestAreaFit; BottomLeft; ContactPoint; BestLongSideFit]
         then None else Some binErr
  else if ty =? Skyline then
    if negb (split =? 0) then Some splitErr
    else if one_of bin [BottomLeft; MinWaste] then None else Some binErr
  else if ty =? Guillotine then
    if one_of split [SplitShorterLeftoverAxis; SplitLongerLeftoverAxis; SplitMinimizeArea;
                     SplitMaximizeArea; SplitShorterAxis; SplitLongerAxis]
    then
      if one_of bin [BestShortSideFit; BottomLeft; ContactPoint; BestLongSideFit; BestAreaFit]
      then None else Some splitErr
    else Some splitErr
  else Some algoErr.

(** ** Shared state of the engines (algorithm.go) *)

Record algorithmBase := mkBase {
  packed : list Rect;
  maxWidth : Z;
  maxHeight : Z;
  usedArea : Z;
  allowFlip : bool;
  padding : Z
}.

(** [algorithmBase.Reset]; [None] is the panic on a non-positive extent. *)
Definition base_Reset (width height : Z) (p : algorithmBase) : option algorithmBase :=
  if (width <=? 0) || (height <=? 0) then None
  else Some (mkBase [] width height 0 (allowFlip p) (padding p)).

Definition base_AllowFlip (enabled : bool) (p : algorithmBase) : algorithmBase :=
  mkBase (packed p) (maxWidth p) (maxHeight p) (usedArea p) enabled (padding p).

Definition base_Padding (pad : Z) (p : algorithmBase) : algorithmBase :=
  mkBase (packed p) (maxWidth p) (maxHeight p) (usedArea p) (allowFlip p) pad.

Definition base_MaxSize (p : algorithmBase) : Size :=
  NewSize (maxWidth p) (maxHeight p).

Definition set_packed (l : list Rect) (p : algorithmBase) : algorithmBase :=
  mkBase l (maxWidth p) (maxHeight p) (usedArea p) (allowFlip p) (padding p).

Definition set_usedArea (a : Z) (p : algorithmBase) : algorithmBase :=
  mkBase (packed p) (maxWidth p) (maxHeight p) a (allowFlip p) (padding p).

(** [padSize] works on the loop's copy of the size. *)
Definition padSize (size : Size) (pad : Z) : Size :=
  if pad <=? 0 then size
  else mkSize (Width size ⊞ pad) (Height size ⊞ pad) (ID size).

Definition unpadRect (rect : Rect) (pad : Z) : Rect :=
  if pad <=? 0 then rect
  else
    let rect :=
      if rX rect =? 0
      then setW (setX rect (rX rect ⊞ pad)) (rW rect ⊟ pad ⊠ 2)
      else setW rect (rW rect ⊟ pad) in
    if rY rect =? 0
    then setH (setY rect (rY rect ⊞ pad)) (rH rect ⊟ pad ⊠ 2)
    else setH rect (rH rect ⊟ pad).

(** ** Slice helpers *)

(** [l[i]] for an [int] index: a negative or too large index panics. *)
Definition idx {A} (l : list A) (i : Z) : option A :=
  if i <? 0 then None else l !! Z.to_nat i.

(** [l[i] = l[last]; l = l[:last]], used under a successful read of [l[i]]. *)
Definition swap_remove {A} (i : nat) (l : list A) : list A :=
  match last l with
  | Some x => take (pred (length l)) (<[i := x]> l)
  | None => l
  end.

(** [slices.Delete(l, i, i+1)]; out of range it panics. *)
Definition slices_Delete {A} (l : list A) (i : Z) : option (list A) :=
  _ ← idx l i; Some (delete (Z.to_nat i) l).

(** The four assignments [n.X, n.Y, n.Width, n.Height = x, y, w, h]. *)
Definition setXYWH (n : Rect) (x y w h : Z) : Rect :=
  setH (setW (setY (setX n x) y) w) h.

(** ** The MaxRects engine (maxrects.go) *)

Module MR.

(** The function stored in [findNode]. *)
Inductive heuristicFunc :=
| findPositionBestAreaFit
| findPositionBottomLeft
| findPositionContactPoint
| findPositionBestLongSideFit
| findPositionBestShortSideFit.

Record maxRects := mk {
  base : algorithmBase;
  findNode : heuristicFunc;
  newLastSize : nat;
  newFreeRects : list Rect;
  freeRects : list Rect
}.

Definition set_base (b : algorithmBase) (p : maxRects) : maxRects :=
  mk b (findNode p) (newLastSize p) (newFreeRects p) (freeRects p).
Definition set_newLastSize (n : nat) (p : maxRects) : maxRects :=
  mk (base p) (findNode p) n (newFreeRects p) (freeRects p).
Definition set_new (l : list Rect) (p : maxRects) : maxRects :=
  mk (base p) (findNode p) (newLastSize p) l (freeRects p).
Definition set_free (l : list Rect) (p : maxRects) : maxRects :=
  mk (base p) (findNode p) (newLastSize p) (newFreeRects p) l.

Definition Reset (width height : Z) (p : maxRects) : option maxRects :=
  b ← base_Reset width height (base p);
  Some (mk b (findNode p) (newLastSize p) [] [NewRect 0 0 (maxWidth b) (maxHeight b)]).

Definition select_findNode (heuristic : Heuristic) : heuristicFunc :=
  let fit := Z.land heuristic fitMask in
  if fit =? BestAreaFit then findPositionBestAreaFit
  else if fit =? BottomLeft then findPositionBottomLeft
  else if fit =? ContactPoint then findPositionContactPoint
  else if fit =? BestLongSideFit then findPositionBestLongSideFit
  else if fit =? BestShortSideFit then findPositionBestShortSideFit
  else findPositionBestShortSideFit.

Definition newMaxRects (width height : Z) (heuristic : Heuristic) : option maxRects :=
  Reset width height
    (mk (mkBase [] 0 0 0 false 0) (select_findNode heuristic) 0 [] []).

Definition AllowFlip (enabled : bool) (p : maxRects) : maxRects :=
  set_base (base_AllowFlip enabled (base p)) p.
Definition Padding (pad : Z) (p : maxRects) : maxRects :=
  set_base (base_Padding pad (base p)) p.

(** One scorer step: the upright test, then the flipped one, on one free
    rectangle.  [better s1 s2 b1 b2] is the scorer's comparison, and the
    scores of a candidate come from [score]. *)
Section scorer.
Variable flip : bool.
Variables width height : Z.
Variable score : Rect -> Z -> Z -> Z * Z.
Variable better : Z * Z -> Z * Z -> bool.

Definition try_orient (flipped : bool) (w h : Z) (freeRect : Rect)
    (st : Rect * (Z * Z)) : Rect * (Z * Z) :=
  let '(bestNode, best) := st in
  if (w <=? rW freeRect) && (h <=? rH freeRect) then
    let s := score freeRect w h in
    if better s best then
      let n := setXYWH bestNode (rX freeRect) (rY freeRect) w h in
      (if flipped then setFlipped n true else n, s)
    else st
  else st.

Definition find_step (st : Rect * (Z * Z)) (freeRect : Rect) : Rect * (Z * Z) :=
  let st := try_orient false width height freeRect st in
  if flip then try_orient true height width freeRect st else st.
End scorer.

Definition lex_less (s b : Z * Z) : bool :=
  (s.1 <? b.1) || ((s.1 =? b.1) && (s.2 <? b.2)).

Definition do_findPositionBottomLeft (p : maxRects) (width height : Z) : Rect * Z * Z :=
  let '(bestNode, (bestY, bestX)) :=
    foldl (find_step (allowFlip (base p)) width height
             (fun freeRect w h => (rY freeRect ⊞ h, rX freeRect)) lex_less)
          (zeroRect, (MaxInt, MaxInt)) (freeRects p) in
  (bestNode, bestY, bestX).

Definition leftovers (freeRect : Rect) (w h : Z) : Z * Z :=
  let leftoverHoriz := abs (rW freeRect ⊟ w) in
  let leftoverVert := abs (rH freeRect ⊟ h) in
  (imin leftoverHoriz leftoverVert, imax leftoverHoriz leftoverVert).

Definition do_findPositionBestShortSideFit (p : maxRects) (width height : Z) : Rect * Z * Z :=
  let '(bestNode, (bestShortSideFit, bestLongSideFit)) :=
    foldl (find_step (allowFlip (base p)) width height leftovers lex_less)
          (zeroRect, (MaxInt, MaxInt)) (freeRects p) in
  (bestNode, bestShortSideFit, bestLongSideFit).

(** Compared long side first, returned short side first. *)
Definition do_findPositionBestLongSideFit (p : maxRects) (width height : Z) : Rect * Z * Z :=
  let '(bestNode, (bestShortSideFit, bestLongSideFit)) :=
    foldl (find_step (allowFlip (base p)) width height leftovers
             (fun s b => (s.2 <? b.2) || ((s.2 =? b.2) && (s.1 <? b.1))))
          (zeroRect, (MaxInt, MaxInt)) (freeRects p) in
  (bestNode, bestShortSideFit, bestLongSideFit).

(** [areaFit] is computed once per free rectangle from the unflipped
    arguments, which is the same product for both orientations. *)
Definition do_findPositionBestAreaFit (p : maxRects) (width height : Z) : Rect * Z * Z :=
  let '(bestNode, (bestAreaFit, bestShortSideFit)) :=
    foldl (find_step (allowFlip (base p)) width height
             (fun freeRect w h =>
                (rW freeRect ⊠ rH freeRect ⊟ width ⊠ height, (leftovers freeRect w h).1))
             lex_less)
          (zeroRect, (MaxInt, MaxInt)) (freeRects p) in
  (bestNode, bestAreaFit, bestShortSideFit).

Definition commonIntervalLength (i1start i1end i2start i2end : Z) : Z :=
  if (i1end <? i2start) || (i2end <? i1start) then 0
  else imin i1end i2end ⊟ imax i1start i2start.

Definition contactPointScoreNode (p : maxRects) (x y width height : Z) : Z :=
  let score := 0 in
  let score := if (x =? 0) || (x ⊞ width =? maxWidth (base p)) then score ⊞ height else score in
  let score := if (y =? 0) || (y ⊞ height =? maxHeight (base p)) then score ⊞ width else score in
  foldl (fun score used =>
           let score :=
             if (rX used =? x ⊞ width) || (rX used ⊞ rW used =? x)
             then score ⊞ commonIntervalLength (rY used) (rY used ⊞ rH used) y (y ⊞ height)
             else score in
           if (rY used =? y ⊞ height) || (rY used ⊞ rH used =? y)
           then score ⊞ commonIntervalLength (rX used) (rX used ⊞ rW used) x (x ⊞ width)
           else score)
        score (packed (base p)).

(** The second component of the state is unused by this scorer; the function
    returns [math.MaxInt] in its place. *)
Definition do_findPositionContactPoint (p : maxRects) (width height : Z) : Rect * Z * Z :=
  let '(bestNode, (bestContactScore, _)) :=
    foldl (find_step (allowFlip (base p)) width height
             (fun freeRect w h => (contactPointScoreNode p (rX freeRect) (rY freeRect) w h, MaxInt))
             (fun s b => b.1 <? s.1))
          (zeroRect, (-1, MaxInt)) (freeRects p) in
  (bestNode, bestContactScore, MaxInt).

Definition call_findNode (p : maxRects) (width height : Z) : Rect * Z * Z :=
  match findNode p with
  | findPositionBestAreaFit => do_findPositionBestAreaFit p width height
  | findPositionBottomLeft => do_findPositionBottomLeft p width height
  | findPositionContactPoint => do_findPositionContactPoint p width height
  | findPositionBestLongSideFit => do_findPositionBestLongSideFit p width height
  | findPositionBestShortSideFit => do_findPositionBestShortSideFit p width height
  end.

Definition scoreRect (p : maxRects) (width height : Z) : Rect * Z * Z :=
  let '(newNode, score1, score2) := call_findNode p width height in
  if rH newNode =? 0 then (newNode, MaxInt, MaxInt) else (newNode, score1, score2).

(** [insertNewFreeRectangle]: the loop over the first [newLastSize] entries
    of [newFreeRects].  The fuel is the number of iterations left; the
    caller passes [newLastSize], which bounds them. *)
Fixpoint insertNew_loop (fuel : nat) (newFreeRect : Rect) (i : nat) (p : maxRects)
    : option maxRects :=
  if bool_decide (i < newLastSize p)%nat then
    match fuel with
    | O => None
    | S fuel =>
      cur ← newFreeRects p !! i;
      if ContainsRect cur newFreeRect then Some p
      else if ContainsRect newFreeRect cur then
        let n := pred (newLastSize p) in
        a ← newFreeRects p !! n;
        let l1 := <[i := a]> (newFreeRects p) in
        b ← last l1;
        let l2 := <[n := b]> l1 in
        insertNew_loop fuel newFreeRect i
          (set_new (take (pred (length l2)) l2) (set_newLastSize n p))
      else insertNew_loop fuel newFreeRect (S i) p
    end
  else Some (set_new (newFreeRects p ++ [newFreeRect]) p).

Definition insertNewFreeRectangle (newFreeRect : Rect) (p : maxRects) : option maxRects :=
  insertNew_loop (newLastSize p) newFreeRect 0 p.

(** [splitFreeNode]: the result is the returned flag and the engine, whose
    [newFreeRects] has received the strips. *)
Definition splitFreeNode (freeNode usedNode : Rect) (p : maxRects) : option (bool * maxRects) :=
  if (rX freeNode ⊞ rW freeNode <=? rX usedNode) ||
     (rX usedNode ⊞ rW usedNode <=? rX freeNode) ||
     (rY freeNode ⊞ rH freeNode <=? rY usedNode) ||
     (rY usedNode ⊞ rH usedNode <=? rY freeNode)
  then Some (false, p)
  else
    let p := set_newLastSize (length (newFreeRects p)) p in
    p ← (if (rX usedNode <? rX freeNode ⊞ rW freeNode) && (rX freeNode <? rX usedNode ⊞ rW usedNode)
         then
           p ← (if (rY freeNode <? rY usedNode) && (rY usedNode <? rY freeNode ⊞ rH freeNode)
                then insertNewFreeRectangle (setH freeNode (rY usedNode ⊟ rY freeNode)) p
                else Some p);
           if rY usedNode ⊞ rH usedNode <? rY freeNode ⊞ rH freeNode
           then insertNewFreeRectangle
                  (setH (setY freeNode (rY usedNode ⊞ rH usedNode))
                        (rY freeNode ⊞ rH freeNode ⊟ (rY usedNode ⊞ rH usedNode))) p
           else Some p
         else Some p);
    p ← (if (rY usedNode <? rY freeNode ⊞ rH freeNode) && (rY freeNode <? rY usedNode ⊞ rH usedNode)
         then
           p ← (if (rX freeNode <? rX usedNode) && (rX usedNode <? rX freeNode ⊞ rW freeNode)
                then insertNewFreeRectangle (setW freeNode (rX usedNode ⊟ rX freeNode)) p
                else Some p);
           if rX usedNode ⊞ rW usedNode <? rX freeNode ⊞ rW freeNode
           then insertNewFreeRectangle
                  (setW (setX freeNode (rX usedNode ⊞ rW usedNode))
                        (rX freeNode ⊞ rW freeNode ⊟ (rX usedNode ⊞ rW usedNode))) p
           else Some p
         else Some p);
    Some (true, p).

(** The inner loop of [pruneFreeList] for one old free rectangle. *)
Fixpoint prune_inner (fuel : nat) (old : Rect) (j : nat) (new : list Rect) : option (list Rect) :=
  match new !! j with
  | None => Some new
  | Some n =>
    match fuel with
    | O => None
    | S fuel =>
      if ContainsRect old n then prune_inner fuel old j (swap_remove j new)
      else prune_inner fuel old (S j) new
    end
  end.

Definition pruneFreeList (p : maxRects) : option maxRects :=
  new ← foldl (fun acc old => new ← acc; prune_inner (length new) old 0 new)
              (Some (newFreeRects p)) (freeRects p);
  Some (set_new [] (set_free (freeRects p ++ new) p)).

Fixpoint placeRect_loop (fuel : nat) (node : Rect) (i : nat) (p : maxRects) : option maxRects :=
  match freeRects p !! i with
  | None => Some p
  | Some freeNode =>
    match fuel with
    | O => None
    | S fuel =>
      '(split, p) ← splitFreeNode freeNode node p;
      if split : bool then placeRect_loop fuel node i (set_free (swap_remove i (freeRects p)) p)
      else placeRect_loop fuel node (S i) p
    end
  end.

Definition placeRect (node : Rect) (p : maxRects) : option maxRects :=
  p ← placeRect_loop (length (freeRects p)) node 0 p;
  p ← pruneFreeList p;
  Some (set_base (set_usedArea (usedArea (base p) ⊞ rArea node) (base p)) p).

(** The [range] loop of [Insert] over the sizes still to place; the state is
    [(bestNode, bestScore1, bestScore2, bestRectIndex)]. *)
Fixpoint Insert_scan (p : maxRects) (i : Z) (sizes : list Size)
    (best : Rect * Z * Z * Z) : Rect * Z * Z * Z :=
  match sizes with
  | [] => best
  | size :: rest =>
    let '(bestNode, bestScore1, bestScore2, bestRectIndex) := best in
    let size := padSize size (padding (base p)) in
    let '(newNode, score1, score2) := scoreRect p (Width size) (Height size) in
    Insert_scan p (i + 1) rest
      (if (score1 <? bestScore1) || ((score1 =? bestScore1) && (score2 <? bestScore2))
       then (setID newNode (ID size), score1, score2, i)
       else best)
  end.

(** The second half of an iteration of [Insert]: the best node is placed
    and its size leaves the slice. *)
Definition Insert_commit (bestNode : Rect) (bestRectIndex : Z) (p : maxRects)
    (sizes : list Size) : option (maxRects * list Size) :=
  p ← placeRect bestNode p;
  let bestNode := unpadRect bestNode (padding (base p)) in
  let p := set_base (set_packed (packed (base p) ++ [bestNode]) (base p)) p in
  _ ← idx sizes bestRectIndex;
  Some (p, swap_remove (Z.to_nat bestRectIndex) sizes).

Fixpoint Insert_loop (fuel : nat) (p : maxRects) (sizes : list Size)
    : option (maxRects * list Size) :=
  match sizes with
  | [] => Some (p, sizes)
  | _ :: _ =>
    let '(bestNode, _, _, bestRectIndex) :=
      Insert_scan p 0 sizes (zeroRect, MaxInt, MaxInt, -1) in
    if bestRectIndex =? -1 then Some (p, sizes)
    else
      match fuel with
      | O => None
      | S fuel =>
        '(p, sizes) ← Insert_commit bestNode bestRectIndex p sizes;
        Insert_loop fuel p sizes
      end
  end.

Definition Insert (sizes : list Size) (p : maxRects) : option (maxRects * list Size) :=
  Insert_loop (length sizes) p sizes.

Definition Rects (p : maxRects) : list Rect := packed (base p).

End MR.

(** ** The Guillotine engine (guillotine.go) *)

Module GU.

(** The function stored in [scoreRect]: one of the three scorers, or the
    closure that negates one of them. *)
Inductive scoreFunc :=
| scoreBestArea | scoreBestShort | scoreBestLong
| negBestArea | negBestShort | negBestLong.

Record guillotinePack := mk {
  base : algorithmBase;
  Merge : bool;
  splitMethod : Heuristic;
  scoreRect : scoreFunc;
  freeRects : list Rect
}.

Definition set_base (b : algorithmBase) (p : guillotinePack) : guillotinePack :=
  mk b (Merge p) (splitMethod p) (scoreRect p) (freeRects p).
Definition set_free (l : list Rect) (p : guillotinePack) : guillotinePack :=
  mk (base p) (Merge p) (splitMethod p) (scoreRect p) l.

Definition Reset (width height : Z) (p : guillotinePack) : option guillotinePack :=
  b ← base_Reset width height (base p);
  Some (mk b (Merge p) (splitMethod p) (scoreRect p)
           [NewRect 0 0 (maxWidth b) (maxHeight b)]).

Definition select_scoreRect (heuristic : Heuristic) : scoreFunc :=
  let fit := Z.land heuristic fitMask in
  if fit =? BestShortSideFit then scoreBestShort
  else if fit =? BestLongSideFit then scoreBestLong
  else if fit =? WorstAreaFit then negBestArea
  else if fit =? WorstShortSideFit then negBestShort
  else if fit =? WorstLongSideFit then negBestLong
  else scoreBestArea.

Definition newGuillotine (width height : Z) (heuristic : Heuristic) : option guillotinePack :=
  Reset width height
    (mk (mkBase [] 0 0 0 false 0) true (Z.land heuristic splitMask)
        (select_scoreRect heuristic) []).

Definition AllowFlip (enabled : bool) (p : guillotinePack) : guillotinePack :=
  set_base (base_AllowFlip enabled (base p)) p.

Definition do_scoreBestArea (width height : Z) (freeRect : Rect) : Z :=
  rW freeRect ⊠ rH freeRect ⊟ width ⊠ height.

Definition do_scoreBestShort (width height : Z) (freeRect : Rect) : Z :=
  let leftoverHoriz := abs (rW freeRect ⊟ width) in
  let leftoverVert := abs (rH freeRect ⊟ height) in
  imin leftoverHoriz leftoverVert.

Definition do_scoreBestLong (width height : Z) (freeRect : Rect) : Z :=
  let leftoverHoriz := abs (rW freeRect ⊟ width) in
  let leftoverVert := abs (rH freeRect ⊟ height) in
  imax leftoverHoriz leftoverVert.

Definition call_scoreRect (p : guillotinePack) (w h : Z) (r : Rect) : Z :=
  match scoreRect p with
  | scoreBestArea => do_scoreBestArea w h r
  | scoreBestShort => do_scoreBestShort w h r
  | scoreBestLong => do_scoreBestLong w h r
  | negBestArea => neg (do_scoreBestArea w h r)
  | negBestShort => neg (do_scoreBestShort w h r)
  | negBestLong => neg (do_scoreBestLong w h r)
  end.

(** The choice of [Insert] so far: [bestFreeRect], [bestRect],
    [bestFlipped], [bestScore]. *)
Record choice := mkChoice {
  bestFreeRect : Z;
  bestRect : Z;
  bestFlipped : bool;
  bestScore : Z
}.

(** The inner [range] loop over the sizes for the free rectangle of index
    [i].  A perfect match ends it ([break]); the assignment it makes to the
    outer range variable [i] does not change the outer iteration, which goes
    on with the next free rectangle. *)
Fixpoint scan_sizes (p : guillotinePack) (pad : Z) (i : Z) (freeRect : Rect)
    (j : Z) (sizes : list Size) (c : choice) : choice :=
  match sizes with
  | [] => c
  | size :: rest =>
    let size := padSize size pad in
    if (Width size =? rW freeRect) && (Height size =? rH freeRect) then
      mkChoice i j false MinInt
    else if allowFlip (base p) && (Height size =? rW freeRect) && (Width size =? rH freeRect) then
      mkChoice i j true MinInt
    else if (Width size <=? rW freeRect) && (Height size <=? rH freeRect) then
      let score := call_scoreRect p (Width size) (Height size) freeRect in
      scan_sizes p pad i freeRect (j + 1) rest
        (if score <? bestScore c then mkChoice i j false score else c)
    else if allowFlip (base p) && (Height size <=? rW freeRect) && (Width size <=? rH freeRect) then
      let score := call_scoreRect p (Height size) (Width size) freeRect in
      scan_sizes p pad i freeRect (j + 1) rest
        (if score <? bestScore c then mkChoice i j true score else c)
    else scan_sizes p pad i freeRect (j + 1) rest c
  end.

Fixpoint scan_free (p : guillotinePack) (pad : Z) (i : Z) (frees : list Rect)
    (sizes : list Size) (c : choice) : choice :=
  match frees with
  | [] => c
  | freeRect :: rest =>
    scan_free p pad (i + 1) rest sizes (scan_sizes p pad i freeRect 0 sizes c)
  end.

Definition splitAlongAxis (freeRect placedRect : Rect) (splitHorizontal : bool)
    (p : guillotinePack) : guillotinePack :=
  let bottom := zeroRect in
  let bottom := setX bottom (rX freeRect) in
  let bottom := setY bottom (rY freeRect ⊞ rH placedRect) in
  let bottom := setH bottom (rH freeRect ⊟ rH placedRect) in
  let right := zeroRect in
  let right := setX right (rX freeRect ⊞ rW placedRect) in
  let right := setY right (rY freeRect) in
  let right := setW right (rW freeRect ⊟ rW placedRect) in
  let bottom := if splitHorizontal then setW bottom (rW freeRect) else setW bottom (rW placedRect) in
  let right := if splitHorizontal then setH right (rH placedRect) else setH right (rH freeRect) in
  let p := if (0 <? rW bottom) && (0 <? rH bottom)
           then set_free (freeRects p ++ [bottom]) p else p in
  if (0 <? rW right) && (0 <? rH right)
  then set_free (freeRects p ++ [right]) p else p.

Definition splitByHeuristic (freeRect placedRect : Rect) (p : guillotinePack) : guillotinePack :=
  let w := rW freeRect ⊟ rW placedRect in
  let h := rH freeRect ⊟ rH placedRect in
  let m := splitMethod p in
  let splitHorizontal :=
    if m =? SplitShorterLeftoverAxis then w <=? h
    else if m =? SplitLongerLeftoverAxis then h <? w
    else if m =? SplitMinimizeArea then w ⊠ rH placedRect <? rW placedRect ⊠ h
    else if m =? SplitMaximizeArea then rW placedRect ⊠ h <=? w ⊠ rH placedRect
    else if m =? SplitShorterAxis then rW freeRect <=? rH freeRect
    else if m =? SplitLongerAxis then rH freeRect <? rW freeRect
    else true in
  splitAlongAxis freeRect placedRect splitHorizontal p.

(** One test of the inner loop of [mergeFreeList] at [(i, j)], transcribed
    with the indices the source writes: every operand is [freeRects[i]].
    The result is the new value of [freeRects[i]] and whether
    [freeRects[j]] is deleted. *)
Definition merge_test (a : Rect) : Rect * bool :=
  if (rW a =? rW a) && (rX a =? rX a) then
    if rY a =? rY a ⊞ rH a then
      (let a := setY a (rY a ⊟ rH a) in setH a (rH a ⊞ rH a), true)
    else if rY a ⊞ rH a =? rY a then
      (setH a (rH a ⊞ rH a), true)
    else (a, false)
  else if (rH a =? rH a) && (rY a =? rY a) then
    if rX a =? rX a ⊞ rW a then
      (let a := setX a (rX a ⊟ rW a) in setW a (rW a ⊞ rW a), true)
    else if rX a ⊞ rW a =? rX a then
      (setW a (rW a ⊞ rW a), true)
    else (a, false)
  else (a, false).

Fixpoint merge_inner (fuel : nat) (i j : nat) (l : list Rect) : option (list Rect) :=
  if bool_decide (j < length l)%nat then
    match fuel with
    | O => None
    | S fuel =>
      a ← l !! i;
      let '(a, del) := merge_test a in
      let l := <[i := a]> l in
      if del : bool then merge_inner fuel i j (delete j l)
      else merge_inner fuel i (S j) l
    end
  else Some l.

Fixpoint merge_outer (fuel : nat) (i : nat) (l : list Rect) : option (list Rect) :=
  if bool_decide (i < length l)%nat then
    match fuel with
    | O => None
    | S fuel =>
      l ← merge_inner (length l) i (S i) l;
      merge_outer fuel (S i) l
    end
  else Some l.

Definition mergeFreeList (p : guillotinePack) : option guillotinePack :=
  l ← merge_outer (length (freeRects p)) 0 (freeRects p);
  Some (set_free l p).

(** The second half of an iteration of [Insert]: the chosen size is placed
    in the chosen free rectangle. *)
Definition Insert_commit (pad : Z) (c : choice) (p : guillotinePack) (sizes : list Size)
    : option (guillotinePack * list Size) :=
  freeRect ← idx (freeRects p) (bestFreeRect c);
  size ← idx sizes (bestRect c);
  let newNode := mkRect (rPoint freeRect) size false in
  let newNode :=
    if bestFlipped c
    then setFlipped (setH (setW newNode (rH newNode)) (rW newNode)) true
    else newNode in
  let p := splitByHeuristic freeRect newNode p in
  l ← slices_Delete (freeRects p) (bestFreeRect c);
  let p := set_free l p in
  sizes ← slices_Delete sizes (bestRect c);
  p ← (if Merge p then mergeFreeList p else Some p);
  let p := set_base (set_usedArea (usedArea (base p) ⊞ rArea newNode) (base p)) p in
  let newNode := unpadRect newNode pad in
  let p := set_base (set_packed (packed (base p) ++ [newNode]) (base p)) p in
  Some (p, sizes).

Fixpoint Insert_loop (fuel : nat) (pad : Z) (p : guillotinePack) (sizes : list Size)
    (c : choice) : option (guillotinePack * list Size) :=
  match sizes with
  | [] => Some (p, sizes)
  | _ :: _ =>
    let c := mkChoice (bestFreeRect c) (bestRect c) (bestFlipped c) MaxInt in
    let c := scan_free p pad 0 (freeRects p) sizes c in
    if bestScore c =? MaxInt then Some (p, sizes)
    else
      match fuel with
      | O => None
      | S fuel =>
        '(p, sizes) ← Insert_commit pad c p sizes;
        Insert_loop fuel pad p sizes c
      end
  end.

Definition Insert (pad : Z) (sizes : list Size) (p : guillotinePack)
    : option (guillotinePack * list Size) :=
  Insert_loop (length sizes) pad p sizes (mkChoice 0 0 false 0).

Definition Rects (p : guillotinePack) : list Rect := packed (base p).

End GU.

(** ** The Skyline engine (skyline.go) *)

Module SK.

Record skylineNode := mkNode { nX : Z; nY : Z; nWidth : Z }.

Record skylinePack := mk {
  base : algorithmBase;
  levelSelect : Heuristic;
  skyline : list skylineNode;
  (** A nil pointer is [None]. *)
  wasteMap : option GU.guillotinePack
}.

Definition set_base (b : algorithmBase) (p : skylinePack) : skylinePack :=
  mk b (levelSelect p) (skyline p) (wasteMap p).
Definition set_skyline (l : list skylineNode) (p : skylinePack) : skylinePack :=
  mk (base p) (levelSelect p) l (wasteMap p).
Definition set_wasteMap (w : option GU.guillotinePack) (p : skylinePack) : skylinePack :=
  mk (base p) (levelSelect p) (skyline p) w.

Definition Reset (width height : Z) (p : skylinePack) : option skylinePack :=
  b ← base_Reset width height (base p);
  w ← match wasteMap p with
      | Some g => g ← GU.Reset width height g; Some (Some g)
      | None => Some None
      end;
  Some (mk b (levelSelect p) [mkNode 0 0 (maxWidth b)] w).

Definition newSkyline (width height : Z) (heuristic : Heuristic) : option skylinePack :=
  let zero := mk (mkBase [] 0 0 0 false 0) 0 [] None in
  packer ← (if Z.land heuristic fitMask =? MinWaste then
              g ← GU.newGuillotine width height BestAreaFit;
              Some (mk (base zero) MinWaste [] (Some g))
            else Some (mk (base zero) BottomLeft [] None));
  Reset width height packer.

Definition AllowFlip (enabled : bool) (p : skylinePack) : skylinePack :=
  set_base (base_AllowFlip enabled (base p)) p.
Definition Padding (pad : Z) (p : skylinePack) : skylinePack :=
  set_base (base_Padding pad (base p)) p.

(** The loop of [mergeSkylines]. *)
Fixpoint merge_loop (fuel : nat) (i : nat) (l : list skylineNode) : option (list skylineNode) :=
  if bool_decide (S i < length l)%nat then
    match fuel with
    | O => None
    | S fuel =>
      a ← l !! i;
      b ← l !! S i;
      if nY a =? nY b then
        merge_loop fuel i (delete (S i) (<[i := mkNode (nX a) (nY a) (nWidth a ⊞ nWidth b)]> l))
      else merge_loop fuel (S i) l
    end
  else Some l.

Definition mergeSkylines (p : skylinePack) : option skylinePack :=
  l ← merge_loop (length (skyline p)) 0 (skyline p);
  Some (set_skyline l p).

(** The loop of [testFit] from segment [i] on; [segs] is [skyline[i:]], so
    that reading past its end is the index panic. *)
Fixpoint testFit_loop (maxH height : Z) (segs : list skylineNode) (widthLeft y : Z)
    : option (bool * Z) :=
  if 0 <? widthLeft then
    match segs with
    | [] => None
    | s :: rest =>
      let y := imax y (nY s) in
      if maxH <? y ⊞ height then Some (false, y)
      else testFit_loop maxH height rest (widthLeft ⊟ nWidth s) y
    end
  else Some (true, y).

(** [testFit]; the out-parameter [*y] comes in as [y] and goes out as the
    second component. *)
Definition testFit (p : skylinePack) (index : Z) (width height : Z) (y : Z) : option (bool * Z) :=
  s ← idx (skyline p) index;
  let x := nX s in
  if maxWidth (base p) <? x ⊞ width then Some (false, y)
  else testFit_loop (maxHeight (base p)) height (drop (Z.to_nat index) (skyline p)) width (nY s).

(** The loop shared by [computeWaste] and [addWaste]: [visit] is what the
    body does with one buried strip [leftSide, rightSide, segment]. *)
Fixpoint waste_loop {A} (visit : A -> Z -> Z -> skylineNode -> A)
    (rectLeft rectRight : Z) (segs : list skylineNode) (acc : A) : A :=
  match segs with
  | [] => acc
  | s :: rest =>
    if nX s <? rectRight then
      if (rectRight <=? nX s) || (nX s ⊞ nWidth s <=? rectLeft) then acc
      else
        let leftSide := nX s in
        let rightSide := imin rectRight (leftSide ⊞ nWidth s) in
        waste_loop visit rectLeft rectRight rest (visit acc leftSide rightSide s)
    else acc
  end.

Definition computeWaste (p : skylinePack) (index : Z) (width height y : Z) : option Z :=
  s ← idx (skyline p) index;
  let rectLeft := nX s in
  let rectRight := rectLeft ⊞ width in
  Some (waste_loop
          (fun wastedArea leftSide rightSide s =>
             wastedArea ⊞ (rightSide ⊟ leftSide) ⊠ (y ⊟ nY s))
          rectLeft rectRight (drop (Z.to_nat index) (skyline p)) 0).

Definition testFitWithWaste (p : skylinePack) (index width height : Z) (y wastedArea : Z)
    : option (bool * Z * Z) :=
  '(fits, y) ← testFit p index width height y;
  if fits : bool then
    w ← computeWaste p index width height y;
    Some (fits, y, w)
  else Some (fits, y, wastedArea).

(** [addWaste] dereferences [p.wasteMap]. *)
Definition addWaste (p : skylinePack) (index : Z) (width height y : Z) : option skylinePack :=
  s ← idx (skyline p) index;
  let rectLeft := nX s in
  let rectRight := rectLeft ⊞ width in
  g ← wasteMap p;
  let frees :=
    waste_loop
      (fun frees leftSide rightSide s =>
         frees ++ [setXYWH zeroRect leftSide (nY s) (rightSide ⊟ leftSide) (y ⊟ nY s)])
      rectLeft rectRight (drop (Z.to_nat index) (skyline p)) (GU.freeRects g) in
  Some (set_wasteMap (Some (GU.set_free frees g)) p).

(** The shrinking loop of [addLevel]; after a deletion the index stays. *)
Fixpoint addLevel_loop (fuel : nat) (i : nat) (l : list skylineNode) : option (list skylineNode) :=
  if bool_decide (i < length l)%nat then
    match fuel with
    | O => None
    | S fuel =>
      cur ← l !! i;
      prev ← l !! pred i;
      if nX cur <? nX prev ⊞ nWidth prev then
        let shrink := nX prev ⊞ nWidth prev ⊟ nX cur in
        let cur := mkNode (nX cur ⊞ shrink) (nY cur) (nWidth cur ⊟ shrink) in
        let l := <[i := cur]> l in
        if nWidth cur <=? 0 then addLevel_loop fuel i (delete i l)
        else Some l
      else Some l
    end
  else Some l.

(** [slices.Insert(l, i, x)]. *)
Definition slices_Insert {A} (l : list A) (i : Z) (x : A) : option (list A) :=
  if (i <? 0) || (Z.of_nat (length l) <? i) then None
  else Some (take (Z.to_nat i) l ++ x :: drop (Z.to_nat i) l).

Definition addLevel (index : Z) (rect : Rect) (p : skylinePack) : option skylinePack :=
  p ← match wasteMap p with
      | Some _ => addWaste p index (rW rect) (rH rect) (rY rect)
      | None => Some p
      end;
  let newNode := mkNode (rX rect) (rY rect ⊞ rH rect) (rW rect) in
  l ← slices_Insert (skyline p) index newNode;
  l ← addLevel_loop (length l) (S (Z.to_nat index)) l;
  mergeSkylines (set_skyline l p).

(** The state of the two finders: [(newNode, best1, best2, bestIndex)], where
    [best1] is compared first. *)
Definition found := (Rect * Z * Z * Z)%type.

Definition findBottomLeft_try (p : skylinePack) (flipped : bool) (i w h : Z) (y : Z)
    (st : found) : option (found * Z) :=
  '(fits, y) ← testFit p i w h y;
  s ← idx (skyline p) i;
  let '(newNode, bestHeight, bestWidth, bestIndex) := st in
  if fits && ((y ⊞ h <? bestHeight) || ((y ⊞ h =? bestHeight) && (nWidth s <? bestWidth)))
  then
    let n := setXYWH newNode (nX s) y w h in
    Some ((if flipped then setFlipped n true else n, y ⊞ h, nWidth s, i), y)
  else Some (st, y).

Fixpoint findBottomLeft_loop (p : skylinePack) (width height : Z) (n : nat) (i : Z)
    (st : found) : option found :=
  match n with
  | O => Some st
  | S n =>
    let y := 0 in
    '(st, y) ← findBottomLeft_try p false i width height y st;
    '(st, y) ← (if allowFlip (base p)
                then findBottomLeft_try p true i height width y st
                else Some (st, y));
    findBottomLeft_loop p width height n (i + 1) st
  end.

(** Returns [(newNode, *bestHeight, *bestWidth, *bestIndex)]. *)
Definition findBottomLeft (p : skylinePack) (width height : Z) : option found :=
  findBottomLeft_loop p width height (length (skyline p)) 0 (zeroRect, MaxInt, MaxInt, -1).

(** State here: [(newNode, bestWastedArea, bestHeight, bestIndex)]. *)
Definition findMinWaste_try (p : skylinePack) (flipped : bool) (i w h : Z) (y wasted : Z)
    (st : found) : option (found * Z * Z) :=
  '(fits, y, wasted) ← testFitWithWaste p i w h y wasted;
  s ← idx (skyline p) i;
  let '(newNode, bestWastedArea, bestHeight, bestIndex) := st in
  if fits && ((wasted <? bestWastedArea) || ((wasted =? bestWastedArea) && (y ⊞ h <? bestHeight)))
  then
    let n := setXYWH newNode (nX s) y w h in
    Some ((if flipped then setFlipped n true else n, wasted, y ⊞ h, i), y, wasted)
  else Some (st, y, wasted).

Fixpoint findMinWaste_loop (p : skylinePack) (width height : Z) (n : nat) (i : Z)
    (st : found) : option found :=
  match n with
  | O => Some st
  | S n =>
    let y := 0 in
    let wasted := 0 in
    '(st, y, wasted) ← findMinWaste_try p false i width height y wasted st;
    '(st, y, wasted) ← (if allowFlip (base p)
                        then findMinWaste_try p true i height width y wasted st
                        else Some (st, y, wasted));
    findMinWaste_loop p width height n (i + 1) st
  end.

(** Returns [(newNode, *bestWastedArea, *bestHeight, *bestIndex)]. *)
Definition findMinWaste (p : skylinePack) (width height : Z) : option found :=
  findMinWaste_loop p width height (length (skyline p)) 0 (zeroRect, MaxInt, MaxInt, -1).

(** The [range] loop of [Insert]; the state is
    [(bestNode, bestScore1, bestScore2, bestBinIndex, bestSizeIndex)].  Both
    finders are called so that [score1] receives what is compared first. *)
Fixpoint Insert_scan (p : skylinePack) (i : Z) (sizes : list Size)
    (best : Rect * Z * Z * Z * Z) : option (Rect * Z * Z * Z * Z) :=
  match sizes with
  | [] => Some best
  | size :: rest =>
    let '(bestNode, bestScore1, bestScore2, bestBinIndex, bestSizeIndex) := best in
    let size := padSize size (padding (base p)) in
    '(newNode, score1, score2, index) ←
      (if levelSelect p =? MinWaste
       then findMinWaste p (Width size) (Height size)
       else findBottomLeft p (Width size) (Height size));
    Insert_scan p (i + 1) rest
      (if negb (rH newNode =? 0) &&
          ((score1 <? bestScore1) || ((score1 =? bestScore1) && (score2 <? bestScore2)))
       then (newNode, score1, score2, index, i)
       else best)
  end.

(** The second half of an iteration of [Insert]: the actual packing. *)
Definition Insert_commit (bestNode : Rect) (bestBinIndex bestSizeIndex : Z)
    (p : skylinePack) (sizes : list Size) : option (skylinePack * list Size) :=
  p ← addLevel bestBinIndex bestNode p;
  let p := set_base (set_usedArea (usedArea (base p) ⊞ rArea bestNode) (base p)) p in
  let bestNode := unpadRect bestNode (padding (base p)) in
  size ← idx sizes bestSizeIndex;
  let bestNode := setID bestNode (ID size) in
  let p := set_base (set_packed (packed (base p) ++ [bestNode]) (base p)) p in
  sizes ← slices_Delete sizes bestSizeIndex;
  Some (p, sizes).

Fixpoint Insert_loop (fuel : nat) (p : skylinePack) (sizes : list Size)
    : option (skylinePack * list Size) :=
  match sizes with
  | [] => Some (p, sizes)
  | _ :: _ =>
    '(bestNode, _, _, bestBinIndex, bestSizeIndex) ←
      Insert_scan p 0 sizes (zeroRect, MaxInt, MaxInt, -1, -1);
    if bestSizeIndex =? -1 then Some (p, sizes)
    else
      match fuel with
      | O => None
      | S fuel =>
        '(p, sizes) ← Insert_commit bestNode bestBinIndex bestSizeIndex p sizes;
        Insert_loop fuel p sizes
      end
  end.

Definition Insert (sizes : list Size) (p : skylinePack) : option (skylinePack * list Size) :=
  Insert_loop (length sizes) p sizes.

Definition Rects (p : skylinePack) : list Rect := packed (base p).

End SK.

(** ** Comparators (sort.go) *)

Definition SortFunc := Size -> Size -> Z.

Definition Perimeter (sz : Size) : Z := wrap (Z.shiftl (Width sz ⊞ Height sz) 1).
Definition MaxSide (sz : Size) : Z := imax (Width sz) (Height sz).
Definition MinSide (sz : Size) : Z := imin (Width sz) (Height sz).

Definition SortArea : SortFunc := fun a b => cmp_Compare (Area b) (Area a).
Definition SortPerimeter : SortFunc := fun a b => cmp_Compare (Perimeter b) (Perimeter a).
Definition SortDiff : SortFunc :=
  fun a b => cmp_Compare (abs (Width b ⊟ Height b)) (abs (Width a ⊟ Height a)).
Definition SortMinSide : SortFunc := fun a b => cmp_Compare (MinSide b) (MinSide a).
Definition SortMaxSide : SortFunc := fun a b => cmp_Compare (MaxSide b) (MaxSide a).

(** ** The packer (packer.go) *)

(** The operations of [packAlgorithm] that packer.go calls, with the
    signatures of its call sites: [Insert] receives the padding first.  Of
    the three engines, [guillotinePack] is the one whose [Insert] has this
    signature. *)
Class packAlgorithm (A : Type) := {
  algo_Reset : Z -> Z -> A -> option A;
  algo_Insert : Z -> list Size -> A -> option (A * list Size);
  algo_Rects : A -> list Rect;
  algo_AllowFlip : bool -> A -> A;
  algo_MaxSize : A -> Size;
  algo_UsedArea : A -> Z
}.

#[global] Instance guillotine_packAlgorithm : packAlgorithm GU.guillotinePack := {
  algo_Reset := GU.Reset;
  algo_Insert := GU.Insert;
  algo_Rects := GU.Rects;
  algo_AllowFlip := GU.AllowFlip;
  algo_MaxSize := fun p => base_MaxSize (GU.base p);
  algo_UsedArea := fun p => usedArea (GU.base p)
}.

Module PK.
Section packer.
Context {A : Type} `{packAlgorithm A}.

(** [slices.SortFunc] of Go's library, which packer.go calls. *)
Variable slices_SortFunc : SortFunc -> list Size -> list Size.

Record Packer := mk {
  unpacked : list Size;
  algo : A;
  (** [None] is the nil function. *)
  sortFunc : option SortFunc;
  Padding : Z;
  sortRev : bool;
  Online : bool
}.

Definition set_unpacked (l : list Size) (p : Packer) : Packer :=
  mk l (algo p) (sortFunc p) (Padding p) (sortRev p) (Online p).
Definition set_algo (a : A) (p : Packer) : Packer :=
  mk (unpacked p) a (sortFunc p) (Padding p) (sortRev p) (Online p).
Definition set_Padding (pad : Z) (p : Packer) : Packer :=
  mk (unpacked p) (algo p) (sortFunc p) pad (sortRev p) (Online p).
Definition set_Online (b : bool) (p : Packer) : Packer :=
  mk (unpacked p) (algo p) (sortFunc p) (Padding p) (sortRev p) b.

Definition Size_ (p : Packer) : Size :=
  foldl (fun size rect =>
           let size := mkSize (imax (Width size) (Right rect ⊞ Padding p)) (Height size) (ID size) in
           mkSize (Width size) (imax (Height size) (Bottom rect ⊞ Padding p)) (ID size))
        zeroSize (algo_Rects (algo p)).

(** The result is the returned slice and the packer. *)
Definition Insert (sizes : list Size) (p : Packer) : option (list Size * Packer) :=
  if Online p then
    '(a, failed) ← algo_Insert (Padding p) sizes (algo p);
    Some (failed, set_algo a p)
  else
    let p := set_unpacked (unpacked p ++ sizes) p in
    Some (unpacked p, p).

Definition InsertSize (id width height : Z) (p : Packer) : option (bool * Packer) :=
  '(result, p) ← Insert [NewSizeID id width height] p;
  if Online p && negb (length result =? 0)%nat then Some (false, p)
  else Some (true, p).

Definition Sorter (compare : option SortFunc) (reverse : bool) (p : Packer) : Packer :=
  mk (unpacked p) (algo p) compare (Padding p) reverse (Online p).

Definition Rects (p : Packer) : list Rect := algo_Rects (algo p).
Definition Unpacked (p : Packer) : list Size := unpacked p.

Definition Clear (p : Packer) : option Packer :=
  let size := algo_MaxSize (algo p) in
  a ← algo_Reset (Width size) (Height size) (algo p);
  Some (set_unpacked [] (set_algo a p)).

(** The staging list as [Pack] hands it to the engine. *)
Definition sorted_staging (p : Packer) : list Size :=
  match sortFunc p with
  | Some f =>
    if sortRev p then slices_SortFunc (fun a b => f b a) (unpacked p)
    else slices_SortFunc f (unpacked p)
  | None => if sortRev p then reverse (unpacked p) else unpacked p
  end.

Definition Pack (p : Packer) : option (bool * Packer) :=
  if (length (unpacked p) =? 0)%nat then Some (true, p)
  else
    let p := set_unpacked (sorted_staging p) p in
    '(a, failed) ← algo_Insert (Padding p) (unpacked p) (algo p);
    let p := set_algo a p in
    if (length failed =? 0)%nat then Some (true, set_unpacked [] p)
    else Some (false, set_unpacked failed p).

Definition RepackAll (p : Packer) : option (bool * Packer) :=
  let rects := algo_Rects (algo p) in
  let p := foldl (fun p rect => set_unpacked (unpacked p ++ [rSize rect]) p) p rects in
  let size := Size_ p in
  a ← algo_Reset (Width size) (Height size) (algo p);
  Pack (set_algo a p).

Definition AllowFlip (enabled : bool) (p : Packer) : Packer :=
  set_algo (algo_AllowFlip enabled (algo p)) p.

(** [NewPacker], for the arm of its [switch] that builds the engine [A]
    with [new]. *)
Definition NewPacker (new : Z -> Z -> Heuristic -> option A)
    (maxWidth maxHeight : Z) (heuristic : Heuristic) : option Packer :=
  a ← new maxWidth maxHeight heuristic;
  Some (mk [] a (Some SortArea) 0 false false).
End packer.

Arguments Packer : clear implicits.

(** The insertion sort that [slices.SortFunc] runs on a slice of at most
    twelve elements: each element moves left while it compares less than its
    left neighbour.  [ins] works on the reversed sorted prefix. *)
Fixpoint ins (cmp : SortFunc) (x : Size) (racc : list Size) : list Size :=
  match racc with
  | [] => [x]
  | y :: r => if cmp x y <? 0 then y :: ins cmp x r else x :: racc
  end.

Definition insertion_sort (cmp : SortFunc) (l : list Size) : list Size :=
  reverse (foldl (fun racc x => ins cmp x racc) [] l).

End PK.

(** ** Predicates used in the statements *)

(** Exact (unwrapped) geometry. *)
Definition contains (a b : Rect) : Prop :=
  rX a <= rX b /\ rX b + rW b <= rX a + rW a /\
  rY a <= rY b /\ rY b + rH b <= rY a + rH a.

Definition disj (a b : Rect) : Prop :=
  rX a + rW a <= rX b \/ rX b + rW b <= rX a \/
  rY a + rH a <= rY b \/ rY b + rH b <= rY a.

(** A non-degenerate rectangle inside the bin [W] x [H]. *)
Definition inbin (W H : Z) (r : Rect) : Prop :=
  0 <= rX r /\ 0 <= rY r /\ 0 < rW r /\ 0 < rH r /\
  rX r + rW r <= W /\ rY r + rH r <= H.

(** The corners of [r] lie in the closed rectangle [f]; [r] itself may be
    degenerate or reversed. *)
Definition within (r f : Rect) : Prop :=
  rX f <= rX r <= rX f + rW f /\ rX f <= rX r + rW r <= rX f + rW f /\
  rY f <= rY r <= rY f + rH f /\ rY f <= rY r + rH r <= rY f + rH f.

(** The sums the geometry tests compute do not overflow. *)
Definition safe (r : Rect) : Prop :=
  in_int (rX r + rW r) /\ in_int (rY r + rH r).

(** No element of the list contains another one. *)
Definition nocontain (l : list Rect) : Prop :=
  forall i j a b, i <> j -> l !! i = Some a -> l !! j = Some b -> ~ contains a b.

Definition pairwise_disj (l : list Rect) : Prop :=
  forall i j a b, i <> j -> l !! i = Some a -> l !! j = Some b -> disj a b.

(** What the packed list must satisfy: two entries at different positions
    have an intersection of area 0, and [Intersects] says no. *)
Definition no_overlap (l : list Rect) : Prop :=
  forall i j a b, i <> j -> l !! i = Some a -> l !! j = Some b ->
    rArea (Intersect a b) = 0 /\ Intersects a b = false.

(** A size the data model allows, whose padded sides are still [int]s. *)
Definition valid_size (pad : Z) (s : Size) : Prop :=
  1 <= Width s /\ 1 <= Height s /\
  Width s + Z.max pad 0 <= MaxInt /\ Height s + Z.max pad 0 <= MaxInt.

(** The node a MaxRects scorer returns for the padded size [w] x [h]: at
    the corner of a free rectangle that is large enough for it, upright or
    (when flipping is allowed) turned. *)
Definition MR_fit (frees : list Rect) (flip : bool) (w h : Z) (n : Rect) : Prop :=
  exists F, F ∈ frees /\ rX n = rX F /\ rY n = rY F /\ rW n <= rW F /\ rH n <= rH F /\
    ((rW n = w /\ rH n = h) \/ (flip = true /\ rW n = h /\ rH n = w)).

(** The invariant of the MaxRects engine.  [fs] are the footprints, the
    padded nodes that were placed, one for each packed rectangle. *)
Definition MR_inv (p : MR.maxRects) (fs : list Rect) : Prop :=
  let W := maxWidth (MR.base p) in
  let H := maxHeight (MR.base p) in
  0 < W <= MaxInt /\ 0 < H <= MaxInt /\
  Forall (inbin W H) (MR.freeRects p) /\ nocontain (MR.freeRects p) /\
  MR.newFreeRects p = [] /\
  Forall (inbin W H) fs /\ pairwise_disj fs /\
  Forall2 within (packed (MR.base p)) fs /\
  (forall F f, F ∈ MR.freeRects p -> f ∈ fs -> disj F f).

(** States of the MaxRects engine that its API can produce.  A step is one
    iteration of [Insert]: the scan that picks the best size, and the commit
    ([placeRect], which ends with [pruneFreeList]). *)
Inductive MR_reachable : MR.maxRects -> Prop :=
| MR_reach_new w h heur p :
    w <= MaxInt -> h <= MaxInt ->
    MR.newMaxRects w h heur = Some p -> MR_reachable p
| MR_reach_Reset w h p p' :
    w <= MaxInt -> h <= MaxInt ->
    MR_reachable p -> MR.Reset w h p = Some p' -> MR_reachable p'
| MR_reach_AllowFlip b p :
    MR_reachable p -> MR_reachable (MR.AllowFlip b p)
| MR_reach_Padding pad p :
    MR_reachable p -> MR_reachable (MR.Padding pad p)
| MR_reach_step sizes p bestNode s1 s2 bestRectIndex p' rest :
    MR_reachable p -> Forall (valid_size (padding (MR.base p))) sizes ->
    MR.Insert_scan p 0 sizes (zeroRect, MaxInt, MaxInt, -1)
      = (bestNode, s1, s2, bestRectIndex) ->
    bestRectIndex <> -1 ->
    MR.Insert_commit bestNode bestRectIndex p sizes = Some (p', rest) ->
    MR_reachable p'.

(** A free rectangle whose coordinates are [int]s and whose height is not 0. *)
Definition tall (a : Rect) : Prop := in_int (rY a) /\ in_int (rH a) /\ rH a <> 0.

(** ** Concrete packers used as examples *)

(** A Guillotine packer for the bin [w] x [h], or the given fallback when the
    constructor panics. *)
Definition guillotine_packer (w h : Z) (heuristic : Heuristic) : PK.Packer GU.guillotinePack :=
  default (PK.mk [] (GU.mk (mkBase [] 0 0 0 false 0) true 0 GU.scoreBestArea []) None 0 false false)
          (PK.NewPacker GU.newGuillotine w h heuristic).

(** A fresh 10 x 10 packer with padding 1: nothing is packed. *)
Definition example_fresh : PK.Packer GU.guillotinePack :=
  PK.set_Padding 1 (guillotine_packer 10 10 GuillotineBAF).

(** A 4 x 4 online packer after [Insert] of 1 x 2 (id 1) and then of 3 x 1
    (id 2). *)
Definition example_online : PK.Packer GU.guillotinePack :=
  let p := PK.set_Online true (guillotine_packer 4 4 GuillotineBAF) in
  let p := default p (snd <$> PK.Insert [NewSizeID 1 1 2] p) in
  default p (snd <$> PK.Insert [NewSizeID 2 3 1] p).

(** A 4 x 4 offline packer with three staged sizes, one of them too large. *)
Definition example_staged : PK.Packer GU.guillotinePack :=
  let p := guillotine_packer 4 4 GuillotineBAF in
  default p (snd <$> PK.Insert [NewSizeID 1 1 2; NewSizeID 2 8 8; NewSizeID 3 3 1] p).

(** The engine of [example_staged] after [Pack] has handed it the sorted
    staging list. *)
Definition example_staged_engine : GU.guillotinePack :=
  default (PK.algo example_staged)
    (fst <$> GU.Insert 0 [NewSizeID 2 8 8; NewSizeID 3 3 1; NewSizeID 1 1 2]
                       (PK.algo example_staged)).

(** [example_online] after [RepackAll]. *)
Definition example_repacked : PK.Packer GU.guillotinePack :=
  default example_online (snd <$> PK.RepackAll PK.insertion_sort example_online).

(** A 15 x 14 Guillotine packer (heuristic 0x222) with padding 2 and four
    staged sizes. *)
Definition example_padded_staged : PK.Packer GU.guillotinePack :=
  let p := PK.set_Padding 2 (guillotine_packer 15 14 0x222) in
  default p (snd <$> PK.Insert [NewSizeID 1 7 9; NewSizeID 2 1 3; NewSizeID 3 4 8;
                                NewSizeID 4 9 7] p).

(** [example_padded_staged] after [Pack]. *)
Definition example_padded_packed : PK.Packer GU.guillotinePack :=
  default example_padded_staged (snd <$> PK.Pack PK.insertion_sort example_padded_staged).

(** [example_padded_packed] after [RepackAll]. *)
Definition example_padded_repacked : PK.Packer GU.guillotinePack :=
  default example_padded_packed
          (snd <$> PK.RepackAll PK.insertion_sort example_padded_packed).

(** [l2] is [l] with some entries dropped and the others moved: an injective
    map sends each position of [l2] to a position of [l] with the same entry. *)
Definition reindexed {A} (l2 l : list A) : Prop :=
  exists f : nat -> nat,
    (forall k x, l2 !! k = Some x -> l !! f k = Some x) /\
    (forall k1 k2, (k1 < length l2)%nat -> (k2 < length l2)%nat -> f k1 = f k2 -> k1 = k2).

(** The strips that [splitFreeNode] cuts from the free rectangle [F] around
    the used node [U], in the order of the source (top, bottom, left,
    right), and the test that guards each. *)
Definition strip (F U : Rect) (k : nat) : Rect :=
  match k with
  | O => setH F (rY U - rY F)
  | 1%nat => setH (setY F (rY U + rH U)) (rY F + rH F - (rY U + rH U))
  | 2%nat => setW F (rX U - rX F)
  | _ => setW (setX F (rX U + rW U)) (rX F + rW F - (rX U + rW U))
  end.

Definition strip_guard (F U : Rect) (k : nat) : Prop :=
  match k with
  | O => rY F < rY U < rY F + rH F
  | 1%nat => rY U + rH U < rY F + rH F
  | 2%nat => rX F < rX U < rX F + rW F
  | _ => rX U + rW U < rX F + rW F
  end.

(** What a call inside [placeRect] leaves untouched. *)
Definition MR_frame (p p' : MR.maxRects) : Prop :=
  MR.base p' = MR.base p /\ MR.freeRects p' = MR.freeRects p /\
  MR.findNode p' = MR.findNode p.

(** A new free rectangle cut while placing [U]: it lies in the bin, off [U],
    inside a free rectangle of the list [old0] that [U] overlaps. *)
Definition new_ok (W H : Z) (old0 : list Rect) (U N : Rect) : Prop :=
  inbin W H N /\ disj N U /\ exists F, F ∈ old0 /\ contains F N /\ ~ disj F U.

(** The state between two insertions of [splitFreeNode] on [(F, U)]: the
    entries from [newLastSize] on are strips of kinds below [k]. *)
Definition split_inv (W H : Z) (old0 : list Rect) (F U : Rect) (p : MR.maxRects)
    (k : nat) (q : MR.maxRects) : Prop :=
  MR_frame p q /\ nocontain (MR.newFreeRects q) /\
  Forall (new_ok W H old0 U) (MR.newFreeRects q) /\
  (MR.newLastSize q <= length (MR.newFreeRects q))%nat /\
  forall j x, (MR.newLastSize q <= j)%nat -> MR.newFreeRects q !! j = Some x ->
    exists k', (k' < k)%nat /\ strip_guard F U k' /\ x = strip F U k'.

(** What the scan of [Insert] holds after some of the sizes: scores that a
    failed search cannot beat, and either no choice yet or a size of the
    slice together with a node that fits it. *)
Definition MR_scan_ok (p : MR.maxRects) (sizes0 : list Size)
    (best : Rect * Z * Z * Z) : Prop :=
  let '(bestNode, b1, b2, index) := best in
  (b1 < MaxInt \/ (b1 = MaxInt /\ b2 <= MaxInt)) /\
  (index = -1 \/
   exists s, 0 <= index /\ sizes0 !! Z.to_nat index = Some s /\
     MR_fit (MR.freeRects p) (allowFlip (MR.base p))
       (Width (padSize s (padding (MR.base p))))
       (Height (padSize s (padding (MR.base p)))) bestNode).

(** A MaxRects engine with two packed rectangles, used as an example. *)
Definition example_maxrects : MR.maxRects :=
  let p := default (MR.mk (mkBase [] 0 0 0 false 0) MR.findPositionBestShortSideFit 0 [] [])
                   (MR.newMaxRects 10 10 MaxRectsBSSF) in
  default p (fst <$> MR.Insert [NewSizeID 1 3 4; NewSizeID 2 5 2] (MR.Padding 1 p)).

(** ** Skyline predicates *)

(** The segments [l] abut, start at [x], end at [W], and have positive
    widths. *)
Fixpoint chain (x : Z) (l : list SK.skylineNode) (W : Z) : Prop :=
  match l with
  | [] => x = W
  | s :: l => SK.nX s = x /\ 0 < SK.nWidth s /\ chain (x + SK.nWidth s) l W
  end.

(** Adjacent segments differ in Y, for the pairs that start before [i]. *)
Definition merged_upto (i : nat) (l : list SK.skylineNode) : Prop :=
  forall k a b, (k < i)%nat -> l !! k = Some a -> l !! S k = Some b -> SK.nY a <> SK.nY b.

Definition merged (l : list SK.skylineNode) : Prop :=
  forall k a b, l !! k = Some a -> l !! S k = Some b -> SK.nY a <> SK.nY b.

(** The footprint [f] does not rise above the segment [s] where they share
    columns. *)
Definition under (f : Rect) (s : SK.skylineNode) : Prop :=
  rX f < SK.nX s + SK.nWidth s -> SK.nX s < rX f + rW f -> rY f + rH f <= SK.nY s.

Definition level_ok (H : Z) (s : SK.skylineNode) : Prop := 0 <= SK.nY s <= H.

(** The invariant of the Skyline engine; [fs] are the footprints. *)
Definition SK_inv (p : SK.skylinePack) (fs : list Rect) : Prop :=
  let W := maxWidth (SK.base p) in
  let H := maxHeight (SK.base p) in
  0 < W <= MaxInt /\ 0 < H <= MaxInt /\
  chain 0 (SK.skyline p) W /\ merged (SK.skyline p) /\
  Forall (level_ok H) (SK.skyline p) /\
  Forall (inbin W H) fs /\ pairwise_disj fs /\
  Forall2 within (packed (SK.base p)) fs /\
  (forall f, f ∈ fs -> Forall (under f) (SK.skyline p)).

(** Sizes the Skyline engine can add to a coordinate of the bin without
    leaving the [int] range. *)
Definition SK_valid_size (p : SK.skylinePack) (s : Size) : Prop :=
  let m := Z.max (maxWidth (SK.base p)) (maxHeight (SK.base p)) in
  let pad := Z.max (padding (SK.base p)) 0 in
  1 <= Width s /\ 1 <= Height s /\
  Width s + pad + m <= MaxInt /\ Height s + pad + m <= MaxInt.

(** The node a Skyline finder returns for the padded size [w] x [h] at the
    segment [index]: it starts at that segment, stays in the bin, and rests
    on the highest of the segments below it. *)
Definition SK_fit (p : SK.skylinePack) (w h : Z) (n : Rect) (index : Z) : Prop :=
  exists s,
    0 <= index /\ SK.skyline p !! Z.to_nat index = Some s /\
    ((rW n = w /\ rH n = h) \/ (allowFlip (SK.base p) = true /\ rW n = h /\ rH n = w)) /\
    rX n = SK.nX s /\
    rX n + rW n <= maxWidth (SK.base p) /\ 0 <= rY n /\
    rY n + rH n <= maxHeight (SK.base p) /\
    (forall s', s' ∈ drop (Z.to_nat index) (SK.skyline p) ->
       SK.nX s' < rX n + rW n -> SK.nY s' <= rY n).

Definition SK_found_ok (p : SK.skylinePack) (w h : Z) (st : SK.found) : Prop :=
  st.1.1.1 = zeroRect \/ SK_fit p w h st.1.1.1 st.2.

(** What the scan of the Skyline [Insert] holds: no choice yet, or a size of
    the slice with a node that fits it. *)
Definition SK_scan_ok (p : SK.skylinePack) (sizes0 : list Size)
    (best : Rect * Z * Z * Z * Z) : Prop :=
  let '(bestNode, _, _, binIndex, sizeIndex) := best in
  sizeIndex = -1 \/
  exists s, 0 <= sizeIndex /\ sizes0 !! Z.to_nat sizeIndex = Some s /\
    SK_fit p (Width (padSize s (padding (SK.base p))))
             (Height (padSize s (padding (SK.base p)))) bestNode binIndex.

(** What the shrinking loop of [addLevel] does to the segments that follow
    the new one, whose right end is [r]: segments buried by it go, the first
    one that sticks out is cut at [r]. *)
Fixpoint trim (r : Z) (segs : list SK.skylineNode) : list SK.skylineNode :=
  match segs with
  | [] => []
  | s :: rest =>
    if SK.nX s <? r then
      if SK.nWidth s - (r - SK.nX s) <=? 0 then trim r rest
      else SK.mkNode r (SK.nY s) (SK.nWidth s - (r - SK.nX s)) :: rest
    else s :: rest
  end.

(** A segment at a level of the bin that no footprint of [fs] rises above. *)
Definition seg_ok (H : Z) (fs : list Rect) (s : SK.skylineNode) : Prop :=
  level_ok H s /\ forall f, f ∈ fs -> under f s.

(** The part of [SK_inv] that speaks of the profile. *)
Definition profile_ok (W H : Z) (fs : list Rect) (l : list SK.skylineNode) : Prop :=
  chain 0 l W /\ Forall (seg_ok H fs) l.

(** States of the Skyline engine that its API can produce.  A step is one
    iteration of [Insert]: the scan that picks a size and a segment, and the
    commit ([addLevel], which ends with [mergeSkylines]). *)
Inductive SK_reachable : SK.skylinePack -> Prop :=
| SK_reach_new w h heur p :
    w <= MaxInt -> h <= MaxInt ->
    SK.newSkyline w h heur = Some p -> SK_reachable p
| SK_reach_Reset w h p p' :
    w <= MaxInt -> h <= MaxInt ->
    SK_reachable p -> SK.Reset w h p = Some p' -> SK_reachable p'
| SK_reach_AllowFlip b p :
    SK_reachable p -> SK_reachable (SK.AllowFlip b p)
| SK_reach_Padding pad p :
    SK_reachable p -> SK_reachable (SK.Padding pad p)
| SK_reach_step sizes p bestNode s1 s2 bestBinIndex bestSizeIndex p' rest :
    SK_reachable p -> Forall (SK_valid_size p) sizes ->
    SK.Insert_scan p 0 sizes (zeroRect, MaxInt, MaxInt, -1, -1)
      = Some (bestNode, s1, s2, bestBinIndex, bestSizeIndex) ->
    bestSizeIndex <> -1 ->
    SK.Insert_commit bestNode bestBinIndex bestSizeIndex p sizes = Some (p', rest) ->
    SK_reachable p'.

(** The bin, the padding and the flip flag, on which the validity of a size
    depends. *)
Definition SK_same_config (p p' : SK.skylinePack) : Prop :=
  maxWidth (SK.base p') = maxWidth (SK.base p) /\
  maxHeight (SK.base p') = maxHeight (SK.base p) /\
  padding (SK.base p') = padding (SK.base p) /\
  allowFlip (SK.base p') = allowFlip (SK.base p) /\
  SK.levelSelect p' = SK.levelSelect p.

(** The sum of the widths of a profile. *)
Definition SK_widths (l : list SK.skylineNode) : Z :=
  foldr (fun s acc => SK.nWidth s + acc) 0 l.

(** A Skyline MinWaste engine with three packed rectangles, used as an
    example. *)
Definition example_skyline : SK.skylinePack :=
  let p := default (SK.mk (mkBase [] 0 0 0 false 0) 0 [] None)
                   (SK.newSkyline 10 10 SkylineMinWaste) in
  default p (fst <$> SK.Insert [NewSizeID 1 3 4; NewSizeID 2 5 2; NewSizeID 3 2 2]
                       (SK.Padding 1 p)).

(** Two Skyline states that differ at most in their waste maps. *)
Definition SK_same_view (p q : SK.skylinePack) : Prop :=
  SK.base p = SK.base q /\ SK.levelSelect p = SK.levelSelect q /\
  SK.skyline p = SK.skyline q.

(** The state [p] after [Insert] moved the base to [b] and the profile to
    [sk] and left the rectangles [ext] in the waste map [g]. *)
Definition SK_after (p : SK.skylinePack) (g : GU.guillotinePack)
    (r : algorithmBase * list SK.skylineNode * list Rect) : SK.skylinePack :=
  SK.mk r.1.1 (SK.levelSelect p) r.1.2
        (Some (GU.set_free (GU.freeRects g ++ r.2) g)).

(** ** Guillotine predicates *)

(** The rectangle [r] as the code sees it (its left and top edge, and the
    right and bottom edge that [Right] and [Bottom] compute) lies inside
    [f]; its sides may be degenerate or reversed. *)
Definition shrunk (r f : Rect) : Prop :=
  rX f <= rX r /\ Right r <= rX f + rW f /\
  rY f <= rY r /\ Bottom r <= rY f + rH f.

(** The invariant of the Guillotine engine.  [fs] are the footprints, the
    nodes that were cut out of the free rectangles, one for each packed
    rectangle. *)
Definition GU_inv (p : GU.guillotinePack) (fs : list Rect) : Prop :=
  let W := maxWidth (GU.base p) in
  let H := maxHeight (GU.base p) in
  0 < W <= MaxInt /\ 0 < H <= MaxInt /\
  Forall (inbin W H) (GU.freeRects p) /\ pairwise_disj (GU.freeRects p) /\
  Forall (inbin W H) fs /\ pairwise_disj fs /\
  Forall2 shrunk (packed (GU.base p)) fs /\
  (forall F f, F ∈ GU.freeRects p -> f ∈ fs -> disj F f).

(** What the scan of the Guillotine [Insert] holds: no choice yet, or a free
    rectangle and a size of the slice whose padded sides, turned when the
    choice says so, fit it. *)
Definition GU_scan_ok (frees : list Rect) (pad : Z) (sizes0 : list Size)
    (c : GU.choice) : Prop :=
  GU.bestScore c = MaxInt \/
  exists F s,
    0 <= GU.bestFreeRect c /\ frees !! Z.to_nat (GU.bestFreeRect c) = Some F /\
    0 <= GU.bestRect c /\ sizes0 !! Z.to_nat (GU.bestRect c) = Some s /\
    let q := padSize s pad in
    if GU.bestFlipped c then Height q <= rW F /\ Width q <= rH F
    else Width q <= rW F /\ Height q <= rH F.

(** A rectangle that [splitAlongAxis] adds when [n] is cut out of [F]. *)
Definition GU_child_ok (W H : Z) (F n c : Rect) : Prop :=
  inbin W H c /\ contains F c /\ disj c n.

(** States of the Guillotine engine that the constructor, [Reset],
    [AllowFlip] and [Insert] produce when every size handed to [Insert] has
    sides of at least 1 that stay [int]s when padded.  A step is one
    iteration of [Insert], called with the padding [pad]: the scan that
    picks a free rectangle and a size, and the commit.  [RepackAll] of the
    packer hands [Insert] the sizes of the packed rectangles, which padding
    may have shrunk to a side below 1: the states it produces then are not
    among these. *)
Inductive GU_reachable : GU.guillotinePack -> Prop :=
| GU_reach_new w h heur p :
    w <= MaxInt -> h <= MaxInt ->
    GU.newGuillotine w h heur = Some p -> GU_reachable p
| GU_reach_Reset w h p p' :
    w <= MaxInt -> h <= MaxInt ->
    GU_reachable p -> GU.Reset w h p = Some p' -> GU_reachable p'
| GU_reach_AllowFlip b p :
    GU_reachable p -> GU_reachable (GU.AllowFlip b p)
| GU_reach_step pad sizes p c0 p' rest :
    GU_reachable p -> Forall (valid_size pad) sizes ->
    let c := GU.scan_free p pad 0 (GU.freeRects p) sizes
               (GU.mkChoice (GU.bestFreeRect c0) (GU.bestRect c0) (GU.bestFlipped c0) MaxInt) in
    GU.bestScore c <> MaxInt ->
    GU.Insert_commit pad c p sizes = Some (p', rest) ->
    GU_reachable p'.

(** A Guillotine engine with two packed rectangles, used as an example. *)
Definition example_guillotine : GU.guillotinePack :=
  let p := default (GU.mk (mkBase [] 0 0 0 false 0) true 0 GU.scoreBestArea [])
                   (GU.newGuillotine 10 10 GuillotineBAF) in
  default p (fst <$> GU.Insert 1 [NewSizeID 1 3 4; NewSizeID 2 5 2] p).

(** ** The three engines *)

Inductive engine :=
| MaxRectsEngine (p : MR.maxRects)
| SkylineEngine (p : SK.skylinePack)
| GuillotineEngine (p : GU.guillotinePack).

Definition engine_base (e : engine) : algorithmBase :=
  match e with
  | MaxRectsEngine p => MR.base p
  | SkylineEngine p => SK.base p
  | GuillotineEngine p => GU.base p
  end.

Definition engine_Rects (e : engine) : list Rect := packed (engine_base e).

Definition reachable (e : engine) : Prop :=
  match e with
  | MaxRectsEngine p => MR_reachable p
  | SkylineEngine p => SK_reachable p
  | GuillotineEngine p => GU_reachable p
  end.

(** [Insert] of the engine.  The Guillotine [Insert] receives the padding
    [pad]; the other two read the padding that [Padding] stored. *)
Definition engine_Insert (pad : Z) (sizes : list Size) (e : engine)
    : option (engine * list Size) :=
  match e with
  | MaxRectsEngine p => (fun r => (MaxRectsEngine r.1, r.2)) <$> MR.Insert sizes p
  | SkylineEngine p => (fun r => (SkylineEngine r.1, r.2)) <$> SK.Insert sizes p
  | GuillotineEngine p => (fun r => (GuillotineEngine r.1, r.2)) <$> GU.Insert pad sizes p
  end.


(** ** More of point.go, size.go and rect.go *)

Definition Point_Eq (p point : Point) : bool :=
  (X p =? X point) && (Y p =? Y point).

Definition Move (p : Point) (x y : Z) : Point := mkPoint x y.

Definition Offset (p : Point) (x y : Z) : Point := mkPoint (X p ⊞ x) (Y p ⊞ y).

(** [Size.Eq] ignores the ID. *)
Definition Size_Eq (sz size : Size) : bool :=
  (Width sz =? Width size) && (Height sz =? Height size).

Definition Rect_Eq (r rect : Rect) : bool :=
  Point_Eq (rPoint r) (rPoint rect) && Size_Eq (rSize r) (rSize rect).

(** [NewRectLTRB]; the source writes [Y: r]. *)
Definition NewRectLTRB (l t r b : Z) : Rect :=
  mkRect (mkPoint l r) (mkSize (r ⊟ l) (b ⊟ t) 0) false.

Definition Left (r : Rect) : Z := rX r.
Definition Top (r : Rect) : Z := rY r.

(** [>>] on an [int] is the arithmetic shift; [<<] wraps. *)
Definition Center (r : Rect) : Point :=
  mkPoint (rX r ⊞ Z.shiftr (rW r) 1) (rY r ⊞ Z.shiftr (rH r) 1).

Definition Contains (r : Rect) (x y : Z) : bool :=
  (rX r <=? x) && (x <? rX r ⊞ rW r) && (rY r <=? y) && (y <? rY r ⊞ rH r).

Definition IsEmpty (r : Rect) : bool := (rW r <=? 0) || (rH r <=? 0).

Definition Inflate (r : Rect) (width height : Z) : Rect :=
  let r := setX r (rX r ⊟ width) in
  let r := setY r (rY r ⊟ height) in
  let r := setW r (rW r ⊞ wrap (Z.shiftl width 1)) in
  setH r (rH r ⊞ wrap (Z.shiftl height 1)).

Definition Union (r rect : Rect) : Rect :=
  let x1 := imin (rX r) (rX rect) in
  let x2 := imax (rX r ⊞ rW r) (rX rect ⊞ rW rect) in
  let y1 := imin (rY r) (rY rect) in
  let y2 := imax (rY r ⊞ rH r) (rY rect ⊞ rH rect) in
  NewRect x1 y1 (x2 ⊟ x1) (y2 ⊟ y1).

(** The four fields of a rectangle are [int]s. *)
Definition int_rect (r : Rect) : Prop :=
  in_int (rX r) /\ in_int (rY r) /\ in_int (rW r) /\ in_int (rH r).

(** A rectangle of the non-negative quadrant whose right and bottom edge are
    [int]s; its sides may be 0. *)
Definition in_plane (r : Rect) : Prop :=
  0 <= rX r /\ 0 <= rY r /\ 0 <= rW r /\ 0 <= rH r /\
  rX r + rW r <= MaxInt /\ rY r + rH r <= MaxInt.

(** The [switch] of [NewPacker] that builds [p.algo]; [None] is the panic of
    its [default] arm or of the constructor's [Reset]. *)
Definition newEngine (maxWidth maxHeight : Z) (heuristic : Heuristic) : option engine :=
  let ty := Z.land heuristic typeMask in
  if ty =? MaxRects then MaxRectsEngine <$> MR.newMaxRects maxWidth maxHeight heuristic
  else if ty =? Skyline then SkylineEngine <$> SK.newSkyline maxWidth maxHeight heuristic
  else if ty =? Guillotine then GuillotineEngine <$> GU.newGuillotine maxWidth maxHeight heuristic
  else None.

(** What [Insert] did with the sizes: the rectangles [new] it appended to
    the packed list carry the IDs of the sizes [chosen], which with the
    returned ones make up the input. *)
Definition moved (packed packed' : list Rect) (sizes rest : list Size) : Prop :=
  exists new chosen,
    packed' = packed ++ new /\ sizes ≡ₚ chosen ++ rest /\ rID <$> new = ID <$> chosen.

(** The padding in force when [Insert] is called with the argument [pad]. *)
Definition engine_padding (pad : Z) (e : engine) : Z :=
  match e with
  | MaxRectsEngine p => padding (MR.base p)
  | SkylineEngine p => padding (SK.base p)
  | GuillotineEngine _ => pad
  end.


(** The total area of a list of rectangles, as an exact integer. *)
Definition area_sum (l : list Rect) : Z := foldr (fun r a => rW r * rH r + a) 0 l.

(** The area bookkeeping of the Guillotine engine: [usedArea] is the wrapped
    value of an exact area [U] that with the free rectangles makes up the
    bin. *)
Definition GU_area_inv (p : GU.guillotinePack) : Prop :=
  exists U, 0 <= U /\ usedArea (GU.base p) = wrap U /\
    U + area_sum (GU.freeRects p) = maxWidth (GU.base p) * maxHeight (GU.base p).

(** [Map] of packer.go: a Go map from ID to rectangle, filled in the order
    of [Rects], a later rectangle replacing an earlier one of the same ID. *)
Definition Packer_Map {A : Type} `{packAlgorithm A} (p : PK.Packer A) : gmap Z Rect :=
  foldl (fun mapping rect => <[rID rect := rect]> mapping) ∅ (PK.Rects p).

(** The size of the node that [Insert] cuts out for the size [s]: MaxRects
    and Skyline build the node from the padded copy of the size, Guillotine
    from the entry of the slice, which [padSize] has not changed. *)
Definition engine_node_size (pad : Z) (e : engine) (s : Size) : Size :=
  match e with
  | GuillotineEngine _ => s
  | _ => padSize s (engine_padding pad e)
  end.

(** [r] was packed upright for [s]: it is what [unpadRect] makes of an
    unflipped node of the size [ns s]. *)
Definition upright (pad : Z) (ns : Size -> Size) (r : Rect) (s : Size) : Prop :=
  exists n, r = unpadRect n pad /\ Flipped n = false /\ rSize n = ns s.

(** [moved] with a relation [R] between each new rectangle and its size. *)
Definition placed (R : Rect -> Size -> Prop) (packed packed' : list Rect)
    (sizes rest : list Size) : Prop :=
  exists new chosen,
    packed' = packed ++ new /\ sizes ≡ₚ chosen ++ rest /\ Forall2 R new chosen.

(** A scorer's node that no flipped test has touched: unflipped, and either
    of height 0 or of the requested sides. *)
Definition unturned (width height : Z) (n : Rect) : Prop :=
  Flipped n = false /\ (rH n = 0 \/ (rW n = width /\ rH n = height)).

(** * Properties *)

(** ** Machine integers *)

Lemma wrap_small z : in_int z -> wrap z = z.
Proof.
  unfold in_int, wrap, MinInt, MaxInt. intros.
  rewrite Z.mod_small; lia.
Qed.


Lemma wrap_wrap_sub a b : wrap (a - wrap b) = wrap (a - b).
Proof.
  unfold wrap. f_equal.
  replace (a - ((b + 9223372036854775808) `mod` 18446744073709551616 - 9223372036854775808)
           + 9223372036854775808)
    with ((a + 18446744073709551616) - (b + 9223372036854775808) `mod` 18446744073709551616) by lia.
  rewrite Zminus_mod_idemp_r.
  f_equal. lia.
Qed.

Lemma add_id_inv y h : in_int y -> in_int h -> y ⊞ h = y -> h = 0.
Proof.
  unfold add, in_int, wrap, MinInt, MaxInt. intros.
  pose proof (Z.div_mod (y + h + 9223372036854775808) 18446744073709551616).
  pose proof (Z.mod_pos_bound (y + h + 9223372036854775808) 18446744073709551616). lia.
Qed.

Lemma sub_mul2 a b : in_int (a - 2 * b) -> a ⊟ b ⊠ 2 = a - 2 * b.
Proof.
  intros. unfold sub, mul. rewrite wrap_wrap_sub.
  replace (a - b * 2) with (a - 2 * b) by lia. by apply wrap_small.
Qed.

(** Removes the [wrap]s whose argument is in range by linear arithmetic. *)
Lemma wrap_small' z : -9223372036854775808 <= z <= 9223372036854775807 -> wrap z = z.
Proof. apply wrap_small. Qed.

Ltac unwrap :=
  unfold add, sub, mul, neg, in_int, MinInt, MaxInt in *;
  repeat match goal with
    | |- context [wrap ?z] => rewrite (wrap_small' z) by lia
    | H : context [wrap ?z] |- _ => rewrite (wrap_small' z) in H by lia
    end.

(** Case analysis on every integer comparison in sight. *)
Ltac zcmp :=
  repeat match goal with
    | |- context [?a <=? ?b] => destruct (Z.leb_spec a b)
    | |- context [?a <? ?b] => destruct (Z.ltb_spec a b)
    | |- context [?a =? ?b] => destruct (Z.eqb_spec a b)
    | H : context [?a <=? ?b] |- _ => destruct (Z.leb_spec a b)
    | H : context [?a <? ?b] |- _ => destruct (Z.ltb_spec a b)
    | H : context [?a =? ?b] |- _ => destruct (Z.eqb_spec a b)
    end.

Lemma imax_spec a b : imax a b = Z.max a b.
Proof. unfold imax. zcmp; lia. Qed.

Lemma imin_spec a b : imin a b = Z.min a b.
Proof. unfold imin. zcmp; lia. Qed.

(** ** Geometry *)

Lemma inbin_safe W H r : W <= MaxInt -> H <= MaxInt -> inbin W H r -> safe r.
Proof. unfold inbin, safe, in_int, MinInt, MaxInt. lia. Qed.

Lemma ContainsRect_spec a b :
  safe a -> safe b -> ContainsRect a b = true <-> contains a b.
Proof.
  unfold safe, ContainsRect, contains. intros [??] [??]. unwrap.
  rewrite !andb_true_iff, !Z.leb_le. tauto.
Qed.

Lemma ContainsRect_false a b :
  safe a -> safe b -> ContainsRect a b = false <-> ~ contains a b.
Proof.
  intros. rewrite <- ContainsRect_spec by done. by destruct (ContainsRect a b).
Qed.

Lemma contains_trans a b c : contains a b -> contains b c -> contains a c.
Proof. unfold contains. lia. Qed.

Lemma contains_refl a : contains a a.
Proof. unfold contains. lia. Qed.

Lemma disj_sym a b : disj a b -> disj b a.
Proof. unfold disj. lia. Qed.

Lemma disj_contains a b c : disj a b -> contains b c -> 0 < rW c -> 0 < rH c -> disj a c.
Proof. unfold disj, contains. lia. Qed.

(** Corners inside disjoint footprints: the code's own tests see no
    overlap. *)
Lemma within_disj_no_overlap W H a b fa fb :
  W <= MaxInt -> H <= MaxInt ->
  inbin W H fa -> inbin W H fb -> within a fa -> within b fb -> disj fa fb ->
  rArea (Intersect a b) = 0 /\ Intersects a b = false.
Proof.
  unfold inbin, within, disj, Intersect, Intersects, rArea, Area, MaxInt.
  intros ?? Ha Hb Wa Wb D. rewrite !imax_spec, !imin_spec. unwrap.
  split.
  - destruct (_ && _) eqn:E; [|done].
    apply andb_true_iff in E as [E1 E2]. apply Z.leb_le in E1, E2.
    cbn. unwrap.
    assert (Z.min (rX a + rW a) (rX b + rW b) - Z.max (rX a) (rX b) = 0
            \/ Z.min (rY a + rH a) (rY b + rH b) - Z.max (rY a) (rY b) = 0) as [->| ->] by lia.
    + by rewrite Z.mul_0_l.
    + by rewrite Z.mul_0_r.
  - rewrite !andb_false_iff, !Z.ltb_ge. lia.
Qed.

(** ** Heuristic validation *)

(** The part of the Guillotine row of the validity table that [Validate]
    agrees with. *)
Lemma Validate_guillotine_best_fits h :
  Z.land h typeMask = Guillotine ->
  Z.land h fitMask ∈ [BestShortSideFit; BestLongSideFit; BestAreaFit; BottomLeft; ContactPoint] ->
  Z.land h splitMask ∈ [SplitShorterLeftoverAxis; SplitLongerLeftoverAxis; SplitMinimizeArea;
                        SplitMaximizeArea; SplitShorterAxis; SplitLongerAxis] ->
  Validate h = None.
Proof.
  intros Ht Hb Hs. unfold Validate. rewrite Ht.
  repeat (apply elem_of_cons in Hb as [-> | Hb]);
    [ .. | by apply elem_of_nil in Hb ];
    repeat (apply elem_of_cons in Hs as [-> | Hs]);
    solve [ reflexivity | by apply elem_of_nil in Hs ].
Qed.

(** C3 (code at the failing inputs): for the three presets that combine
    Guillotine with a worst-fit bin selection, and for every split method,
    [Validate] returns [splitErr] instead of nil. *)
Theorem Validate_guillotine_worst_fits_rejected :
  Forall (fun fit =>
    Forall (fun split => Validate (Z.lor (Z.lor Guillotine fit) split) = Some splitErr)
      [SplitShorterLeftoverAxis; SplitLongerLeftoverAxis; SplitMinimizeArea;
       SplitMaximizeArea; SplitShorterAxis; SplitLongerAxis])
    [WorstAreaFit; WorstShortSideFit; WorstLongSideFit]
  /\ Validate GuillotineWAF = Some splitErr
  /\ Validate GuillotineWSSF = Some splitErr
  /\ Validate GuillotineWLSF = Some splitErr.
Proof. repeat split; repeat constructor. Qed.

(** ** Guillotine: the merge pass *)

Lemma GU_merge_test_tall a : tall a -> GU.merge_test a = (a, false).
Proof.
  intros (Hy & Hh & Hn). unfold GU.merge_test.
  rewrite !Z.eqb_refl. cbn [andb].
  destruct (Z.eqb_spec (rY a) (rY a ⊞ rH a)) as [E|_].
  { symmetry in E. apply add_id_inv in E; done. }
  destruct (Z.eqb_spec (rY a ⊞ rH a) (rY a)) as [E|_]; [|done].
  apply add_id_inv in E; done.
Qed.

Lemma GU_merge_inner_tall fuel i j (l : list Rect) :
  Forall tall l -> (i < length l)%nat -> (length l <= fuel + j)%nat ->
  GU.merge_inner fuel i j l = Some l.
Proof.
  intros Hl Hi. revert j. induction fuel as [|fuel IH]; intros j Hf; cbn.
  - rewrite bool_decide_eq_false_2; [done | lia].
  - case_bool_decide; [|done].
    destruct (lookup_lt_is_Some_2 l i Hi) as [a Ha]. rewrite Ha. cbn.
    rewrite GU_merge_test_tall by (eapply Forall_lookup_1; eauto).
    rewrite list_insert_id by done. apply IH. lia.
Qed.

Lemma GU_merge_outer_tall fuel i (l : list Rect) :
  Forall tall l -> (length l <= fuel + i)%nat ->
  GU.merge_outer fuel i l = Some l.
Proof.
  intros Hl. revert i. induction fuel as [|fuel IH]; intros i Hf; cbn.
  - rewrite bool_decide_eq_false_2; [done | lia].
  - case_bool_decide; [|done].
    rewrite GU_merge_inner_tall by (done || lia). cbn. apply IH. lia.
Qed.

(** Whatever the free list, as long as no height is 0 the merge pass
    changes nothing. *)
Lemma GU_mergeFreeList_tall p :
  Forall tall (GU.freeRects p) -> GU.mergeFreeList p = Some p.
Proof.
  intros Hl. unfold GU.mergeFreeList.
  rewrite GU_merge_outer_tall by (done || lia). by destruct p.
Qed.

(** C4 (code at the failing input): two free rectangles of the same X and
    Width, the second starting where the first ends, and two of the same Y
    and Height side by side, are both left as they are by [mergeFreeList]. *)
Theorem GU_mergeFreeList_keeps_abutting_pairs :
  (forall p,
     GU.freeRects <$> GU.mergeFreeList (GU.set_free [NewRect 0 0 10 5; NewRect 0 5 10 5] p)
     = Some [NewRect 0 0 10 5; NewRect 0 5 10 5])
  /\ (forall p,
     GU.freeRects <$> GU.mergeFreeList (GU.set_free [NewRect 0 0 4 7; NewRect 4 0 6 7] p)
     = Some [NewRect 0 0 4 7; NewRect 4 0 6 7]).
Proof.
  split; intros p; rewrite GU_mergeFreeList_tall; cbn; try done;
    repeat constructor; done.
Qed.

(** ** Padding *)

(** C2 (code at the failing input): MaxRects with padding 2 in a 100 x 100
    bin reports the 40 x 40 size number 1 as a 38 x 38 rectangle at (2, 2),
    and the Guillotine engine reports it as 36 x 36. *)
Theorem padding_shrinks_rect_at_origin :
  (p ← MR.newMaxRects 100 100 MaxRectsBSSF;
   r ← MR.Insert [NewSizeID 1 40 40] (MR.Padding 2 p);
   Some (MR.Rects r.1, r.2))
  = Some ([mkRect (mkPoint 2 2) (mkSize 38 38 1) false], [])
  /\
  (p ← GU.newGuillotine 100 100 GuillotineBAF;
   r ← GU.Insert 2 [NewSizeID 1 40 40] p;
   Some (GU.Rects r.1, r.2))
  = Some ([mkRect (mkPoint 2 2) (mkSize 36 36 1) false], []).
Proof. split; vm_compute; reflexivity. Qed.

(** ** The packer *)

Lemma base_Reset_panics w h b : w <= 0 \/ h <= 0 -> base_Reset w h b = None.
Proof. intros. unfold base_Reset. zcmp; try done; lia. Qed.

Lemma MR_Reset_panics w h p : w <= 0 \/ h <= 0 -> MR.Reset w h p = None.
Proof. intros. unfold MR.Reset. by rewrite base_Reset_panics. Qed.

Lemma GU_Reset_panics w h p : w <= 0 \/ h <= 0 -> GU.Reset w h p = None.
Proof. intros. unfold GU.Reset. by rewrite base_Reset_panics. Qed.

Lemma SK_Reset_panics w h p : w <= 0 \/ h <= 0 -> SK.Reset w h p = None.
Proof. intros. unfold SK.Reset. by rewrite base_Reset_panics. Qed.

Lemma GU_Reset_Rects w h p p' : GU.Reset w h p = Some p' -> GU.Rects p' = [].
Proof.
  unfold GU.Reset, base_Reset. destruct (_ || _); [done|]. cbn. by intros [= <-].
Qed.

Lemma slices_Delete_length {A} (l l' : list A) i :
  slices_Delete l i = Some l' -> (length l = S (length l'))%nat.
Proof.
  unfold slices_Delete, idx. destruct (i <? 0); [done|].
  destruct (l !! Z.to_nat i) eqn:E; [|done]. cbn. intros [= <-].
  apply lookup_lt_Some in E. rewrite length_delete; [lia | by apply lookup_lt_is_Some_2].
Qed.

Lemma GU_mergeFreeList_base p p' : GU.mergeFreeList p = Some p' -> GU.base p' = GU.base p.
Proof.
  unfold GU.mergeFreeList. destruct (GU.merge_outer _ _ _); [|done]. cbn. by intros [= <-].
Qed.

Lemma GU_splitByHeuristic_base f n p : GU.base (GU.splitByHeuristic f n p) = GU.base p.
Proof.
  unfold GU.splitByHeuristic, GU.splitAlongAxis.
  repeat match goal with |- context [if ?c then _ else _] => destruct c end; done.
Qed.

(** Each round of the Guillotine [Insert] moves one size to the packed list. *)
Lemma GU_Insert_commit_conserves pad c p sizes p' sizes' :
  GU.Insert_commit pad c p sizes = Some (p', sizes') ->
  (length (GU.Rects p') = S (length (GU.Rects p)) /\ length sizes = S (length sizes'))%nat.
Proof.
  unfold GU.Insert_commit. intros Hc.
  apply bind_Some in Hc as (fr & _ & Hc).
  apply bind_Some in Hc as (sz & _ & Hc). cbv zeta in Hc.
  apply bind_Some in Hc as (l & _ & Hc).
  apply bind_Some in Hc as (sizes1 & Ed & Hc).
  apply bind_Some in Hc as (q & Hq & Hc).
  injection Hc as <- <-. apply slices_Delete_length in Ed. split; [|done].
  assert (GU.base q = GU.base p) as Eb.
  { destruct (GU.Merge _).
    - apply GU_mergeFreeList_base in Hq. rewrite Hq. cbn.
      apply GU_splitByHeuristic_base.
    - injection Hq as <-. cbn. apply GU_splitByHeuristic_base. }
  unfold GU.Rects. cbn. rewrite Eb, length_app. cbn. lia.
Qed.

Lemma GU_Insert_loop_conserves fuel pad p sizes c p' failed :
  GU.Insert_loop fuel pad p sizes c = Some (p', failed) ->
  (length (GU.Rects p') + length failed = length (GU.Rects p) + length sizes)%nat.
Proof.
  revert p sizes c. induction fuel as [|fuel IH]; intros p sizes c; cbn -[GU.Insert_commit].
  - destruct sizes; [by intros [= <- <-]|].
    destruct (_ =? MaxInt); [by intros [= <- <-] | done].
  - destruct sizes as [|s sizes]; [by intros [= <- <-]|].
    destruct (_ =? MaxInt); [by intros [= <- <-] |].
    destruct (GU.Insert_commit _ _ _ _) as [[p1 sizes1]|] eqn:Ec; [|done].
    cbn -[GU.Insert_commit]. intros Hr. apply IH in Hr.
    apply GU_Insert_commit_conserves in Ec as [E1 E2]. cbn [length] in *. lia.
Qed.

Lemma GU_Insert_conserves pad sizes p p' failed :
  GU.Insert pad sizes p = Some (p', failed) ->
  (length (GU.Rects p') + length failed = length (GU.Rects p) + length sizes)%nat.
Proof. apply GU_Insert_loop_conserves. Qed.

Lemma PK_ins_length cmp x l : length (PK.ins cmp x l) = S (length l).
Proof. induction l as [|y l IH]; cbn; [done|]. destruct (_ <? 0); cbn; lia. Qed.

Lemma PK_insertion_sort_length cmp l : length (PK.insertion_sort cmp l) = length l.
Proof.
  unfold PK.insertion_sort. rewrite length_reverse.
  assert (forall acc, length (foldl (fun racc x => PK.ins cmp x racc) acc l)
                      = (length acc + length l)%nat) as E.
  { induction l as [|x l IH]; intros acc; cbn; [lia|]. rewrite IH, PK_ins_length. lia. }
  by rewrite E.
Qed.

Section packer_facts.
Context {A : Type} `{packAlgorithm A}.
Variable sort : SortFunc -> list Size -> list Size.

Lemma PK_Size_empty (p : PK.Packer A) : PK.Rects p = [] -> PK.Size_ p = zeroSize.
Proof. unfold PK.Rects, PK.Size_. by intros ->. Qed.

Lemma PK_requeue_unpacked (p : PK.Packer A) (rects : list Rect) :
  PK.unpacked (foldl (fun p rect => PK.set_unpacked (PK.unpacked p ++ [rSize rect]) p) p rects)
  = PK.unpacked p ++ (rSize <$> rects).
Proof.
  revert p. induction rects as [|r rects IH]; intros p; cbn.
  - by rewrite app_nil_r.
  - rewrite IH. cbn. by rewrite <- app_assoc.
Qed.


Lemma PK_sorted_staging_length (p : PK.Packer A) :
  (forall f l, length (sort f l) = length l) ->
  length (PK.sorted_staging sort p) = length (PK.unpacked p).
Proof.
  intros Hs. unfold PK.sorted_staging.
  destruct (PK.sortFunc p), (PK.sortRev p); rewrite ?Hs, ?length_reverse; done.
Qed.

Lemma PK_Pack_conserves (p p' : PK.Packer A) b :
  (forall f l, length (sort f l) = length l) ->
  (forall pad l a a' failed, algo_Insert pad l a = Some (a', failed) ->
     (length (algo_Rects a') + length failed = length (algo_Rects a) + length l)%nat) ->
  PK.Pack sort p = Some (b, p') ->
  (length (PK.Rects p') + length (PK.unpacked p')
   = length (PK.Rects p) + length (PK.unpacked p))%nat
  /\ (b = true <-> PK.unpacked p' = []).
Proof.
  intros Hs Hi. unfold PK.Pack.
  destruct (Nat.eqb_spec (length (PK.unpacked p)) 0) as [E|E].
  { intros [= <- <-]. split; [done|]. by destruct (PK.unpacked p). }
  cbn. destruct (algo_Insert _ _ _) as [[a failed]|] eqn:Ei; [|done]. cbn.
  apply Hi in Ei. rewrite PK_sorted_staging_length in Ei by done.
  destruct (Nat.eqb_spec (length failed) 0) as [Ef|Ef]; intros [= <- <-];
    unfold PK.Rects; cbn; (split; [lia|]).
  - done.
  - split; [done|]. intros ->. done.
Qed.

(** C9, amended: [RepackAll] neither loses nor invents a rectangle; when
    it returns true every rectangle packed or staged before is packed, so
    the packed list is at least as long as before; when it returns false
    the rectangles that are no longer packed are in staging. *)
Theorem RepackAll_conserves (p p' : PK.Packer A) b :
  (forall f l, length (sort f l) = length l) ->
  (forall w h a a', algo_Reset w h a = Some a' -> algo_Rects a' = []) ->
  (forall pad l a a' failed, algo_Insert pad l a = Some (a', failed) ->
     (length (algo_Rects a') + length failed = length (algo_Rects a) + length l)%nat) ->
  PK.RepackAll sort p = Some (b, p') ->
  (length (PK.Rects p') + length (PK.unpacked p')
   = length (PK.Rects p) + length (PK.unpacked p))%nat
  /\ (b = true -> PK.unpacked p' = [] /\ (length (PK.Rects p) <= length (PK.Rects p'))%nat)
  /\ (b = false -> PK.unpacked p' <> []).
Proof.
  intros Hs Hr Hi. unfold PK.RepackAll.
  set (q := foldl _ p _).
  destruct (algo_Reset _ _ _) as [a|] eqn:Er; [|done]. cbn.
  intros Hp. apply PK_Pack_conserves in Hp as [Hn Hb]; [|done..].
  apply Hr in Er. unfold PK.Rects in *. cbn in Hn. rewrite Er in Hn. cbn in Hn.
  subst q. rewrite PK_requeue_unpacked, length_app, length_fmap in Hn.
  split; [lia|]. split.
  - intros ->. destruct Hb as [Hb _]. rewrite Hb in * by done. cbn in *. split; [done|lia].
  - intros -> E. apply Hb in E. done.
Qed.

(** C10, amended: on an empty packed list [Size] is {0, 0} whatever the
    padding, and [RepackAll] panics in the engine's [Reset]. *)
Theorem RepackAll_empty_panics (p : PK.Packer A) :
  (forall w h a, w <= 0 \/ h <= 0 -> algo_Reset w h a = None) ->
  PK.Rects p = [] ->
  PK.Size_ p = zeroSize /\ PK.RepackAll sort p = None.
Proof.
  intros Hr He. split; [by apply PK_Size_empty|].
  unfold PK.RepackAll. unfold PK.Rects in He. rewrite He. cbn.
  unfold PK.Size_. rewrite He. cbn. rewrite Hr; [done | lia].
Qed.

(** C7: what [Pack] does, step by step. *)
Theorem Pack_behaviour (p : PK.Packer A) :
  (PK.unpacked p = [] -> PK.Pack sort p = Some (true, p))
  /\ (forall f, PK.sortFunc p = Some f -> PK.sortRev p = true ->
        PK.sorted_staging sort p = sort (fun a b => f b a) (PK.unpacked p))
  /\ (forall f, PK.sortFunc p = Some f -> PK.sortRev p = false ->
        PK.sorted_staging sort p = sort f (PK.unpacked p))
  /\ (PK.sortFunc p = None -> PK.sortRev p = true ->
        PK.sorted_staging sort p = reverse (PK.unpacked p))
  /\ (PK.sortFunc p = None -> PK.sortRev p = false ->
        PK.sorted_staging sort p = PK.unpacked p)
  /\ (PK.unpacked p <> [] ->
      forall a failed,
        algo_Insert (PK.Padding p) (PK.sorted_staging sort p) (PK.algo p) = Some (a, failed) ->
        PK.Pack sort p
        = Some (bool_decide (failed = []), PK.set_unpacked failed (PK.set_algo a p)))
  /\ (PK.unpacked p <> [] ->
      algo_Insert (PK.Padding p) (PK.sorted_staging sort p) (PK.algo p) = None ->
      PK.Pack sort p = None)
  /\ (forall new w h heur (q : PK.Packer A), PK.NewPacker new w h heur = Some q ->
        PK.sortFunc q = Some SortArea /\ PK.sortRev q = false)
  /\ (forall a b, (SortArea a b < 0 <-> Area b < Area a)
               /\ (SortArea a b = 0 <-> Area a = Area b)
               /\ (0 < SortArea a b <-> Area a < Area b)).
Proof.
  repeat split.
  - intros E. unfold PK.Pack. by rewrite E.
  - intros f Ef Er. unfold PK.sorted_staging. by rewrite Ef, Er.
  - intros f Ef Er. unfold PK.sorted_staging. by rewrite Ef, Er.
  - intros Ef Er. unfold PK.sorted_staging. by rewrite Ef, Er.
  - intros Ef Er. unfold PK.sorted_staging. by rewrite Ef, Er.
  - intros Hne a failed Hi. unfold PK.Pack.
    destruct (Nat.eqb_spec (length (PK.unpacked p)) 0) as [E|_].
    { by destruct (PK.unpacked p). }
    cbv zeta. cbn [PK.unpacked PK.set_unpacked PK.Padding PK.algo].
    rewrite Hi. destruct p, failed; reflexivity.
  - intros Hne Hi. unfold PK.Pack.
    destruct (Nat.eqb_spec (length (PK.unpacked p)) 0) as [E|_].
    { by destruct (PK.unpacked p). }
    cbv zeta. cbn [PK.unpacked PK.set_unpacked PK.Padding PK.algo].
    by rewrite Hi.
  - unfold PK.NewPacker in *. destruct (new _ _ _); [|done]. cbn in *. by simplify_eq.
  - unfold PK.NewPacker in *. destruct (new _ _ _); [|done]. cbn in *. by simplify_eq.
  - unfold SortArea, cmp_Compare. zcmp; lia.
  - unfold SortArea, cmp_Compare. zcmp; lia.
  - unfold SortArea, cmp_Compare. zcmp; lia.
  - unfold SortArea, cmp_Compare. zcmp; lia.
  - unfold SortArea, cmp_Compare. zcmp; lia.
  - unfold SortArea, cmp_Compare. zcmp; lia.
Qed.
End packer_facts.

(** A computed run is the run: the flag is read off, the state is whatever
    the run produced. *)
Lemma run_eq {A B} (o : option (A * B)) (b : A) (d : B) :
  fst <$> o = Some b -> o = Some (b, default d (snd <$> o)).
Proof. destruct o as [[??]|]; cbn; [by intros [= ->] | done]. Qed.

Lemma example_online_RepackAll :
  PK.RepackAll PK.insertion_sort example_online = Some (false, example_repacked).
Proof. apply run_eq. vm_compute; reflexivity. Qed.

(** Witness of [Pack_behaviour]: the offline packer with three staged sizes. *)
Lemma Pack_behaviour_witness :
  PK.sorted_staging PK.insertion_sort example_staged
  = [NewSizeID 2 8 8; NewSizeID 3 3 1; NewSizeID 1 1 2]
  /\ PK.Pack PK.insertion_sort example_staged
     = Some (false, PK.set_unpacked [NewSizeID 2 8 8]
                      (PK.set_algo example_staged_engine example_staged)).
Proof.
  destruct (Pack_behaviour PK.insertion_sort example_staged)
    as (_ & _ & Hsort & _ & _ & Hpack & _).
  split.
  - rewrite (Hsort SortArea); [vm_compute; reflexivity | reflexivity | reflexivity].
  - apply (Hpack ltac:(discriminate) example_staged_engine [NewSizeID 2 8 8]).
    vm_compute; reflexivity.
Defined.

(** C9, counterexample: the online 4 x 4 Guillotine packer holds two packed
    rectangles and nothing staged; [RepackAll] resets to the bounding size
    4 x 2, packs the 3 x 1 first, and the 1 x 2 no longer fits: one packed
    rectangle is left. *)
Lemma RepackAll_loses_rect_counterexample :
  length (PK.Rects example_online) = 2%nat
  /\ PK.unpacked example_online = []
  /\ PK.RepackAll PK.insertion_sort example_online = Some (false, example_repacked)
  /\ length (PK.Rects example_repacked) = 1%nat
  /\ ~ (length (PK.Rects example_online) <= length (PK.Rects example_repacked))%nat.
Proof.
  split; [vm_compute; reflexivity|]. split; [vm_compute; reflexivity|].
  split; [apply example_online_RepackAll|].
  assert (length (PK.Rects example_repacked) = 1%nat) as E by (vm_compute; reflexivity).
  assert (length (PK.Rects example_online) = 2%nat) as E' by (vm_compute; reflexivity).
  split; [done | lia].
Qed.

(** Witness of [RepackAll_conserves] on the same packer. *)
Lemma RepackAll_conserves_witness :
  (length (PK.Rects example_repacked) + length (PK.unpacked example_repacked)
   = length (PK.Rects example_online) + length (PK.unpacked example_online))%nat
  /\ (false = true -> PK.unpacked example_repacked = []
        /\ (length (PK.Rects example_online) <= length (PK.Rects example_repacked))%nat)
  /\ (false = false -> PK.unpacked example_repacked <> []).
Proof.
  apply (RepackAll_conserves PK.insertion_sort example_online).
  - apply PK_insertion_sort_length.
  - apply GU_Reset_Rects.
  - apply GU_Insert_conserves.
  - apply example_online_RepackAll.
Defined.

(** C10, counterexample: with padding 1 and nothing packed, [RepackAll]
    still panics. *)
Lemma RepackAll_empty_padding_counterexample :
  1 <= PK.Padding example_fresh
  /\ PK.Rects example_fresh = []
  /\ PK.RepackAll PK.insertion_sort example_fresh = None.
Proof. split; [done|]. split; vm_compute; reflexivity. Qed.

(** Witness of [RepackAll_empty_panics]. *)
Lemma RepackAll_empty_panics_witness :
  PK.Size_ example_fresh = zeroSize
  /\ PK.RepackAll PK.insertion_sort example_fresh = None.
Proof.
  apply (RepackAll_empty_panics PK.insertion_sort example_fresh).
  - apply GU_Reset_panics.
  - vm_compute; reflexivity.
Defined.

(** ** Slices *)

Lemma swap_remove_length {A} (l : list A) i :
  (i < length l)%nat -> length (swap_remove i l) = pred (length l).
Proof.
  intros Hi. unfold swap_remove. rewrite last_lookup.
  destruct (lookup_lt_is_Some_2 l (pred (length l))) as [x ->]; [lia|].
  rewrite length_take, length_insert. lia.
Qed.

Lemma swap_remove_lookup {A} (l : list A) i k :
  (i < length l)%nat ->
  swap_remove i l !! k =
    if decide (k < pred (length l))%nat
    then (if decide (k = i) then l !! pred (length l) else l !! k)
    else None.
Proof.
  intros Hi. unfold swap_remove. rewrite last_lookup.
  destruct (lookup_lt_is_Some_2 l (pred (length l))) as [x Hx]; [lia|]. rewrite Hx.
  destruct (decide (k < pred (length l))%nat).
  - rewrite lookup_take_lt by done.
    destruct (decide (k = i)) as [->|].
    + by rewrite list_lookup_insert_eq.
    + by rewrite list_lookup_insert_ne.
  - apply lookup_take_ge. lia.
Qed.

Lemma reindexed_refl {A} (l : list A) : reindexed l l.
Proof. exists id. split; [done | by intros]. Qed.

Lemma reindexed_trans {A} (l3 l2 l1 : list A) :
  reindexed l3 l2 -> reindexed l2 l1 -> reindexed l3 l1.
Proof.
  intros (f & Hf & If) (g & Hg & Ig). exists (fun k => g (f k)). split.
  - intros k x Hk. by apply Hg, Hf.
  - intros k1 k2 H1 H2 E.
    destruct (lookup_lt_is_Some_2 l3 k1 H1) as [x1 Hx1].
    destruct (lookup_lt_is_Some_2 l3 k2 H2) as [x2 Hx2].
    apply If; [done..|]. apply Ig; [| |done].
    + eapply lookup_lt_Some, Hf, Hx1.
    + eapply lookup_lt_Some, Hf, Hx2.
Qed.

Lemma reindexed_elem_of {A} (l2 l : list A) x : reindexed l2 l -> x ∈ l2 -> x ∈ l.
Proof.
  intros (f & Hf & _) Hx. apply list_elem_of_lookup in Hx as [k Hk].
  eapply list_elem_of_lookup_2, Hf, Hk.
Qed.

Lemma reindexed_Forall {A} (P : A -> Prop) (l2 l : list A) :
  reindexed l2 l -> Forall P l -> Forall P l2.
Proof.
  intros Hr Hl. apply Forall_forall. intros x Hx.
  eapply Forall_forall; [done|]. by eapply reindexed_elem_of.
Qed.

Lemma reindexed_length {A} (l2 l : list A) : reindexed l2 l -> (length l2 <= length l)%nat.
Proof.
  revert l. induction l2 as [|x l2 IH]; intros l Hr; cbn; [lia|].
  destruct Hr as (f & Hf & If).
  assert (l !! f 0%nat = Some x) as H0 by (by apply Hf).
  pose proof (lookup_lt_Some _ _ _ H0) as Hlt.
  assert (reindexed l2 (delete (f 0%nat) l)) as Hr'.
  { exists (fun k => if decide (f (S k) < f 0%nat)%nat then f (S k) else pred (f (S k))). split.
    - intros k y Hk. assert (f (S k) <> f 0%nat) as Hne.
      { intros E. apply If in E; [done| |]; cbn; [|lia].
        apply lookup_lt_Some in Hk. lia. }
      specialize (Hf (S k) y Hk). case_decide.
      + by rewrite list_lookup_delete_lt.
      + rewrite list_lookup_delete_ge by lia.
        replace (S (pred (f (S k)))) with (f (S k)) by lia. done.
    - intros k1 k2 H1 H2 E.
      assert (forall k, (k < length l2)%nat -> f (S k) <> f 0%nat) as Hne.
      { intros k Hk E'. apply If in E'; [done| |]; cbn; lia. }
      pose proof (Hne k1 H1). pose proof (Hne k2 H2).
      assert (f (S k1) = f (S k2)) as E' by (repeat case_decide; lia).
      apply If in E'; cbn; lia. }
  apply IH in Hr'. rewrite length_delete in Hr' by (by apply lookup_lt_is_Some_2). lia.
Qed.

Lemma swap_remove_reindexed {A} (l : list A) i :
  (i < length l)%nat -> reindexed (swap_remove i l) l.
Proof.
  intros Hi. exists (fun k => if decide (k = i) then pred (length l) else k). split.
  - intros k x. rewrite swap_remove_lookup by done. repeat case_decide; done.
  - intros k1 k2. rewrite swap_remove_length by done. intros. repeat case_decide; lia.
Qed.

Lemma nocontain_reindexed l2 l : reindexed l2 l -> nocontain l -> nocontain l2.
Proof.
  intros (f & Hf & If) Hl i j a b Hij Ha Hb.
  apply (Hl (f i) (f j)); [|by apply Hf..].
  intros E. apply If in E; [done|by eapply lookup_lt_Some..].
Qed.

Lemma nocontain_nil : nocontain [].
Proof. intros i j a b _ Ha. by rewrite lookup_nil in Ha. Qed.

Lemma nocontain_singleton a : nocontain [a].
Proof.
  intros i j x y Hij Hx Hy.
  apply lookup_lt_Some in Hx, Hy. cbn in *. lia.
Qed.

Lemma nocontain_snoc l x :
  nocontain l -> (forall y, y ∈ l -> ~ contains y x /\ ~ contains x y) -> nocontain (l ++ [x]).
Proof.
  intros Hl Hx i j a b Hij Ha Hb.
  apply lookup_snoc_Some in Ha as [[Hi Ha]|[Hi <-]];
    apply lookup_snoc_Some in Hb as [[Hj Hb]|[Hj <-]].
  - by eapply Hl.
  - destruct (Hx a) as [? _]; [by eapply list_elem_of_lookup_2 | done].
  - destruct (Hx b) as [_ ?]; [by eapply list_elem_of_lookup_2 | done].
  - lia.
Qed.

Lemma nocontain_app l1 l2 :
  nocontain l1 -> nocontain l2 ->
  (forall a b, a ∈ l1 -> b ∈ l2 -> ~ contains a b /\ ~ contains b a) ->
  nocontain (l1 ++ l2).
Proof.
  intros H1 H2 Hx i j a b Hij Ha Hb.
  apply lookup_app_Some in Ha as [Ha|[Hi Ha]];
    apply lookup_app_Some in Hb as [Hb|[Hj Hb]].
  - by eapply H1.
  - destruct (Hx a b) as [? _]; [by eapply list_elem_of_lookup_2..| done].
  - destruct (Hx b a) as [_ ?]; [by eapply list_elem_of_lookup_2..| done].
  - eapply (H2 (i - length l1)%nat (j - length l1)%nat); [lia|done..].
Qed.

(** ** MaxRects: splitting a free rectangle *)

Ltac rsimpl :=
  unfold contains, disj, inbin, within, safe, strip, strip_guard,
    setXYWH, setX, setY, setW, setH, setID, setFlipped, NewRect, zeroRect,
    rX, rY, rW, rH, rID in *;
  cbn [X Y Width Height ID rPoint rSize Flipped] in *.

Lemma strip_facts W H F U k :
  inbin W H F -> inbin W H U -> ~ disj F U -> strip_guard F U k ->
  inbin W H (strip F U k) /\ contains F (strip F U k) /\ disj (strip F U k) U.
Proof.
  destruct k as [|[|[|k]]]; rsimpl; lia.
Qed.

Lemma strip_incomparable F U k k' :
  k <> k' -> (k < 4)%nat -> (k' < 4)%nat -> ~ disj F U ->
  strip_guard F U k -> strip_guard F U k' ->
  ~ contains (strip F U k) (strip F U k').
Proof.
  destruct k as [|[|[|[|k]]]]; destruct k' as [|[|[|[|k']]]]; try lia; rsimpl; lia.
Qed.

(** The removal step of [insertNewFreeRectangle], by positions. *)
Lemma MR_remove_lookup (new : list Rect) i L a b k :
  (i < L)%nat -> (L <= length new)%nat ->
  new !! pred L = Some a -> last (<[i := a]> new) = Some b ->
  let l2 := <[pred L := b]> (<[i := a]> new) in
  take (pred (length l2)) l2 !! k =
    if decide (k < pred (length new))%nat then
      if decide (k = pred L) then new !! pred (length new)
      else if decide (k = i) then new !! pred L
      else new !! k
    else None.
Proof.
  intros Hi HL Ha Hb l2. subst l2. rewrite !length_insert.
  destruct (decide (k < pred (length new))%nat); [|apply lookup_take_ge; lia].
  rewrite lookup_take_lt by done.
  rewrite last_lookup, length_insert in Hb.
  destruct (decide (k = pred L)) as [->|].
  - rewrite list_lookup_insert_eq by (rewrite length_insert; lia).
    rewrite list_lookup_insert_ne in Hb by lia. done.
  - rewrite list_lookup_insert_ne by done.
    destruct (decide (k = i)) as [->|].
    + rewrite list_lookup_insert_eq by lia. done.
    + by rewrite list_lookup_insert_ne.
Qed.

Lemma MR_remove_reindexed (new : list Rect) i L a b :
  (i < L)%nat -> (L <= length new)%nat ->
  new !! pred L = Some a -> last (<[i := a]> new) = Some b ->
  let l2 := <[pred L := b]> (<[i := a]> new) in
  reindexed (take (pred (length l2)) l2) new.
Proof.
  intros Hi HL Ha Hb l2.
  exists (fun k => if decide (k = pred L) then pred (length new)
                   else if decide (k = i) then pred L else k).
  split.
  - intros k x. subst l2. rewrite (MR_remove_lookup new i L a b k) by done.
    repeat case_decide; done.
  - intros k1 k2. subst l2. rewrite length_take, !length_insert.
    intros. repeat case_decide; lia.
Qed.

Lemma MR_insertNew_loop_spec (Sib : Rect -> Prop) N fuel i p :
  (MR.newLastSize p <= length (MR.newFreeRects p))%nat ->
  (i <= MR.newLastSize p)%nat -> (MR.newLastSize p <= fuel + i)%nat ->
  safe N -> Forall safe (MR.newFreeRects p) ->
  nocontain (MR.newFreeRects p) ->
  (forall k x, (k < i)%nat -> MR.newFreeRects p !! k = Some x ->
     ~ contains x N /\ ~ contains N x) ->
  (forall k x, (MR.newLastSize p <= k)%nat -> MR.newFreeRects p !! k = Some x -> Sib x) ->
  (forall x, Sib x -> ~ contains x N /\ ~ contains N x) ->
  exists p', MR.insertNew_loop fuel N i p = Some p' /\ MR_frame p p' /\
    nocontain (MR.newFreeRects p') /\
    (forall x, x ∈ MR.newFreeRects p' -> x ∈ MR.newFreeRects p \/ x = N) /\
    (MR.newLastSize p' <= length (MR.newFreeRects p'))%nat /\
    (forall k x, (MR.newLastSize p' <= k)%nat -> MR.newFreeRects p' !! k = Some x ->
       Sib x \/ x = N).
Proof.
  revert i p. induction fuel as [|fuel IH]; intros i p HL Hi Hf HN Hsafe Hnc Hchk Hsib HS.
  - cbn. rewrite bool_decide_eq_false_2 by lia.
    eexists. split; [done|]. split; [done|]. cbn. split; [|split; [|split]].
    + apply nocontain_snoc; [done|]. intros y Hy.
      apply list_elem_of_lookup in Hy as [k Hk].
      destruct (decide (k < i)%nat); [by eapply Hchk|].
      apply HS. eapply Hsib; [|done]. lia.
    + intros x Hx. apply elem_of_app in Hx as [?|Hx]; [by left|].
      apply list_elem_of_singleton in Hx. by right.
    + rewrite length_app. cbn. lia.
    + intros k x Hk Hx. apply lookup_snoc_Some in Hx as [[_ Hx]|[_ <-]]; [|by right].
      left. by eapply Hsib.
  - cbn. case_bool_decide as Hlt.
    2:{ eexists. split; [done|]. split; [done|]. cbn. split; [|split; [|split]].
        + apply nocontain_snoc; [done|]. intros y Hy.
          apply list_elem_of_lookup in Hy as [k Hk].
          destruct (decide (k < i)%nat); [by eapply Hchk|].
          apply HS. eapply Hsib; [|done]. lia.
        + intros x Hx. apply elem_of_app in Hx as [?|Hx]; [by left|].
          apply list_elem_of_singleton in Hx. by right.
        + rewrite length_app. cbn. lia.
        + intros k x Hk Hx. apply lookup_snoc_Some in Hx as [[_ Hx]|[_ <-]]; [|by right].
          left. by eapply Hsib. }
    destruct (lookup_lt_is_Some_2 (MR.newFreeRects p) i) as [cur Hcur]; [lia|].
    rewrite Hcur. cbn.
    assert (safe cur) as Hsc by (eapply Forall_lookup_1; eauto).
    destruct (ContainsRect cur N) eqn:E1.
    { eexists. split; [done|]. split; [done|]. split; [done|]. split; [by left|].
      split; [done|]. intros k x Hk Hx. left. by eapply Hsib. }
    apply ContainsRect_false in E1; [|done..].
    destruct (ContainsRect N cur) eqn:E2.
    + destruct (lookup_lt_is_Some_2 (MR.newFreeRects p) (pred (MR.newLastSize p)))
        as [a Ha]; [lia|].
      rewrite Ha. cbn.
      destruct (last (<[i:=a]> (MR.newFreeRects p))) as [b|] eqn:Hb.
      2:{ rewrite last_lookup, length_insert in Hb. apply lookup_ge_None_1 in Hb.
          rewrite length_insert in Hb. lia. }
      cbn.
      pose proof (fun k => MR_remove_lookup (MR.newFreeRects p) i _ a b k Hlt HL Ha Hb) as Hlk.
      pose proof (MR_remove_reindexed (MR.newFreeRects p) i _ a b Hlt HL Ha Hb) as Hre.
      cbv zeta in Hlk, Hre.
      set (new2 := take _ _) in *.
      assert (length new2 = pred (length (MR.newFreeRects p))) as Hlen.
      { subst new2. rewrite length_take, !length_insert. lia. }
      destruct (IH i (MR.set_new new2 (MR.set_newLastSize (pred (MR.newLastSize p)) p)))
        as (p' & Hp' & Hfr & Hnc' & Hel & HL' & Hsib'); cbn.
      * lia.
      * lia.
      * lia.
      * done.
      * by eapply reindexed_Forall.
      * by eapply nocontain_reindexed.
      * intros k x Hk. rewrite Hlk. repeat case_decide; try lia; try done.
        by eapply Hchk.
      * intros k x Hk. rewrite Hlk. repeat case_decide; try done.
        -- intros Hx. eapply Hsib; [|done]. lia.
        -- lia.
        -- intros Hx. eapply Hsib; [|done]. lia.
      * done.
      * exists p'. split; [done|]. split; [|split; [done|split; [|done]]].
        -- destruct Hfr as (?&?&?). by repeat split.
        -- intros x Hx. apply Hel in Hx as [Hx|Hx]; [|by right]. left.
           cbn in Hx. by eapply reindexed_elem_of.
    + apply ContainsRect_false in E2; [|done..].
      apply IH; try done; try lia.
      intros k x Hk Hx. destruct (decide (k = i)) as [->|].
      * rewrite Hcur in Hx. by simplify_eq.
      * eapply Hchk; [|done]. lia.
Qed.

Section split.
Variables (W H : Z) (old0 : list Rect) (F U : Rect).
Hypothesis HW : W <= MaxInt.
Hypothesis HH : H <= MaxInt.
Hypothesis HF : inbin W H F.
Hypothesis HU : inbin W H U.
Hypothesis HFold : F ∈ old0.

Lemma MR_split_test :
  (rX F ⊞ rW F <=? rX U) || (rX U ⊞ rW U <=? rX F) ||
  (rY F ⊞ rH F <=? rY U) || (rY U ⊞ rH U <=? rY F) = false <-> ~ disj F U.
Proof.
  clear HFold. unfold MaxInt in *. rsimpl. unwrap.
  rewrite !orb_false_iff, !Z.leb_gt. lia.
Qed.

Lemma MR_split_overlap :
  ~ disj F U ->
  (rX U <? rX F ⊞ rW F) && (rX F <? rX U ⊞ rW U) = true /\
  (rY U <? rY F ⊞ rH F) && (rY F <? rY U ⊞ rH U) = true.
Proof.
  clear HFold. unfold MaxInt in *. rsimpl. unwrap.
  rewrite !andb_true_iff, !Z.ltb_lt. lia.
Qed.

Lemma MR_code_strip0 :
  ((rY F <? rY U) && (rY U <? rY F ⊞ rH F) = true -> strip_guard F U 0) /\
  setH F (rY U ⊟ rY F) = strip F U 0.
Proof.
  clear HFold. unfold MaxInt in *. rsimpl. unwrap.
  rewrite !andb_true_iff, !Z.ltb_lt. split; [lia | done].
Qed.

Lemma MR_code_strip1 :
  ((rY U ⊞ rH U <? rY F ⊞ rH F) = true -> strip_guard F U 1) /\
  setH (setY F (rY U ⊞ rH U)) (rY F ⊞ rH F ⊟ (rY U ⊞ rH U)) = strip F U 1.
Proof.
  clear HFold. unfold MaxInt in *. rsimpl. unwrap.
  rewrite !Z.ltb_lt. split; [lia | done].
Qed.

Lemma MR_code_strip2 :
  ((rX F <? rX U) && (rX U <? rX F ⊞ rW F) = true -> strip_guard F U 2) /\
  setW F (rX U ⊟ rX F) = strip F U 2.
Proof.
  clear HFold. unfold MaxInt in *. rsimpl. unwrap.
  rewrite !andb_true_iff, !Z.ltb_lt. split; [lia | done].
Qed.

Lemma MR_code_strip3 :
  ((rX U ⊞ rW U <? rX F ⊞ rW F) = true -> strip_guard F U 3) /\
  setW (setX F (rX U ⊞ rW U)) (rX F ⊞ rW F ⊟ (rX U ⊞ rW U)) = strip F U 3.
Proof.
  clear HFold. unfold MaxInt in *. rsimpl. unwrap.
  rewrite !Z.ltb_lt. split; [lia | done].
Qed.

Lemma new_ok_safe N : new_ok W H old0 U N -> safe N.
Proof. intros (? & _). by apply (inbin_safe W H). Qed.

Lemma split_inv_step p k q (c : bool) N :
  ~ disj F U -> (k < 4)%nat ->
  split_inv W H old0 F U p k q ->
  (c = true -> strip_guard F U k) -> N = strip F U k ->
  exists q', (if c then MR.insertNewFreeRectangle N q else Some q) = Some q' /\
    split_inv W H old0 F U p (S k) q'.
Proof.
  intros Hov Hk (Hfr & Hnc & Hok & HL & Hsib) Hg ->. destruct c.
  2:{ exists q. split; [done|]. repeat split; try done; try apply Hfr.
      intros j x Hj Hx. destruct (Hsib j x Hj Hx) as (k' & ? & ? & ?).
      exists k'. repeat split; [lia|done..]. }
  specialize (Hg eq_refl).
  destruct (strip_facts W H F U k HF HU Hov Hg) as (Hin & Hcon & Hdis).
  destruct (MR_insertNew_loop_spec
              (fun x => exists k', (k' < k)%nat /\ strip_guard F U k' /\ x = strip F U k')
              (strip F U k) (MR.newLastSize q) 0 q)
    as (q' & Hq' & Hfr' & Hnc' & Hel & HL' & Hsib'); try done; try lia.
  - by apply (inbin_safe W H).
  - eapply Forall_impl; [done|]. apply new_ok_safe.
  - intros x (k' & Hk' & Hg' & ->). split; apply strip_incomparable; try done; lia.
  - exists q'. split; [done|]. split; [|split; [done|split; [|split; [done|]]]].
    + destruct Hfr as (?&?&?), Hfr' as (?&?&?). repeat split; congruence.
    + apply Forall_forall. intros x Hx. apply Hel in Hx as [Hx| ->].
      * eapply Forall_forall; done.
      * split; [done|]. split; [done|]. by exists F.
    + intros j x Hj Hx. destruct (Hsib' j x Hj Hx) as [(k' & ? & ? & ?)| ->].
      * exists k'. repeat split; [lia|done..].
      * exists k. repeat split; [lia|done..].
Qed.

Lemma MR_splitFreeNode_spec p :
  nocontain (MR.newFreeRects p) ->
  Forall (new_ok W H old0 U) (MR.newFreeRects p) ->
  exists b p', MR.splitFreeNode F U p = Some (b, p') /\
    MR.base p' = MR.base p /\ MR.freeRects p' = MR.freeRects p /\
    MR.findNode p' = MR.findNode p /\
    (if b then ~ disj F U else disj F U /\ p' = p) /\
    nocontain (MR.newFreeRects p') /\
    Forall (new_ok W H old0 U) (MR.newFreeRects p').
Proof.
  intros Hnc Hok. unfold MR.splitFreeNode.
  destruct (_ || _) eqn:Et.
  { exists false, p. repeat split; try done.
    destruct (decide (disj F U)) as [|Hn]; [done|].
    apply MR_split_test in Hn. congruence. }
  apply MR_split_test in Et.
  destruct (MR_split_overlap Et) as [-> ->].
  set (p0 := MR.set_newLastSize _ p).
  assert (split_inv W H old0 F U p 0 p0) as H0.
  { repeat split; try done. cbn. intros j x Hj Hx.
    apply lookup_lt_Some in Hx. lia. }
  destruct (split_inv_step p 0 p0 _ _ Et ltac:(lia) H0
              (proj1 MR_code_strip0) (proj2 MR_code_strip0)) as (q1 & -> & H1).
  cbn [mbind option_bind].
  destruct (split_inv_step p 1 q1 _ _ Et ltac:(lia) H1
              (proj1 MR_code_strip1) (proj2 MR_code_strip1)) as (q2 & -> & H2).
  cbn [mbind option_bind].
  destruct (split_inv_step p 2 q2 _ _ Et ltac:(lia) H2
              (proj1 MR_code_strip2) (proj2 MR_code_strip2)) as (q3 & -> & H3).
  cbn [mbind option_bind].
  destruct (split_inv_step p 3 q3 _ _ Et ltac:(lia) H3
              (proj1 MR_code_strip3) (proj2 MR_code_strip3)) as (q4 & -> & H4).
  cbn [mbind option_bind].
  exists true, q4. destruct H4 as ((?&?&?) & ? & ? & _). repeat split; done.
Qed.
End split.

(** ** MaxRects: [placeRect] *)

Lemma MR_placeRect_loop_spec W H old0 U fuel i p :
  W <= MaxInt -> H <= MaxInt -> inbin W H U -> Forall (inbin W H) old0 ->
  reindexed (MR.freeRects p) old0 ->
  nocontain (MR.newFreeRects p) ->
  Forall (new_ok W H old0 U) (MR.newFreeRects p) ->
  (forall k O, (k < i)%nat -> MR.freeRects p !! k = Some O -> disj O U) ->
  (length (MR.freeRects p) <= fuel + i)%nat ->
  exists p', MR.placeRect_loop fuel U i p = Some p' /\
    MR.base p' = MR.base p /\ MR.findNode p' = MR.findNode p /\
    reindexed (MR.freeRects p') old0 /\
    nocontain (MR.newFreeRects p') /\
    Forall (new_ok W H old0 U) (MR.newFreeRects p') /\
    (forall O, O ∈ MR.freeRects p' -> disj O U).
Proof.
  intros HW HH HU Hold. revert i p.
  induction fuel as [|fuel IH]; intros i p Hre Hnc Hok Hchk Hf.
  - cbn. rewrite (lookup_ge_None_2 _ i) by lia.
    exists p. repeat split; try done. intros O HO.
    apply list_elem_of_lookup in HO as [k Hk].
    eapply Hchk; [|done]. apply lookup_lt_Some in Hk. lia.
  - cbn. destruct (MR.freeRects p !! i) as [F|] eqn:EF.
    2:{ exists p. repeat split; try done. intros O HO.
        apply list_elem_of_lookup in HO as [k Hk].
        eapply Hchk; [|done]. apply lookup_lt_Some in Hk.
        apply lookup_ge_None_1 in EF. lia. }
    assert (F ∈ old0) as HFold.
    { eapply reindexed_elem_of; [done|]. by eapply list_elem_of_lookup_2. }
    assert (inbin W H F) as HF by (eapply Forall_forall; done).
    destruct (MR_splitFreeNode_spec W H old0 F U HW HH HF HU HFold p Hnc Hok)
      as (b & p1 & -> & Eb & Efr & Efn & Hb & Hnc1 & Hok1).
    cbn [mbind option_bind]. pose proof (lookup_lt_Some _ _ _ EF) as Hlt.
    destruct b.
    + destruct (IH i (MR.set_free (swap_remove i (MR.freeRects p1)) p1))
        as (p' & -> & ? & ? & ? & ? & ? & ?); cbn; rewrite ?Efr; try done.
      * eapply reindexed_trans; [|done]. by apply swap_remove_reindexed.
      * intros k O Hk. rewrite swap_remove_lookup by done.
        repeat case_decide; try done; try lia. intros. by eapply Hchk.
      * rewrite swap_remove_length by done. lia.
      * cbn [MR.base MR.findNode MR.set_free MR.freeRects MR.newFreeRects] in *.
        exists p'. repeat split; try done; congruence.
    + destruct Hb as [Hd ->].
      destruct (IH (S i) p) as (p' & -> & ? & ? & ? & ? & ? & ?); try done.
      * intros k O Hk HO. destruct (decide (k = i)) as [->|].
        -- by simplify_eq.
        -- eapply Hchk; [|done]. lia.
      * lia.
      * exists p'. repeat split; done.
Qed.

Lemma MR_prune_inner_spec old fuel j (new : list Rect) :
  safe old -> Forall safe new -> (length new <= fuel + j)%nat ->
  (forall k n, (k < j)%nat -> new !! k = Some n -> ~ contains old n) ->
  exists new', MR.prune_inner fuel old j new = Some new' /\
    reindexed new' new /\ forall n, n ∈ new' -> ~ contains old n.
Proof.
  intros Hso. revert j new. induction fuel as [|fuel IH]; intros j new Hsn Hf Hchk.
  - cbn. rewrite (lookup_ge_None_2 _ j) by lia.
    exists new. split; [done|]. split; [apply reindexed_refl|].
    intros n Hn. apply list_elem_of_lookup in Hn as [k Hk].
    eapply Hchk; [|done]. apply lookup_lt_Some in Hk. lia.
  - cbn. destruct (new !! j) as [n|] eqn:En.
    2:{ exists new. split; [done|]. split; [apply reindexed_refl|].
        intros n Hn. apply list_elem_of_lookup in Hn as [k Hk].
        eapply Hchk; [|done]. apply lookup_lt_Some in Hk.
        apply lookup_ge_None_1 in En. lia. }
    pose proof (lookup_lt_Some _ _ _ En) as Hlt.
    assert (safe n) by (eapply Forall_lookup_1; done).
    destruct (ContainsRect old n) eqn:Ec.
    + destruct (IH j (swap_remove j new)) as (new' & -> & Hre & Hno).
      * eapply reindexed_Forall; [|done]. by apply swap_remove_reindexed.
      * rewrite swap_remove_length by done. lia.
      * intros k m Hk. rewrite swap_remove_lookup by done.
        repeat case_decide; try done; try lia. intros. by eapply Hchk.
      * exists new'. split; [done|]. split; [|done].
        eapply reindexed_trans; [done|]. by apply swap_remove_reindexed.
    + apply ContainsRect_false in Ec; [|done..].
      destruct (IH (S j) new) as (new' & -> & Hre & Hno); try done; try lia.
      * intros k m Hk Hm. destruct (decide (k = j)) as [->|].
        -- by simplify_eq.
        -- eapply Hchk; [|done]. lia.
      * by exists new'.
Qed.

Lemma MR_prune_fold_spec (olds new : list Rect) :
  Forall safe olds -> Forall safe new ->
  exists new',
    foldl (fun acc old => new ← acc; MR.prune_inner (length new) old 0 new) (Some new) olds
    = Some new' /\
    reindexed new' new /\ forall O n, O ∈ olds -> n ∈ new' -> ~ contains O n.
Proof.
  intros Ho. revert new. induction Ho as [|old olds Hso Ho IH]; intros new Hsn.
  - exists new. split; [done|]. split; [apply reindexed_refl|].
    intros O n HO. by apply elem_of_nil in HO.
  - cbn.
    destruct (MR_prune_inner_spec old (length new) 0 new) as (new1 & -> & Hre1 & Hno1);
      try done; try lia.
    destruct (IH new1) as (new' & -> & Hre & Hno).
    { by eapply reindexed_Forall. }
    exists new'. split; [done|]. split; [by eapply reindexed_trans|].
    intros O n HO Hn. apply elem_of_cons in HO as [->|HO].
    + apply Hno1. by eapply reindexed_elem_of.
    + by apply Hno.
Qed.

(** [placeRect] of a node inside the bin: the free list stays in the bin,
    off the node, inside the old free list, and free of containments. *)
Lemma MR_placeRect_spec W H U p :
  W <= MaxInt -> H <= MaxInt -> inbin W H U ->
  Forall (inbin W H) (MR.freeRects p) -> nocontain (MR.freeRects p) ->
  MR.newFreeRects p = [] ->
  exists p', MR.placeRect U p = Some p' /\
    packed (MR.base p') = packed (MR.base p) /\
    maxWidth (MR.base p') = maxWidth (MR.base p) /\
    maxHeight (MR.base p') = maxHeight (MR.base p) /\
    allowFlip (MR.base p') = allowFlip (MR.base p) /\
    padding (MR.base p') = padding (MR.base p) /\
    MR.findNode p' = MR.findNode p /\
    MR.newFreeRects p' = [] /\
    Forall (inbin W H) (MR.freeRects p') /\ nocontain (MR.freeRects p') /\
    (forall N, N ∈ MR.freeRects p' ->
       disj N U /\ exists F, F ∈ MR.freeRects p /\ contains F N).
Proof.
  intros HW HH HU Hin Hnc Hnew. unfold MR.placeRect.
  assert (nocontain (MR.newFreeRects p)) as Hn0 by (rewrite Hnew; apply nocontain_nil).
  assert (Forall (new_ok W H (MR.freeRects p) U) (MR.newFreeRects p)) as Hk0
    by (by rewrite Hnew).
  destruct (MR_placeRect_loop_spec W H (MR.freeRects p) U (length (MR.freeRects p)) 0 p
              HW HH HU Hin (reindexed_refl _) Hn0 Hk0)
    as (p1 & -> & Eb & Efn & Hre & Hnc1 & Hok1 & Hd1).
  { intros k O Hk. lia. }
  { lia. }
  cbn [mbind option_bind]. unfold MR.pruneFreeList.
  assert (Forall (inbin W H) (MR.freeRects p1)) as Hin1 by (by eapply reindexed_Forall).
  destruct (MR_prune_fold_spec (MR.freeRects p1) (MR.newFreeRects p1))
    as (new' & -> & Hre' & Hno).
  { eapply Forall_impl; [done|]. intros ?. by apply (inbin_safe W H). }
  { eapply Forall_impl; [done|]. intros ? (? & _). by apply (inbin_safe W H). }
  cbn [mbind option_bind].
  eexists. split; [done|]. cbn. rewrite Eb.
  assert (Forall (new_ok W H (MR.freeRects p) U) new') as Hok' by (by eapply reindexed_Forall).
  repeat split; try done.
  - apply Forall_app. split; [done|]. eapply Forall_impl; [done|]. by intros ? (? & _).
  - apply nocontain_app.
    + by eapply nocontain_reindexed.
    + by eapply nocontain_reindexed.
    + intros O N HO HN. split; [by apply Hno|].
      intros Hc. eapply Forall_forall in Hok' as (HNin & HNd & F & HF & HFN & HFU); [|done].
      pose proof (Hd1 O HO) as HOd.
      assert (O ∈ MR.freeRects p) as HOold by (by eapply reindexed_elem_of).
      apply list_elem_of_lookup in HOold as [kO HkO].
      apply list_elem_of_lookup in HF as [kF HkF].
      destruct (decide (kF = kO)) as [->|Hne].
      * simplify_eq. done.
      * eapply (Hnc kF kO); [done..|]. by eapply contains_trans.
  - apply elem_of_app in H0 as [HO|HN]; [by apply Hd1|].
    eapply Forall_forall in Hok' as (? & ? & _); done.
  - apply elem_of_app in H0 as [HO|HN].
    + exists N. split; [by eapply reindexed_elem_of | apply contains_refl].
    + eapply Forall_forall in Hok' as (? & ? & F & ? & ? & _); [|done]. by exists F.
Qed.

(** ** MaxRects: the scorers *)

Lemma Forall_elem {A} (P : A -> Prop) (l : list A) x : Forall P l -> x ∈ l -> P x.
Proof. intros Hl. by apply Forall_forall. Qed.

Lemma MR_fit_setID frees flip w h n i :
  MR_fit frees flip w h n -> MR_fit frees flip w h (setID n i).
Proof. intros (F & ?). exists F. rsimpl. done. Qed.

Lemma MR_try_orient_fit frees0 flip w h score better flipped w' h' F n best :
  F ∈ frees0 ->
  ((flipped = false /\ w' = w /\ h' = h) \/ (flipped = true /\ flip = true /\ w' = h /\ h' = w)) ->
  n = zeroRect \/ MR_fit frees0 flip w h n ->
  let st := MR.try_orient score better flipped w' h' F (n, best) in
  st.1 = zeroRect \/ MR_fit frees0 flip w h st.1.
Proof.
  intros HF Ho Hn. unfold MR.try_orient.
  destruct (_ && _) eqn:Ec; [|done].
  destruct (better _ _); [|done].
  apply andb_true_iff in Ec as [Ew Eh]. apply Z.leb_le in Ew, Eh.
  right. exists F. split; [done|].
  destruct flipped; rsimpl; intuition lia.
Qed.

Lemma MR_find_fold frees0 flip w h score better frees st0 :
  (forall F, F ∈ frees -> F ∈ frees0) ->
  st0.1 = zeroRect \/ MR_fit frees0 flip w h st0.1 ->
  let st := foldl (MR.find_step flip w h score better) st0 frees in
  st.1 = zeroRect \/ MR_fit frees0 flip w h st.1.
Proof.
  revert st0. induction frees as [|F frees IH]; intros st0 Hsub H0; cbn; [done|].
  apply IH; [intros; apply Hsub; by right|].
  unfold MR.find_step. destruct st0 as [n best].
  pose proof (MR_try_orient_fit frees0 flip w h score better false w h F n best) as H1.
  cbv zeta in H1. specialize (H1 ltac:(apply Hsub; by left) ltac:(by left) H0).
  destruct flip; [|done].
  destruct (MR.try_orient score better false w h F (n, best)) as [n1 best1].
  apply (MR_try_orient_fit frees0 true w h score better true h w F n1 best1);
    [apply Hsub; by left | by right | done].
Qed.

Lemma MR_call_findNode_fit p w h :
  let r := MR.call_findNode p w h in
  r.1.1 = zeroRect \/ MR_fit (MR.freeRects p) (allowFlip (MR.base p)) w h r.1.1.
Proof.
  unfold MR.call_findNode.
  destruct (MR.findNode p);
    unfold MR.do_findPositionBestAreaFit, MR.do_findPositionBottomLeft,
      MR.do_findPositionContactPoint, MR.do_findPositionBestLongSideFit,
      MR.do_findPositionBestShortSideFit;
    match goal with |- context [foldl (MR.find_step ?fl _ _ ?sc ?bt) ?s ?l] =>
      pose proof (MR_find_fold (MR.freeRects p) fl w h sc bt l s
                    (fun F HF => HF) (or_introl eq_refl)) as Hf;
      cbv zeta in Hf; destruct (foldl (MR.find_step fl w h sc bt) s l) as [n [a b]] end;
    exact Hf.
Qed.

Lemma MR_scoreRect_spec p w h n s1 s2 :
  MR.scoreRect p w h = (n, s1, s2) ->
  (s1 = MaxInt /\ s2 = MaxInt) \/ MR_fit (MR.freeRects p) (allowFlip (MR.base p)) w h n.
Proof.
  unfold MR.scoreRect. pose proof (MR_call_findNode_fit p w h) as Hf. cbv zeta in Hf.
  destruct (MR.call_findNode p w h) as [[n' a] b]. cbn in Hf.
  destruct (Z.eqb_spec (rH n') 0) as [E|E]; intros [= <- <- <-]; [by left|].
  destruct Hf as [->|Hf]; [done | by right].
Qed.

Lemma MR_Insert_scan_spec p sizes0 pre sizes best :
  sizes0 = pre ++ sizes ->
  MR_scan_ok p sizes0 best ->
  MR_scan_ok p sizes0 (MR.Insert_scan p (Z.of_nat (length pre)) sizes best).
Proof.
  revert pre best. induction sizes as [|s sizes IH]; intros pre best E Hb; cbn; [done|].
  destruct best as [[[bn b1] b2] index].
  destruct (MR.scoreRect _ _ _) as [[n s1] s2] eqn:Es.
  replace (Z.of_nat (length pre) + 1) with (Z.of_nat (length (pre ++ [s])))
    by (rewrite length_app; cbn; lia).
  apply IH; [by rewrite <- app_assoc|].
  destruct (_ || _) eqn:Ec; [|done].
  apply MR_scoreRect_spec in Es. destruct Hb as [Hb _].
  apply orb_true_iff in Ec.
  rewrite andb_true_iff, !Z.ltb_lt, Z.eqb_eq in Ec.
  destruct Es as [[-> ->]|Hfit]; [lia|]. split; [lia|]. right.
  exists s. split; [lia|]. split.
  - rewrite Nat2Z.id, E. by apply list_lookup_middle.
  - by apply MR_fit_setID.
Qed.

(** ** Padding off *)

Lemma unpadRect_within W H U pad :
  W <= MaxInt -> H <= MaxInt -> inbin W H U ->
  (0 < pad -> pad < rW U /\ pad < rH U) ->
  within (unpadRect U pad) U.
Proof.
  intros HW HH HU Hp. unfold unpadRect, MaxInt in *.
  destruct (Z.leb_spec pad 0); [rsimpl; lia|].
  specialize (Hp ltac:(lia)).
  assert (forall a, -9223372036854775807 <= a - 2 * pad <= 9223372036854775807 ->
            a ⊟ pad ⊠ 2 = a - 2 * pad) as Hs.
  { intros a Ha. apply sub_mul2. unfold in_int, MinInt, MaxInt. lia. }
  destruct (Z.eqb_spec (rX U) 0) as [Ex|Ex];
    match goal with |- context [if ?a =? 0 then _ else _] =>
      destruct (Z.eqb_spec a 0) as [Ey|Ey] end;
    rsimpl; rewrite ?Hs by lia; unwrap; lia.
Qed.

(** ** MaxRects: [Insert] *)

Lemma pairwise_disj_snoc fs U :
  pairwise_disj fs -> (forall f, f ∈ fs -> disj f U) -> pairwise_disj (fs ++ [U]).
Proof.
  intros Hfs HU i j a b Hij Ha Hb.
  apply lookup_snoc_Some in Ha as [[Hi Ha]|[Hi <-]];
    apply lookup_snoc_Some in Hb as [[Hj Hb]|[Hj <-]].
  - by eapply Hfs.
  - eapply HU, list_elem_of_lookup_2, Ha.
  - apply disj_sym. eapply HU, list_elem_of_lookup_2, Hb.
  - lia.
Qed.

Lemma valid_size_padded pad s :
  valid_size pad s ->
  let q := padSize s pad in
  0 < Width q /\ 0 < Height q /\ (0 < pad -> pad < Width q /\ pad < Height q).
Proof.
  unfold valid_size, padSize, MaxInt. intros (?&?&?&?).
  destruct (Z.leb_spec pad 0); cbn; unwrap; lia.
Qed.

Lemma MR_Insert_commit_spec p fs sizes bestNode index s :
  MR_inv p fs ->
  0 <= index -> sizes !! Z.to_nat index = Some s ->
  valid_size (padding (MR.base p)) s ->
  MR_fit (MR.freeRects p) (allowFlip (MR.base p))
    (Width (padSize s (padding (MR.base p))))
    (Height (padSize s (padding (MR.base p)))) bestNode ->
  exists p',
    MR.Insert_commit bestNode index p sizes
      = Some (p', swap_remove (Z.to_nat index) sizes) /\
    MR_inv p' (fs ++ [bestNode]) /\
    padding (MR.base p') = padding (MR.base p).
Proof.
  intros (HW & HH & Hin & Hnc & Hnew & Hfs & Hpd & Hw & Hfd) Hi Hs Hv Hfit.
  cbv zeta in *.
  destruct (valid_size_padded _ _ Hv) as (Hpw & Hph & Hpp).
  destruct Hfit as (F & HF & Hx & Hy & Hw' & Hh' & Hdim).
  assert (inbin (maxWidth (MR.base p)) (maxHeight (MR.base p)) F) as HFin
    by (by apply (Forall_elem _ _ _ Hin)).
  assert (inbin (maxWidth (MR.base p)) (maxHeight (MR.base p)) bestNode) as HU.
  { rsimpl. intuition lia. }
  assert (contains F bestNode) as HFU by (rsimpl; lia).
  assert (forall f, f ∈ fs -> disj f bestNode) as HdU.
  { intros f Hf. eapply disj_contains; [apply disj_sym, Hfd; done|done|..]; rsimpl; lia. }
  unfold MR.Insert_commit.
  destruct (MR_placeRect_spec _ _ bestNode p (proj2 HW) (proj2 HH) HU Hin Hnc Hnew)
    as (p1 & -> & Ep & EW & EH & Efl & Epad & _ & Hnew1 & Hin1 & Hnc1 & Hfree1).
  cbn [mbind option_bind]. cbv zeta.
  unfold idx. destruct (Z.ltb_spec index 0); [lia|]. rewrite Hs.
  cbn [mbind option_bind].
  eexists. split; [done|]. split; [|done]. unfold MR_inv. cbn.
  rewrite EW, EH, Ep, Epad.
  repeat split; try done; try lia.
  - apply Forall_app. by split; [|constructor].
  - apply pairwise_disj_snoc; done.
  - apply Forall2_app; [done|]. constructor; [|constructor].
    apply (unpadRect_within _ _ _ _ (proj2 HW) (proj2 HH) HU).
    rsimpl. intuition lia.
  - intros N f HN Hf. destruct (Hfree1 N HN) as (HNU & F' & HF' & HF'N).
    assert (inbin (maxWidth (MR.base p)) (maxHeight (MR.base p)) N) as HNin
      by (by apply (Forall_elem _ _ _ Hin1)).
    apply elem_of_app in Hf as [Hf|Hf].
    + apply disj_sym. eapply disj_contains; [apply disj_sym, Hfd; done|done|..];
        rsimpl; lia.
    + apply list_elem_of_singleton in Hf as ->. done.
Qed.

Lemma MR_scan_init p sizes : MR_scan_ok p sizes (zeroRect, MaxInt, MaxInt, -1).
Proof. split; [right; lia | by left]. Qed.

Lemma MR_step_inv p fs sizes bestNode s1 s2 index p' rest :
  MR_inv p fs -> Forall (valid_size (padding (MR.base p))) sizes ->
  MR.Insert_scan p 0 sizes (zeroRect, MaxInt, MaxInt, -1) = (bestNode, s1, s2, index) ->
  index <> -1 ->
  (exists p1, MR.Insert_commit bestNode index p sizes
              = Some (p1, swap_remove (Z.to_nat index) sizes)) /\
  (Z.to_nat index < length sizes)%nat /\
  (MR.Insert_commit bestNode index p sizes = Some (p', rest) ->
   MR_inv p' (fs ++ [bestNode]) /\ padding (MR.base p') = padding (MR.base p) /\
   rest = swap_remove (Z.to_nat index) sizes).
Proof.
  intros Hinv Hv Hscan Hne.
  pose proof (MR_Insert_scan_spec p sizes [] sizes _ eq_refl (MR_scan_init p sizes)) as Hok.
  change (Z.of_nat (length (@nil Size))) with 0 in Hok. rewrite Hscan in Hok.
  destruct Hok as [_ [?|(s & Hi & Hs & Hfit)]]; [done|].
  assert (valid_size (padding (MR.base p)) s) as Hvs.
  { eapply Forall_elem; [done|]. by eapply list_elem_of_lookup_2. }
  destruct (MR_Insert_commit_spec p fs sizes bestNode index s Hinv Hi Hs Hvs Hfit)
    as (p1 & Hc & Hinv1 & Hpad).
  split; [by exists p1|]. split; [by eapply lookup_lt_Some|].
  rewrite Hc. by intros [= <- <-].
Qed.

Lemma MR_Insert_loop_spec fuel p fs sizes :
  MR_inv p fs -> Forall (valid_size (padding (MR.base p))) sizes ->
  (length sizes <= fuel)%nat ->
  exists p' rest fs', MR.Insert_loop fuel p sizes = Some (p', rest) /\ MR_inv p' fs'.
Proof.
  revert p fs sizes. induction fuel as [|fuel IH]; intros p fs sizes Hinv Hv Hf.
  - destruct sizes; [|cbn in Hf; lia]. cbn. by exists p, [], fs.
  - destruct sizes as [|s sizes]; [by exists p, [], fs|].
    cbn -[MR.Insert_scan MR.Insert_commit].
    destruct (MR.Insert_scan _ _ _ _) as [[[bn s1] s2] index] eqn:Hscan.
    destruct (Z.eqb_spec index (-1)) as [E|E]; [by exists p, (s :: sizes), fs|].
    destruct (MR_step_inv p fs (s :: sizes) bn s1 s2 index p [] Hinv Hv Hscan E)
      as ((p1 & Hc) & Hlt & _).
    destruct (MR_step_inv p fs (s :: sizes) bn s1 s2 index p1
                (swap_remove (Z.to_nat index) (s :: sizes)) Hinv Hv Hscan E)
      as (_ & _ & Hpost).
    destruct (Hpost Hc) as (Hinv1 & Hpad & _).
    rewrite Hc. cbn [mbind option_bind].
    apply (IH p1 (fs ++ [bn])); [done| |].
    + rewrite Hpad. eapply reindexed_Forall; [|done]. by apply swap_remove_reindexed.
    + rewrite swap_remove_length by done. cbn in *. lia.
Qed.

Lemma MR_Reset_inv w h p p' :
  w <= MaxInt -> h <= MaxInt -> MR.Reset w h p = Some p' -> MR_inv p' [].
Proof.
  intros Hw Hh. unfold MR.Reset, base_Reset.
  destruct (Z.leb_spec w 0), (Z.leb_spec h 0); try done. cbn. intros [= <-].
  unfold MR_inv. cbn. repeat split; try done; try lia.
  - repeat constructor; rsimpl; lia.
  - apply nocontain_singleton.
  - intros F f _ Hf. by apply elem_of_nil in Hf.
Qed.

Lemma MR_reachable_inv p : MR_reachable p -> exists fs, MR_inv p fs.
Proof.
  induction 1 as [w h heur p Hw Hh Hn | w h p p' Hw Hh _ _ Hr | b p _ [fs IH]
                 | pad p _ [fs IH] | sizes p bn s1 s2 index p' rest _ [fs IH] Hv Hs Hne Hc].
  - exists []. exact (MR_Reset_inv w h _ p Hw Hh Hn).
  - exists []. exact (MR_Reset_inv w h p p' Hw Hh Hr).
  - by exists fs.
  - by exists fs.
  - exists (fs ++ [bn]).
    by destruct (MR_step_inv p fs sizes bn s1 s2 index p' rest IH Hv Hs Hne) as (_ & _ & []).
Qed.

(** [Insert] of valid sizes returns, and what it returns is reachable. *)
Lemma MR_Insert_loop_reachable fuel p sizes :
  MR_reachable p -> Forall (valid_size (padding (MR.base p))) sizes ->
  (length sizes <= fuel)%nat ->
  exists p' rest, MR.Insert_loop fuel p sizes = Some (p', rest) /\ MR_reachable p'.
Proof.
  revert p sizes. induction fuel as [|fuel IH]; intros p sizes Hr Hv Hf.
  - destruct sizes; [|cbn in Hf; lia]. cbn. by exists p, [].
  - destruct sizes as [|s sizes]; [by exists p, []|].
    cbn -[MR.Insert_scan MR.Insert_commit].
    destruct (MR.Insert_scan _ _ _ _) as [[[bn s1] s2] index] eqn:Hscan.
    destruct (Z.eqb_spec index (-1)) as [E|E]; [by exists p, (s :: sizes)|].
    destruct (MR_reachable_inv p Hr) as [fs Hinv].
    destruct (MR_step_inv p fs (s :: sizes) bn s1 s2 index p [] Hinv Hv Hscan E)
      as ((p1 & Hc) & Hlt & _).
    destruct (MR_step_inv p fs (s :: sizes) bn s1 s2 index p1
                (swap_remove (Z.to_nat index) (s :: sizes)) Hinv Hv Hscan E)
      as (_ & _ & Hpost).
    destruct (Hpost Hc) as (Hinv1 & Hpad & _).
    rewrite Hc. cbn [mbind option_bind].
    apply IH.
    + by eapply MR_reach_step.
    + rewrite Hpad. eapply reindexed_Forall; [|done]. by apply swap_remove_reindexed.
    + rewrite swap_remove_length by done. cbn in *. lia.
Qed.

Lemma MR_Insert_reachable sizes p p' rest :
  MR_reachable p -> Forall (valid_size (padding (MR.base p))) sizes ->
  MR.Insert sizes p = Some (p', rest) -> MR_reachable p'.
Proof.
  intros Hr Hv Hi.
  destruct (MR_Insert_loop_reachable (length sizes) p sizes Hr Hv (le_n _))
    as (q & r & Hq & Hrq).
  unfold MR.Insert in Hi. by simplify_eq.
Qed.

Lemma MR_inv_nocontain p fs i j a b :
  MR_inv p fs -> i <> j ->
  MR.freeRects p !! i = Some a -> MR.freeRects p !! j = Some b ->
  ContainsRect a b = false.
Proof.
  intros (HW & HH & Hin & Hnc & _) Hij Ha Hb. cbv zeta in *.
  apply ContainsRect_false.
  - apply (inbin_safe _ _ _ (proj2 HW) (proj2 HH)).
    eapply Forall_elem; [done|]. by eapply list_elem_of_lookup_2.
  - apply (inbin_safe _ _ _ (proj2 HW) (proj2 HH)).
    eapply Forall_elem; [done|]. by eapply list_elem_of_lookup_2.
  - by eapply Hnc.
Qed.

Lemma MR_inv_no_overlap p fs : MR_inv p fs -> no_overlap (packed (MR.base p)).
Proof.
  intros (HW & HH & _ & _ & _ & Hfs & Hpd & Hw & _) i j a b Hij Ha Hb. cbv zeta in *.
  destruct (Forall2_lookup_l _ _ _ _ _ Hw Ha) as (fa & Hfa & Hwa).
  destruct (Forall2_lookup_l _ _ _ _ _ Hw Hb) as (fb & Hfb & Hwb).
  eapply (within_disj_no_overlap _ _ a b fa fb (proj2 HW) (proj2 HH)); try done.
  - eapply Forall_elem; [done|]. by eapply list_elem_of_lookup_2.
  - eapply Forall_elem; [done|]. by eapply list_elem_of_lookup_2.
  - by eapply Hpd.
Qed.

(** C5: in every state the MaxRects engine can reach from [Reset] (each
    iteration of [Insert] is a step, and ends with [placeRect] and its
    [pruneFreeList]) no free rectangle is contained in another one; and from
    such a state [Insert] of valid sizes returns, in a state of the same
    kind. *)
Theorem MR_free_list_no_containment p :
  MR_reachable p ->
  (forall i j a b, i <> j ->
     MR.freeRects p !! i = Some a -> MR.freeRects p !! j = Some b ->
     ContainsRect a b = false)
  /\ (forall sizes, Forall (valid_size (padding (MR.base p))) sizes ->
        exists p' rest, MR.Insert sizes p = Some (p', rest) /\ MR_reachable p').
Proof.
  intros Hr. split.
  - destruct (MR_reachable_inv p Hr) as [fs Hinv].
    intros i j a b. by apply (MR_inv_nocontain p fs).
  - intros sizes Hv. by apply MR_Insert_loop_reachable.
Qed.

Lemma example_maxrects_reachable : MR_reachable example_maxrects.
Proof.
  assert (MR.newMaxRects 10 10 MaxRectsBSSF
          = Some (default (MR.mk (mkBase [] 0 0 0 false 0)
                             MR.findPositionBestShortSideFit 0 [] [])
                          (MR.newMaxRects 10 10 MaxRectsBSSF))) as E0
    by (vm_compute; reflexivity).
  eapply (MR_Insert_reachable [NewSizeID 1 3 4; NewSizeID 2 5 2]
            (MR.Padding 1 _) example_maxrects []).
  - apply MR_reach_Padding.
    apply (MR_reach_new 10 10 MaxRectsBSSF); [unfold MaxInt; lia..|exact E0].
  - repeat constructor; vm_compute; discriminate.
  - vm_compute; reflexivity.
Qed.

(** Witness of [MR_free_list_no_containment]: the 10 x 10 engine with
    padding 1 after [Insert] of 3 x 4 and 5 x 2. *)
Lemma MR_free_list_no_containment_witness :
  length (MR.freeRects example_maxrects) = 2%nat
  /\ (forall i j a b, i <> j ->
        MR.freeRects example_maxrects !! i = Some a ->
        MR.freeRects example_maxrects !! j = Some b ->
        ContainsRect a b = false)
  /\ (forall sizes, Forall (valid_size (padding (MR.base example_maxrects))) sizes ->
        exists p' rest, MR.Insert sizes example_maxrects = Some (p', rest)
                        /\ MR_reachable p').
Proof.
  split; [vm_compute; reflexivity|].
  apply (MR_free_list_no_containment example_maxrects example_maxrects_reachable).
Defined.

(** ** Skyline: the profile *)

Lemma chain_app x l1 l2 W :
  chain x (l1 ++ l2) W <-> exists m, chain x l1 m /\ chain m l2 W.
Proof.
  revert x. induction l1 as [|s l1 IH]; intros x; cbn.
  - split; [intros; by exists x | by intros (m & -> & ?)].
  - rewrite IH. split.
    + intros (? & ? & m & ? & ?). by exists m.
    + intros (m & (? & ? & ?) & ?). repeat split; try done. by exists m.
Qed.

Lemma chain_le x l W : chain x l W -> x <= W.
Proof.
  revert x. induction l as [|s l IH]; intros x; cbn; [lia|].
  intros (? & ? & Hc). apply IH in Hc. lia.
Qed.

Lemma chain_ge x l W s : chain x l W -> s ∈ l -> x <= SK.nX s /\ SK.nX s + SK.nWidth s <= W.
Proof.
  revert x. induction l as [|a l IH]; intros x Hc Hs; [by apply elem_of_nil in Hs|].
  destruct Hc as (Ha & Hw & Hc). apply elem_of_cons in Hs as [->|Hs].
  - apply chain_le in Hc. lia.
  - destruct (IH _ Hc Hs). lia.
Qed.

(** Every column of the span belongs to a segment. *)
Lemma chain_cover x l W t :
  chain x l W -> x <= t < W -> exists s, s ∈ l /\ SK.nX s <= t < SK.nX s + SK.nWidth s.
Proof.
  revert x. induction l as [|a l IH]; intros x Hc Ht; cbn in Hc; [lia|].
  destruct Hc as (Ha & Hw & Hc).
  destruct (decide (t < x + SK.nWidth a)).
  - exists a. split; [by left | lia].
  - destruct (IH _ Hc) as (s & ? & ?); [lia|]. exists s. split; [by right | done].
Qed.

Lemma chain_split x l W i s :
  chain x l W -> l !! i = Some s ->
  chain x (take i l) (SK.nX s) /\ chain (SK.nX s) (drop i l) W.
Proof.
  intros Hc Hs. rewrite <- (take_drop i l) in Hc at 1.
  apply chain_app in Hc as (m & H1 & H2).
  rewrite (drop_S _ _ _ Hs) in H2 |- *. destruct H2 as (E & ? & ?).
  rewrite E. by repeat split.
Qed.

(** ** Skyline: [testFit] *)

Lemma SK_testFit_loop_spec W maxH h segs x wl y0 :
  chain x segs W -> 0 <= x -> x + wl <= W -> wl <= MaxInt ->
  0 <= y0 <= maxH -> Forall (level_ok maxH) segs ->
  0 < h -> h + maxH <= MaxInt -> W <= MaxInt ->
  exists b y, SK.testFit_loop maxH h segs wl y0 = Some (b, y) /\
    (b = true ->
     y0 <= y <= maxH /\ (0 < wl -> y + h <= maxH) /\ (wl <= 0 -> y = y0) /\
     forall s, s ∈ segs -> SK.nX s < x + wl -> SK.nY s <= y).
Proof.
  intros Hc Hx0 Hx Hwl Hy Hl Hh Hhm HW. revert x wl y0 Hc Hx0 Hx Hwl Hy.
  induction Hl as [|s segs Hs Hl IH]; intros x wl y0 Hc Hx0 Hx Hwl Hy; cbn.
  - cbn in Hc. destruct (Z.ltb_spec 0 wl); [lia|].
    exists true, y0. split; [done|]. intros _. split; [lia|]. split; [lia|].
    split; [done|]. intros s Hs. by apply elem_of_nil in Hs.
  - destruct Hc as (Hsx & Hsw & Hc).
    destruct (Z.ltb_spec 0 wl) as [Hpos|Hneg].
    2:{ exists true, y0. split; [done|]. intros _. split; [lia|]. split; [lia|].
        split; [done|]. intros s' Hs' Hlt.
        destruct (chain_ge x (s :: segs) W s') as [? _]; [by repeat split|done|lia]. }
    rewrite imax_spec. unfold level_ok, MaxInt in *.
    assert (Z.max y0 (SK.nY s) ⊞ h = Z.max y0 (SK.nY s) + h) as -> by (unwrap; lia).
    destruct (Z.ltb_spec maxH (Z.max y0 (SK.nY s) + h)).
    { eexists false, _. split; [done|]. done. }
    pose proof (chain_le _ _ _ Hc).
    assert (wl ⊟ SK.nWidth s = wl - SK.nWidth s) as -> by (unwrap; lia).
    destruct (IH (x + SK.nWidth s) (wl - SK.nWidth s) (Z.max y0 (SK.nY s)))
      as (b & y & -> & Hb); try done; try lia.
    exists b, y. split; [done|]. intros ->.
    destruct (Hb eq_refl) as (? & Hy' & Hy0 & Hall).
    split; [lia|]. split; [lia|]. split; [lia|].
    intros s' Hs' Hlt. apply elem_of_cons in Hs' as [->|Hs']; [lia|].
    apply Hall; [done|lia].
Qed.

Section skyline_find.
Variables (p : SK.skylinePack) (fs : list Rect).
Hypothesis Hinv : SK_inv p fs.
Variables (w h : Z).
Hypothesis Hw : 0 < w.
Hypothesis Hh : 0 < h.
Hypothesis Hwm : w + Z.max (maxWidth (SK.base p)) (maxHeight (SK.base p)) <= MaxInt.
Hypothesis Hhm : h + Z.max (maxWidth (SK.base p)) (maxHeight (SK.base p)) <= MaxInt.

Lemma SK_testFit_spec index w' h' s y0 :
  ((w' = w /\ h' = h) \/ (w' = h /\ h' = w)) ->
  0 <= index -> SK.skyline p !! Z.to_nat index = Some s ->
  exists b y, SK.testFit p index w' h' y0 = Some (b, y) /\
    (b = true ->
     SK.nX s + w' <= maxWidth (SK.base p) /\ 0 <= y /\ y + h' <= maxHeight (SK.base p) /\
     forall s', s' ∈ drop (Z.to_nat index) (SK.skyline p) ->
       SK.nX s' < SK.nX s + w' -> SK.nY s' <= y).
Proof.
  intros Ho Hi Hs. destruct Hinv as (HW & HH & Hc & _ & Hl & _). cbv zeta in *.
  unfold SK.testFit, idx. destruct (Z.ltb_spec index 0); [lia|]. rewrite Hs.
  cbn [mbind option_bind].
  destruct (chain_split _ _ _ _ _ Hc Hs) as [Hc1 Hc2].
  pose proof (chain_le _ _ _ Hc1). pose proof (chain_le _ _ _ Hc2).
  assert (level_ok (maxHeight (SK.base p)) s) as Hls
    by (eapply Forall_elem; [done|]; by eapply list_elem_of_lookup_2).
  unfold level_ok, MaxInt in *.
  assert (SK.nX s ⊞ w' = SK.nX s + w') as -> by (unwrap; lia).
  destruct (Z.ltb_spec (maxWidth (SK.base p)) (SK.nX s + w')).
  { by exists false, y0. }
  destruct (SK_testFit_loop_spec (maxWidth (SK.base p)) (maxHeight (SK.base p)) h'
              (drop (Z.to_nat index) (SK.skyline p)) (SK.nX s) w' (SK.nY s))
    as (b & y & -> & Hb); unfold MaxInt; try done; try lia.
  { by apply Forall_drop. }
  exists b, y. split; [done|]. intros ->. destruct (Hb eq_refl) as (? & ? & _ & ?).
  repeat split; try done; lia.
Qed.

Lemma SK_computeWaste_Some index w' h' y s :
  0 <= index -> SK.skyline p !! Z.to_nat index = Some s ->
  is_Some (SK.computeWaste p index w' h' y).
Proof.
  intros Hi Hs. unfold SK.computeWaste, idx.
  destruct (Z.ltb_spec index 0); [lia|]. rewrite Hs. done.
Qed.

Lemma SK_fit_of_testFit flipped index w' h' s y n :
  ((flipped = false /\ w' = w /\ h' = h) \/
   (flipped = true /\ allowFlip (SK.base p) = true /\ w' = h /\ h' = w)) ->
  0 <= index -> SK.skyline p !! Z.to_nat index = Some s ->
  (SK.nX s + w' <= maxWidth (SK.base p) /\ 0 <= y /\ y + h' <= maxHeight (SK.base p) /\
   forall s', s' ∈ drop (Z.to_nat index) (SK.skyline p) ->
     SK.nX s' < SK.nX s + w' -> SK.nY s' <= y) ->
  SK_fit p w h
    (let m := setXYWH n (SK.nX s) y w' h' in if flipped then setFlipped m true else m)
    index.
Proof.
  intros Ho Hi Hs (? & ? & ? & Hall). exists s.
  split; [done|]. split; [done|].
  destruct flipped; rsimpl; (split; [intuition lia|]); repeat split; try done; lia.
Qed.

Lemma SK_findBottomLeft_try_spec flipped i w' h' s y0 st :
  ((flipped = false /\ w' = w /\ h' = h) \/
   (flipped = true /\ allowFlip (SK.base p) = true /\ w' = h /\ h' = w)) ->
  0 <= i -> SK.skyline p !! Z.to_nat i = Some s ->
  SK_found_ok p w h st ->
  exists st' y, SK.findBottomLeft_try p flipped i w' h' y0 st = Some (st', y) /\
    SK_found_ok p w h st'.
Proof.
  intros Ho Hi Hs Hst. unfold SK.findBottomLeft_try.
  destruct (SK_testFit_spec i w' h' s y0) as (b & y & -> & Hb); [intuition lia|done..|].
  cbn [mbind option_bind]. unfold idx. destruct (Z.ltb_spec i 0); [lia|]. rewrite Hs.
  cbn [mbind option_bind]. destruct st as [[[n b1] b2] bi].
  destruct (_ && _) eqn:Ec; [|by eexists _, _].
  apply andb_true_iff in Ec as [-> _].
  eexists _, _. split; [done|]. right. cbn [fst snd].
  by apply (SK_fit_of_testFit flipped i w' h' s y n Ho Hi Hs (Hb eq_refl)).
Qed.

Lemma SK_findMinWaste_try_spec flipped i w' h' s y0 wa0 st :
  ((flipped = false /\ w' = w /\ h' = h) \/
   (flipped = true /\ allowFlip (SK.base p) = true /\ w' = h /\ h' = w)) ->
  0 <= i -> SK.skyline p !! Z.to_nat i = Some s ->
  SK_found_ok p w h st ->
  exists st' y wa, SK.findMinWaste_try p flipped i w' h' y0 wa0 st = Some (st', y, wa) /\
    SK_found_ok p w h st'.
Proof.
  intros Ho Hi Hs Hst. unfold SK.findMinWaste_try, SK.testFitWithWaste.
  destruct (SK_testFit_spec i w' h' s y0) as (b & y & -> & Hb); [intuition lia|done..|].
  cbn [mbind option_bind].
  destruct b.
  - destruct (SK_computeWaste_Some i w' h' y s Hi Hs) as [wa ->].
    cbn [mbind option_bind]. unfold idx. destruct (Z.ltb_spec i 0); [lia|]. rewrite Hs.
    cbn [mbind option_bind]. destruct st as [[[n b1] b2] bi].
    destruct (_ && _) eqn:Ec; [|by eexists _, _, _].
    eexists _, _, _. split; [done|]. right. cbn [fst snd].
    by apply (SK_fit_of_testFit flipped i w' h' s y n Ho Hi Hs (Hb eq_refl)).
  - cbn [mbind option_bind]. unfold idx. destruct (Z.ltb_spec i 0); [lia|]. rewrite Hs.
    cbn [mbind option_bind]. destruct st as [[[n b1] b2] bi]. cbn [andb].
    by eexists _, _, _.
Qed.

Lemma SK_findBottomLeft_loop_spec n i st :
  0 <= i -> (Z.to_nat i + n = length (SK.skyline p))%nat ->
  SK_found_ok p w h st ->
  exists st', SK.findBottomLeft_loop p w h n i st = Some st' /\ SK_found_ok p w h st'.
Proof.
  revert i st. induction n as [|n IH]; intros i st Hi Hn Hst; cbn -[SK.findBottomLeft_try].
  - by exists st.
  - destruct (lookup_lt_is_Some_2 (SK.skyline p) (Z.to_nat i)) as [s Hs]; [lia|].
    destruct (SK_findBottomLeft_try_spec false i w h s 0 st) as (st1 & y1 & -> & H1);
      [by left|done..|].
    cbn [mbind option_bind].
    destruct (allowFlip (SK.base p)) eqn:Ef.
    + destruct (SK_findBottomLeft_try_spec true i h w s y1 st1) as (st2 & y2 & -> & H2);
        [by right|done..|].
      cbn [mbind option_bind]. apply IH; [lia|lia|done].
    + cbn [mbind option_bind]. apply IH; [lia|lia|done].
Qed.

Lemma SK_findMinWaste_loop_spec n i st :
  0 <= i -> (Z.to_nat i + n = length (SK.skyline p))%nat ->
  SK_found_ok p w h st ->
  exists st', SK.findMinWaste_loop p w h n i st = Some st' /\ SK_found_ok p w h st'.
Proof.
  revert i st. induction n as [|n IH]; intros i st Hi Hn Hst; cbn -[SK.findMinWaste_try].
  - by exists st.
  - destruct (lookup_lt_is_Some_2 (SK.skyline p) (Z.to_nat i)) as [s Hs]; [lia|].
    destruct (SK_findMinWaste_try_spec false i w h s 0 0 st) as (st1 & y1 & wa1 & -> & H1);
      [by left|done..|].
    cbn [mbind option_bind].
    destruct (allowFlip (SK.base p)) eqn:Ef.
    + destruct (SK_findMinWaste_try_spec true i h w s y1 wa1 st1)
        as (st2 & y2 & wa2 & -> & H2); [by right|done..|].
      cbn [mbind option_bind]. apply IH; [lia|lia|done].
    + cbn [mbind option_bind]. apply IH; [lia|lia|done].
Qed.

Lemma SK_find_spec :
  exists st,
    (if SK.levelSelect p =? MinWaste then SK.findMinWaste p w h else SK.findBottomLeft p w h)
    = Some st /\ SK_found_ok p w h st.
Proof.
  destruct (_ =? _).
  - apply SK_findMinWaste_loop_spec; [lia|cbn; lia|by left].
  - apply SK_findBottomLeft_loop_spec; [lia|cbn; lia|by left].
Qed.
End skyline_find.

(** ** Skyline: [addLevel] *)

Lemma lookup_mid1 {A} (pre : list A) a b l : (pre ++ a :: b :: l) !! S (length pre) = Some b.
Proof. induction pre; cbn; done. Qed.

Lemma insert_mid0 {A} (pre : list A) a c l :
  <[length pre := c]> (pre ++ a :: l) = pre ++ c :: l.
Proof. induction pre; cbn; [done | by f_equal]. Qed.

Lemma insert_mid1 {A} (pre : list A) a b c l :
  <[S (length pre) := c]> (pre ++ a :: b :: l) = pre ++ a :: c :: l.
Proof. induction pre; cbn; [done | by f_equal]. Qed.

Lemma delete_mid1 {A} (pre : list A) a b l :
  delete (S (length pre)) (pre ++ a :: b :: l) = pre ++ a :: l.
Proof. induction pre; cbn; [done | by f_equal]. Qed.

Lemma list_split2 {A} (l : list A) i :
  (S i < length l)%nat ->
  exists pre a b post, l = pre ++ a :: b :: post /\ length pre = i.
Proof.
  intros Hi. exists (take i l).
  destruct (lookup_lt_is_Some_2 l i) as [a Ha]; [lia|].
  destruct (lookup_lt_is_Some_2 l (S i)) as [b Hb]; [lia|].
  exists a, b, (drop (S (S i)) l). split.
  - rewrite <- (drop_S _ _ _ Hb), <- (drop_S _ _ _ Ha). by rewrite take_drop.
  - rewrite length_take. lia.
Qed.

Lemma SK_addLevel_loop_spec W pre prev segs x0 fuel :
  chain x0 segs W -> 0 <= x0 -> W <= MaxInt ->
  0 <= SK.nX prev -> 0 < SK.nWidth prev -> SK.nX prev + SK.nWidth prev <= W ->
  (length segs <= fuel)%nat ->
  SK.addLevel_loop fuel (S (length pre)) (pre ++ prev :: segs)
    = Some (pre ++ prev :: trim (SK.nX prev + SK.nWidth prev) segs).
Proof.
  intros Hc Hx0 HW Hpx Hpw Hr. revert x0 fuel Hc Hx0.
  induction segs as [|s rest IH]; intros x0 fuel Hc Hx0 Hf.
  - destruct fuel; cbn [SK.addLevel_loop];
      rewrite bool_decide_eq_false_2; try done; rewrite length_app; cbn; lia.
  - destruct fuel as [|fuel]; [cbn in Hf; lia|]. cbn [SK.addLevel_loop].
    rewrite bool_decide_eq_true_2 by (rewrite length_app; cbn; lia).
    rewrite lookup_mid1. cbn [mbind option_bind pred].
    rewrite list_lookup_middle by done. cbn [mbind option_bind].
    destruct Hc as (Hsx & Hsw & Hc). pose proof (chain_le _ _ _ Hc).
    unfold MaxInt in *.
    assert (SK.nX prev ⊞ SK.nWidth prev = SK.nX prev + SK.nWidth prev) as -> by (unwrap; lia).
    cbn [trim]. destruct (Z.ltb_spec (SK.nX s) (SK.nX prev + SK.nWidth prev)); [|done].
    cbv zeta. cbn [SK.nX SK.nY SK.nWidth].
    assert (SK.nX prev + SK.nWidth prev ⊟ SK.nX s = SK.nX prev + SK.nWidth prev - SK.nX s)
      as -> by (unwrap; lia).
    assert (SK.nWidth s ⊟ (SK.nX prev + SK.nWidth prev - SK.nX s)
            = SK.nWidth s - (SK.nX prev + SK.nWidth prev - SK.nX s)) as -> by (unwrap; lia).
    assert (SK.nX s ⊞ (SK.nX prev + SK.nWidth prev - SK.nX s) = SK.nX prev + SK.nWidth prev)
      as -> by (unwrap; lia).
    rewrite insert_mid1.
    destruct (Z.leb_spec (SK.nWidth s - (SK.nX prev + SK.nWidth prev - SK.nX s)) 0); [|done].
    rewrite delete_mid1. apply (IH (x0 + SK.nWidth s)); [done|lia|cbn in Hf; lia].
Qed.

Lemma trim_chain x0 segs W r :
  chain x0 segs W -> x0 <= r <= W -> chain r (trim r segs) W.
Proof.
  revert x0. induction segs as [|s rest IH]; intros x0 Hc Hr; cbn in *; [lia|].
  destruct Hc as (Hsx & Hsw & Hc). pose proof (chain_le _ _ _ Hc).
  destruct (Z.ltb_spec (SK.nX s) r).
  - destruct (Z.leb_spec (SK.nWidth s - (r - SK.nX s)) 0).
    + apply (IH (x0 + SK.nWidth s)); [done|lia].
    + cbn. repeat split; [lia|]. by replace (r + _) with (x0 + SK.nWidth s) by lia.
  - cbn. repeat split; [lia|lia|]. by replace r with x0 by lia.
Qed.

(** A segment left by [trim] is a piece of an old one, at or after [r]. *)
Lemma trim_elem x0 W r segs s' :
  chain x0 segs W -> s' ∈ trim r segs ->
  exists s, s ∈ segs /\ SK.nY s' = SK.nY s /\ SK.nX s <= SK.nX s' /\ r <= SK.nX s' /\
    SK.nX s' + SK.nWidth s' <= SK.nX s + SK.nWidth s.
Proof.
  revert x0. induction segs as [|s rest IH]; cbn; intros x0 Hc Hs';
    [by apply elem_of_nil in Hs'|].
  destruct Hc as (Hsx & Hsw & Hc).
  destruct (Z.ltb_spec (SK.nX s) r).
  - destruct (Z.leb_spec (SK.nWidth s - (r - SK.nX s)) 0).
    + destruct (IH _ Hc Hs') as (s0 & ? & ?). exists s0. split; [by right|done].
    + apply elem_of_cons in Hs' as [->|Hs'].
      * exists s. split; [by left|]. cbn. lia.
      * exists s'. split; [by right|]. destruct (chain_ge _ _ _ _ Hc Hs'). lia.
  - exists s'. split; [done|].
    destruct (chain_ge x0 (s :: rest) W s') as [? _]; [by repeat split|done|lia].
Qed.

Lemma under_piece f s s' :
  under f s -> SK.nY s' = SK.nY s -> SK.nX s <= SK.nX s' ->
  SK.nX s' + SK.nWidth s' <= SK.nX s + SK.nWidth s -> under f s'.
Proof. unfold under. lia. Qed.

Lemma trim_seg_ok x0 W H fs r segs :
  chain x0 segs W -> Forall (seg_ok H fs) segs -> Forall (seg_ok H fs) (trim r segs).
Proof.
  intros Hc Hok. apply Forall_forall. intros s' Hs'.
  destruct (trim_elem _ _ _ _ _ Hc Hs') as (s & Hs & Ey & ? & ? & ?).
  destruct (Forall_elem _ _ _ Hok Hs) as [Hl Hu]. split.
  - unfold level_ok in *. lia.
  - intros f Hf. by apply (under_piece f s s' (Hu f Hf)).
Qed.

(** ** Skyline: [mergeSkylines] *)

Lemma merged_upto_all i l : (length l <= S i)%nat -> merged_upto i l -> merged l.
Proof.
  intros Hi Hm k a b Ha Hb. apply (Hm k a b); [|done..].
  apply lookup_lt_Some in Hb. lia.
Qed.

Lemma SK_merge_loop_spec W H fs fuel i l :
  W <= MaxInt -> (forall f, f ∈ fs -> 0 < rW f) ->
  profile_ok W H fs l -> merged_upto i l -> (length l <= fuel + S i)%nat ->
  exists l', SK.merge_loop fuel i l = Some l' /\ profile_ok W H fs l' /\ merged l'.
Proof.
  intros HW Hpos. revert i l. induction fuel as [|fuel IH]; intros i l Hp Hm Hf.
  - cbn [SK.merge_loop]. rewrite bool_decide_eq_false_2 by lia.
    exists l. split; [done|]. split; [done|]. by apply (merged_upto_all i).
  - cbn [SK.merge_loop]. destruct (decide (S i < length l)%nat) as [Hi|Hi].
    2:{ rewrite bool_decide_eq_false_2 by done.
        exists l. split; [done|]. split; [done|]. apply (merged_upto_all i); [lia|done]. }
    rewrite bool_decide_eq_true_2 by done.
    destruct (list_split2 l i Hi) as (pre & a & b & post & -> & <-).
    rewrite (list_lookup_middle pre (b :: post) a (length pre) eq_refl).
    cbn [mbind option_bind].
    rewrite lookup_mid1. cbn [mbind option_bind].
    destruct (Z.eqb_spec (SK.nY a) (SK.nY b)) as [Ey|Ey].
    + rewrite insert_mid0, delete_mid1.
      destruct Hp as [Hc Hok].
      apply chain_app in Hc as (m & Hc1 & Ea & Hwa & Eb & Hwb & Hc2).
      pose proof (chain_le _ _ _ Hc1). pose proof (chain_le _ _ _ Hc2).
      unfold MaxInt in *.
      assert (SK.nWidth a ⊞ SK.nWidth b = SK.nWidth a + SK.nWidth b) as -> by (unwrap; lia).
      apply Forall_app in Hok as [Hok1 Hok2].
      apply Forall_cons in Hok2 as [[Hla Hua] Hok2].
      apply Forall_cons in Hok2 as [[Hlb Hub] Hok2].
      apply IH.
      * split.
        -- apply chain_app. exists m. split; [done|]. cbn. repeat split; [done|lia|].
           by replace (m + (SK.nWidth a + SK.nWidth b)) with (m + SK.nWidth a + SK.nWidth b)
             by lia.
        -- apply Forall_app. split; [done|]. constructor; [|done]. split; [done|].
           intros f Hf0. specialize (Hua f Hf0). specialize (Hub f Hf0).
           specialize (Hpos f Hf0).
           unfold under in *. cbn. lia.
      * intros k x y Hk Hx Hy.
        destruct (decide (S k = length pre)) as [Ek|Ek].
        -- rewrite Ek, list_lookup_middle in Hy by done. injection Hy as <-. cbn.
           rewrite lookup_app_l in Hx by lia.
           apply (Hm k x a); [lia| |by rewrite Ek, list_lookup_middle].
           by rewrite lookup_app_l by lia.
        -- rewrite lookup_app_l in Hx, Hy by lia.
           apply (Hm k x y); [lia|..]; by rewrite lookup_app_l by lia.
      * rewrite !length_app in *. cbn in *. lia.
    + apply IH; [done| |lia].
      intros k x y Hk Hx Hy. destruct (decide (k = length pre)) as [->|Ek].
      * rewrite list_lookup_middle in Hx by done. rewrite lookup_mid1 in Hy. congruence.
      * apply (Hm k x y); [lia|done..].
Qed.

Lemma SK_inv_profile p fs :
  SK_inv p fs ->
  profile_ok (maxWidth (SK.base p)) (maxHeight (SK.base p)) fs (SK.skyline p).
Proof.
  intros (_ & _ & Hc & _ & Hl & _ & _ & _ & Hu). cbv zeta in *. split; [done|].
  apply Forall_forall. intros s Hs. split; [by apply (Forall_elem _ _ _ Hl)|].
  intros f Hf. by apply (Forall_elem _ _ _ (Hu f Hf)).
Qed.

Lemma elem_of_drop_elem {A} (x : A) i l : x ∈ drop i l -> x ∈ l.
Proof. intros Hx. rewrite <- (take_drop i l). apply elem_of_app. by right. Qed.

Lemma elem_of_take_elem {A} (x : A) i l : x ∈ take i l -> x ∈ l.
Proof. intros Hx. rewrite <- (take_drop i l). apply elem_of_app. by left. Qed.

(** A node that fits rests on or above every footprint it shares columns
    with. *)
Lemma SK_fit_above p fs w h n index f :
  SK_inv p fs -> SK_fit p w h n index -> 0 < rW n -> f ∈ fs ->
  rX f < rX n + rW n -> rX n < rX f + rW f -> rY f + rH f <= rY n.
Proof.
  intros Hinv (s & Hi & Hs & _ & Ex & Hr & _ & _ & Hall) Hw Hf Hx1 Hx2.
  destruct Hinv as (HW & HH & Hc & _ & _ & Hfs & _ & _ & Hu). cbv zeta in *.
  destruct (chain_split _ _ _ _ _ Hc Hs) as [Hc1 Hc2].
  pose proof (Forall_elem _ _ _ Hfs Hf) as Hfin. unfold inbin in Hfin.
  destruct (chain_cover _ _ _ (Z.max (rX f) (rX n)) Hc2) as (s' & Hs' & Ht); [lia|].
  assert (SK.nY s' <= rY n) as Hy by (apply Hall; [done|lia]).
  pose proof (Forall_elem _ _ _ (Hu f Hf) (elem_of_drop_elem _ _ _ Hs')) as Hus.
  unfold under in Hus. lia.
Qed.

Lemma SK_addLevel_spec p fs w h n index :
  SK_inv p fs -> SK_fit p w h n index -> 0 < rW n -> 0 < rH n ->
  exists p',
    SK.addLevel index n p = Some p' /\
    SK.base p' = SK.base p /\ SK.levelSelect p' = SK.levelSelect p /\
    profile_ok (maxWidth (SK.base p)) (maxHeight (SK.base p)) (fs ++ [n]) (SK.skyline p') /\
    merged (SK.skyline p') /\
    inbin (maxWidth (SK.base p)) (maxHeight (SK.base p)) n /\
    (forall f, f ∈ fs -> disj f n).
Proof.
  intros Hinv Hfit Hw Hh.
  pose proof (SK_inv_profile _ _ Hinv) as [_ Hok].
  pose proof (fun f => SK_fit_above p fs w h n index f Hinv Hfit Hw) as Habove.
  destruct Hfit as (s & Hi & Hs & _ & Ex & Hr & Hy0 & Hyh & Hall).
  destruct Hinv as (HW & HH & Hc & _ & _ & Hfs & _ & _ & _). cbv zeta in *.
  destruct (chain_split _ _ _ _ _ Hc Hs) as [Hc1 Hc2].
  pose proof (chain_le _ _ _ Hc1) as Hx0.
  pose proof (lookup_lt_Some _ _ _ Hs) as Hlen.
  assert (length (take (Z.to_nat index) (SK.skyline p)) = Z.to_nat index) as Hlt
    by (rewrite length_take; lia).
  unfold MaxInt in *.
  assert (exists p1, match SK.wasteMap p with
                     | Some _ => SK.addWaste p index (rW n) (rH n) (rY n)
                     | None => Some p
                     end = Some p1 /\ SK.base p1 = SK.base p /\
                     SK.levelSelect p1 = SK.levelSelect p /\ SK.skyline p1 = SK.skyline p)
    as (p1 & Ep1 & Eb & El & Es).
  { destruct (SK.wasteMap p) as [g|] eqn:Eg; [|by exists p].
    unfold SK.addWaste, idx. destruct (Z.ltb_spec index 0); [lia|]. rewrite Hs, Eg.
    cbn [mbind option_bind]. by eexists. }
  unfold SK.addLevel. rewrite Ep1. cbn [mbind option_bind]. cbv zeta.
  unfold SK.slices_Insert. rewrite Es.
  destruct (Z.ltb_spec index 0); [lia|].
  destruct (Z.ltb_spec (Z.of_nat (length (SK.skyline p))) index); [lia|].
  cbn [orb mbind option_bind].
  assert (rY n ⊞ rH n = rY n + rH n) as -> by (unwrap; lia).
  rewrite <- (f_equal S Hlt).
  erewrite (SK_addLevel_loop_spec (maxWidth (SK.base p)));
    [|exact Hc2|unfold MaxInt; cbn [SK.nX SK.nWidth]; try lia..].
  2:{ rewrite length_app. cbn. lia. }
  cbn [SK.nX SK.nWidth].
  cbn [mbind option_bind]. unfold SK.mergeSkylines. cbn [SK.skyline SK.set_skyline].
  destruct (SK_merge_loop_spec (maxWidth (SK.base p)) (maxHeight (SK.base p)) (fs ++ [n])
              (length (take (Z.to_nat index) (SK.skyline p) ++
                 SK.mkNode (rX n) (rY n + rH n) (rW n)
                 :: trim (rX n + rW n) (drop (Z.to_nat index) (SK.skyline p))))
              0
              (take (Z.to_nat index) (SK.skyline p) ++
                 SK.mkNode (rX n) (rY n + rH n) (rW n)
                 :: trim (rX n + rW n) (drop (Z.to_nat index) (SK.skyline p))))
    as (l' & -> & Hp' & Hm'); [unfold MaxInt; lia| | | |lia|].
  - intros f Hf. apply elem_of_app in Hf as [Hf|Hf].
    + pose proof (Forall_elem _ _ _ Hfs Hf) as Hfin. unfold inbin in Hfin. lia.
    + apply list_elem_of_singleton in Hf as ->. done.
  - split.
    + apply chain_app. exists (SK.nX s). split; [done|]. cbn.
      split; [done|]. split; [done|]. rewrite <- Ex.
      apply (trim_chain (SK.nX s)); [done|lia].
    + apply Forall_app. split; [|constructor].
      * apply Forall_forall. intros s0 Hs0.
        destruct (Forall_elem _ _ _ Hok (elem_of_take_elem _ _ _ Hs0)) as [Hl0 Hu0].
        split; [done|]. intros f Hf. apply elem_of_app in Hf as [Hf|Hf]; [by apply Hu0|].
        apply list_elem_of_singleton in Hf as ->.
        destruct (chain_ge _ _ _ _ Hc1 Hs0). unfold under. lia.
      * split; [unfold level_ok; cbn; lia|].
        intros f Hf. unfold under. cbn. apply elem_of_app in Hf as [Hf|Hf].
        -- intros H1 H2. specialize (Habove f Hf H1 H2). lia.
        -- apply list_elem_of_singleton in Hf as ->. lia.
      * apply Forall_forall. intros s' Hs'.
        destruct (trim_elem _ _ _ _ _ Hc2 Hs') as (s0 & Hs0 & Ey & ? & ? & ?).
        destruct (Forall_elem _ _ _ Hok (elem_of_drop_elem _ _ _ Hs0)) as [Hl0 Hu0].
        split; [unfold level_ok in *; lia|].
        intros f Hf. apply elem_of_app in Hf as [Hf|Hf].
        -- by apply (under_piece f s0 s' (Hu0 f Hf)).
        -- apply list_elem_of_singleton in Hf as ->. unfold under. lia.
  - intros k a b Hk. lia.
  - exists (SK.set_skyline l' p1). split; [done|]. cbn.
    split; [done|]. split; [done|]. split; [done|]. split; [done|].
    split; [unfold inbin; lia|].
    intros f Hf. unfold disj.
    pose proof (Forall_elem _ _ _ Hfs Hf) as Hfin. unfold inbin in Hfin.
    specialize (Habove f Hf). lia.
Qed.

(** ** Skyline: [Insert] *)

Lemma SK_valid_size_padded p s :
  0 < maxWidth (SK.base p) -> SK_valid_size p s ->
  let q := padSize s (padding (SK.base p)) in
  let m := Z.max (maxWidth (SK.base p)) (maxHeight (SK.base p)) in
  0 < Width q /\ 0 < Height q /\ Width q + m <= MaxInt /\ Height q + m <= MaxInt /\
  (0 < padding (SK.base p) -> padding (SK.base p) < Width q /\ padding (SK.base p) < Height q).
Proof.
  unfold SK_valid_size, padSize, MaxInt. intros HW (?&?&?&?).
  destruct (Z.leb_spec (padding (SK.base p)) 0); cbn; unwrap; lia.
Qed.

Lemma SK_same_config_valid p p' s :
  SK_same_config p p' -> SK_valid_size p s -> SK_valid_size p' s.
Proof. intros (EW & EH & Ep & _). unfold SK_valid_size. by rewrite EW, EH, Ep. Qed.

Lemma SK_Insert_scan_spec p fs sizes0 pre sizes best :
  SK_inv p fs -> sizes0 = pre ++ sizes -> Forall (SK_valid_size p) sizes ->
  SK_scan_ok p sizes0 best ->
  exists best', SK.Insert_scan p (Z.of_nat (length pre)) sizes best = Some best' /\
    SK_scan_ok p sizes0 best'.
Proof.
  intros Hinv. revert pre best.
  induction sizes as [|s sizes IH]; intros pre best E Hv Hb.
  - by exists best.
  - destruct best as [[[[bn b1] b2] bi] si]. cbn [SK.Insert_scan]. cbv zeta.
    apply Forall_cons in Hv as [Hs Hv].
    destruct (SK_valid_size_padded p s) as (Hw & Hh & Hwm & Hhm & _);
      [destruct Hinv as ((? & _) & _); done|done|]. cbv zeta in *.
    destruct (SK_find_spec p fs Hinv _ _ Hw Hh Hwm Hhm) as ([[[nn s1] s2] ix] & Hfind & Hst).
    match goal with
    | |- context [mbind _ ?o] =>
      replace o with (Some (nn, s1, s2, ix)) by (symmetry; exact Hfind)
    end.
    cbn [mbind option_bind].
    replace (Z.of_nat (length pre) + 1) with (Z.of_nat (length (pre ++ [s])))
      by (rewrite length_app; cbn; lia).
    apply IH; [by rewrite <- app_assoc|done|].
    destruct (negb _ && _) eqn:Ec; [|done].
    apply andb_true_iff in Ec as [Ez _]. apply negb_true_iff, Z.eqb_neq in Ez.
    right. exists s. split; [lia|]. split.
    + rewrite Nat2Z.id, E. by apply list_lookup_middle.
    + destruct Hst as [Hz|Hfit]; [|done]. cbn in Hz. by rewrite Hz in Ez.
Qed.

Lemma SK_Insert_commit_spec p fs sizes n bin index s :
  SK_inv p fs ->
  0 <= index -> sizes !! Z.to_nat index = Some s ->
  SK_valid_size p s ->
  SK_fit p (Width (padSize s (padding (SK.base p))))
           (Height (padSize s (padding (SK.base p)))) n bin ->
  exists p',
    SK.Insert_commit n bin index p sizes = Some (p', delete (Z.to_nat index) sizes) /\
    SK_inv p' (fs ++ [n]) /\ SK_same_config p p'.
Proof.
  intros Hinv Hi Hs Hv Hfit.
  destruct (SK_valid_size_padded p s) as (Hw & Hh & _ & _ & Hpp);
    [destruct Hinv as ((? & _) & _); done|done|]. cbv zeta in *.
  assert (0 < rW n /\ 0 < rH n) as [Hnw Hnh].
  { destruct Hfit as (? & _ & _ & Hdim & _). lia. }
  assert (0 < padding (SK.base p) -> padding (SK.base p) < rW n /\ padding (SK.base p) < rH n)
    as Hpn.
  { destruct Hfit as (? & _ & _ & Hdim & _). lia. }
  destruct (SK_addLevel_spec p fs _ _ n bin Hinv Hfit Hnw Hnh)
    as (p1 & Ep1 & Eb & El & [Hc Hok] & Hm & Hin & Hd).
  destruct Hinv as (HW & HH & _ & _ & _ & Hfs & Hpd & Hwi & _). cbv zeta in *.
  unfold SK.Insert_commit. rewrite Ep1. cbn [mbind option_bind]. cbv zeta.
  unfold slices_Delete, idx. destruct (Z.ltb_spec index 0); [lia|]. rewrite Hs.
  cbn [mbind option_bind].
  eexists. split; [done|]. split; [|unfold SK_same_config; cbn; by rewrite Eb, El].
  unfold SK_inv. cbn. rewrite Eb.
  repeat split; try done; try lia.
  - apply Forall_forall. intros s0 Hs0. by destruct (Forall_elem _ _ _ Hok Hs0).
  - apply Forall_app. by split; [|constructor].
  - by apply pairwise_disj_snoc.
  - apply Forall2_app; [done|]. constructor; [|constructor].
    by apply (unpadRect_within _ _ _ _ (proj2 HW) (proj2 HH) Hin).
  - intros f Hf. apply Forall_forall. intros s0 Hs0.
    destruct (Forall_elem _ _ _ Hok Hs0) as [_ Hu]. by apply Hu.
Qed.

Lemma SK_scan_init p sizes : SK_scan_ok p sizes (zeroRect, MaxInt, MaxInt, -1, -1).
Proof. by left. Qed.

Lemma SK_step_inv p fs sizes :
  SK_inv p fs -> Forall (SK_valid_size p) sizes ->
  exists bestNode s1 s2 bin index,
    SK.Insert_scan p 0 sizes (zeroRect, MaxInt, MaxInt, -1, -1)
      = Some (bestNode, s1, s2, bin, index) /\
    (index <> -1 ->
     (Z.to_nat index < length sizes)%nat /\
     exists p', SK.Insert_commit bestNode bin index p sizes
                = Some (p', delete (Z.to_nat index) sizes) /\
       SK_inv p' (fs ++ [bestNode]) /\ SK_same_config p p').
Proof.
  intros Hinv Hv.
  destruct (SK_Insert_scan_spec p fs sizes [] sizes _ Hinv eq_refl Hv (SK_scan_init p sizes))
    as ([[[[bn s1] s2] bin] index] & Hscan & Hok).
  exists bn, s1, s2, bin, index. split; [done|]. intros Hne.
  destruct Hok as [?|(s & Hi & Hs & Hfit)]; [done|].
  split; [by eapply lookup_lt_Some|].
  apply (SK_Insert_commit_spec p fs sizes bn bin index s); try done.
  eapply Forall_elem; [done|]. by eapply list_elem_of_lookup_2.
Qed.

Lemma SK_Reset_inv w h p p' :
  w <= MaxInt -> h <= MaxInt -> SK.Reset w h p = Some p' -> SK_inv p' [].
Proof.
  intros Hw Hh. unfold SK.Reset, base_Reset.
  destruct (Z.leb_spec w 0), (Z.leb_spec h 0); try done. cbn.
  intros Hp. apply bind_Some in Hp as (g & _ & [= <-]).
  unfold SK_inv. cbn. repeat split; try done; try lia.
  - repeat constructor; cbn; lia.
  - intros f Hf. by apply elem_of_nil in Hf.
Qed.

Lemma SK_new_inv w h heur p :
  w <= MaxInt -> h <= MaxInt -> SK.newSkyline w h heur = Some p -> SK_inv p [].
Proof.
  intros Hw Hh. unfold SK.newSkyline. cbv zeta. intros Hp.
  apply bind_Some in Hp as (q & _ & Hp). by apply (SK_Reset_inv w h q).
Qed.

Lemma SK_reachable_inv p : SK_reachable p -> exists fs, SK_inv p fs.
Proof.
  induction 1 as [w h heur p Hw Hh Hn | w h p p' Hw Hh _ _ Hr | b p _ [fs IH]
                 | pad p _ [fs IH]
                 | sizes p bn s1 s2 bin index p' rest _ [fs IH] Hv Hs Hne Hc].
  - exists []. exact (SK_new_inv w h heur p Hw Hh Hn).
  - exists []. exact (SK_Reset_inv w h p p' Hw Hh Hr).
  - by exists fs.
  - by exists fs.
  - exists (fs ++ [bn]).
    destruct (SK_step_inv p fs sizes IH Hv) as (bn' & s1' & s2' & bin' & index' & Hs' & Hpost).
    rewrite Hs in Hs'. injection Hs' as <- <- <- <- <-.
    destruct (Hpost Hne) as (_ & p1 & Hc1 & Hinv1 & _). rewrite Hc in Hc1.
    by injection Hc1 as <- _.
Qed.

Lemma SK_Insert_loop_reachable fuel p sizes :
  SK_reachable p -> Forall (SK_valid_size p) sizes ->
  (length sizes <= fuel)%nat ->
  exists p' rest, SK.Insert_loop fuel p sizes = Some (p', rest) /\ SK_reachable p' /\
    SK_same_config p p'.
Proof.
  revert p sizes. induction fuel as [|fuel IH]; intros p sizes Hr Hv Hf.
  - destruct sizes; [|cbn in Hf; lia]. cbn. by exists p, [].
  - destruct sizes as [|s sizes]; [by exists p, []|].
    cbn -[SK.Insert_scan SK.Insert_commit].
    destruct (SK_reachable_inv p Hr) as [fs Hinv].
    destruct (SK_step_inv p fs (s :: sizes) Hinv Hv)
      as (bn & s1 & s2 & bin & index & Hscan & Hpost).
    rewrite Hscan. cbn [mbind option_bind].
    destruct (Z.eqb_spec index (-1)) as [E|E]; [by exists p, (s :: sizes)|].
    destruct (Hpost E) as (Hlt & p1 & Hc & Hinv1 & Hcfg).
    rewrite Hc. cbn [mbind option_bind].
    destruct (IH p1 (delete (Z.to_nat index) (s :: sizes))) as (p' & rest & Hl & Hr' & Hcfg').
    + by eapply SK_reach_step.
    + apply Forall_delete. eapply Forall_impl; [done|]. intros x. by apply SK_same_config_valid.
    + rewrite length_delete by (by apply lookup_lt_is_Some_2). cbn in *. lia.
    + exists p', rest. split; [done|]. split; [done|].
      destruct Hcfg as (?&?&?&?&?), Hcfg' as (?&?&?&?&?). repeat split; congruence.
Qed.

Lemma chain_sorted x l W i j a b :
  chain x l W -> (i < j)%nat -> l !! i = Some a -> l !! j = Some b ->
  SK.nX a + SK.nWidth a <= SK.nX b.
Proof.
  revert x i j. induction l as [|s l IH]; intros x i j Hc Hij Ha Hb; [done|].
  destruct Hc as (Hx & Hw & Hc). destruct j as [|j]; [lia|]. cbn in Hb.
  destruct i as [|i].
  - injection Ha as <-. destruct (chain_ge _ _ _ _ Hc (list_elem_of_lookup_2 _ _ _ Hb)). lia.
  - cbn in Ha. apply (IH _ i j Hc); [lia|done..].
Qed.

Lemma chain_abut x l W k a b :
  chain x l W -> l !! k = Some a -> l !! S k = Some b -> SK.nX a + SK.nWidth a = SK.nX b.
Proof.
  revert x k. induction l as [|s l IH]; intros x k Hc Ha Hb; [done|].
  destruct Hc as (Hx & Hw & Hc). destruct k as [|k].
  - injection Ha as <-. destruct l as [|c l]; [done|]. injection Hb as <-.
    destruct Hc as (-> & _). lia.
  - by apply (IH _ k Hc).
Qed.

Lemma chain_widths x l W :
  chain x l W -> Forall (fun s => 0 < SK.nWidth s) l /\
  foldr (fun s acc => SK.nWidth s + acc) 0 l = W - x.
Proof.
  revert x. induction l as [|s l IH]; intros x Hc; cbn in *.
  - split; [constructor|lia].
  - destruct Hc as (Hx & Hw & Hc). destruct (IH _ Hc) as [Hp Hs].
    split; [by constructor|lia].
Qed.

Lemma SK_Insert_reachable sizes p p' rest :
  SK_reachable p -> Forall (SK_valid_size p) sizes ->
  SK.Insert sizes p = Some (p', rest) -> SK_reachable p'.
Proof.
  intros Hr Hv Hi.
  destruct (SK_Insert_loop_reachable (length sizes) p sizes Hr Hv (le_n _))
    as (p1 & rest1 & Hl & Hr1 & _).
  unfold SK.Insert in Hi. rewrite Hl in Hi. by injection Hi as <- _.
Qed.

(** C6: in every state the Skyline engine can reach from [Reset] (each
    iteration of [Insert] is a step, and ends with [addLevel] and its
    [mergeSkylines]) the segments are sorted by X, each one starts where the
    one before it ends, the first one starts at 0, the widths are positive
    and sum to [maxWidth], and adjacent segments differ in Y; and from such
    a state [Insert] of valid sizes returns, in a state of the same kind. *)
Theorem SK_profile_invariant p :
  SK_reachable p ->
  (forall i j a b, (i < j)%nat ->
     SK.skyline p !! i = Some a -> SK.skyline p !! j = Some b -> SK.nX a < SK.nX b)
  /\ (forall k a b, SK.skyline p !! k = Some a -> SK.skyline p !! S k = Some b ->
        SK.nX a + SK.nWidth a = SK.nX b /\ SK.nY a <> SK.nY b)
  /\ Forall (fun s => 0 < SK.nWidth s) (SK.skyline p)
  /\ (exists s, SK.skyline p !! 0%nat = Some s /\ SK.nX s = 0)
  /\ SK_widths (SK.skyline p) = maxWidth (SK.base p)
  /\ (forall sizes, Forall (SK_valid_size p) sizes ->
        exists p' rest, SK.Insert sizes p = Some (p', rest) /\ SK_reachable p').
Proof.
  intros Hr. destruct (SK_reachable_inv p Hr) as [fs Hinv].
  destruct Hinv as (HW & _ & Hc & Hm & _). cbv zeta in *.
  destruct (chain_widths _ _ _ Hc) as [Hpos Hsum].
  split; [|split; [|split; [|split; [|split]]]].
  - intros i j a b Hij Ha Hb.
    pose proof (chain_sorted _ _ _ i j a b Hc Hij Ha Hb).
    pose proof (Forall_elem _ _ _ Hpos (list_elem_of_lookup_2 _ _ _ Ha)). cbn in *. lia.
  - intros k a b Ha Hb. split; [by apply (chain_abut _ _ _ k a b Hc)|by apply (Hm k)].
  - done.
  - destruct (SK.skyline p) as [|s l]; cbn in Hc; [lia|]. exists s. by destruct Hc.
  - unfold SK_widths. rewrite Hsum. lia.
  - intros sizes Hv.
    destruct (SK_Insert_loop_reachable (length sizes) p sizes Hr Hv (le_n _))
      as (p1 & rest1 & Hl & Hr1 & _).
    by exists p1, rest1.
Qed.

Lemma example_skyline_reachable : SK_reachable example_skyline.
Proof.
  assert (SK.newSkyline 10 10 SkylineMinWaste
          = Some (default (SK.mk (mkBase [] 0 0 0 false 0) 0 [] None)
                          (SK.newSkyline 10 10 SkylineMinWaste))) as E0
    by (vm_compute; reflexivity).
  eapply (SK_Insert_reachable [NewSizeID 1 3 4; NewSizeID 2 5 2; NewSizeID 3 2 2]
            (SK.Padding 1 _) example_skyline []).
  - apply SK_reach_Padding.
    apply (SK_reach_new 10 10 SkylineMinWaste); [unfold MaxInt; lia..|exact E0].
  - repeat constructor; vm_compute; discriminate.
  - vm_compute; reflexivity.
Qed.

(** Witness of [SK_profile_invariant]: the 10 x 10 MinWaste engine with
    padding 1 after [Insert] of 3 x 4, 5 x 2 and 2 x 2. *)
Lemma SK_profile_invariant_witness :
  SK.skyline example_skyline = [SK.mkNode 0 8 4; SK.mkNode 4 3 5; SK.mkNode 9 0 1]
  /\ (forall i j a b, (i < j)%nat ->
        SK.skyline example_skyline !! i = Some a ->
        SK.skyline example_skyline !! j = Some b -> SK.nX a < SK.nX b)
  /\ (forall k a b, SK.skyline example_skyline !! k = Some a ->
        SK.skyline example_skyline !! S k = Some b ->
        SK.nX a + SK.nWidth a = SK.nX b /\ SK.nY a <> SK.nY b)
  /\ Forall (fun s => 0 < SK.nWidth s) (SK.skyline example_skyline)
  /\ (exists s, SK.skyline example_skyline !! 0%nat = Some s /\ SK.nX s = 0)
  /\ SK_widths (SK.skyline example_skyline) = maxWidth (SK.base example_skyline)
  /\ (forall sizes, Forall (SK_valid_size example_skyline) sizes ->
        exists p' rest, SK.Insert sizes example_skyline = Some (p', rest)
                        /\ SK_reachable p').
Proof.
  split; [vm_compute; reflexivity|].
  apply (SK_profile_invariant example_skyline example_skyline_reachable).
Defined.

(** ** Skyline: the waste map is write-only *)

Section same_view.
Variables p q : SK.skylinePack.
Hypothesis Hv : SK_same_view p q.

Lemma SK_testFit_view i w h y : SK.testFit p i w h y = SK.testFit q i w h y.
Proof. destruct Hv as (Eb & El & Es). unfold SK.testFit. by rewrite Eb, Es. Qed.

Lemma SK_computeWaste_view i w h y : SK.computeWaste p i w h y = SK.computeWaste q i w h y.
Proof. destruct Hv as (Eb & El & Es). unfold SK.computeWaste. by rewrite Es. Qed.

Lemma SK_testFitWithWaste_view i w h y wa :
  SK.testFitWithWaste p i w h y wa = SK.testFitWithWaste q i w h y wa.
Proof.
  unfold SK.testFitWithWaste. rewrite SK_testFit_view.
  destruct (SK.testFit q i w h y) as [[[] y']|]; cbn [mbind option_bind]; try done.
  by rewrite SK_computeWaste_view.
Qed.

Lemma SK_findBottomLeft_try_view f i w h y st :
  SK.findBottomLeft_try p f i w h y st = SK.findBottomLeft_try q f i w h y st.
Proof.
  destruct Hv as (Eb & El & Es).
  unfold SK.findBottomLeft_try. by rewrite SK_testFit_view, Es.
Qed.

Lemma SK_findMinWaste_try_view f i w h y wa st :
  SK.findMinWaste_try p f i w h y wa st = SK.findMinWaste_try q f i w h y wa st.
Proof.
  destruct Hv as (Eb & El & Es).
  unfold SK.findMinWaste_try. by rewrite SK_testFitWithWaste_view, Es.
Qed.

Lemma SK_findBottomLeft_loop_view w h n i st :
  SK.findBottomLeft_loop p w h n i st = SK.findBottomLeft_loop q w h n i st.
Proof.
  revert i st. induction n as [|n IH]; intros i st; cbn -[SK.findBottomLeft_try]; [done|].
  rewrite SK_findBottomLeft_try_view.
  destruct (SK.findBottomLeft_try q false i w h 0 st) as [[st1 y1]|];
    cbn -[SK.findBottomLeft_try]; [|done].
  destruct Hv as (<- & _ & _).
  destruct (allowFlip (SK.base p)); cbn -[SK.findBottomLeft_try]; [|done].
  rewrite SK_findBottomLeft_try_view.
  destruct (SK.findBottomLeft_try q true i h w y1 st1) as [[st2 y2]|];
    cbn -[SK.findBottomLeft_try]; done.
Qed.

Lemma SK_findMinWaste_loop_view w h n i st :
  SK.findMinWaste_loop p w h n i st = SK.findMinWaste_loop q w h n i st.
Proof.
  revert i st. induction n as [|n IH]; intros i st; cbn -[SK.findMinWaste_try]; [done|].
  rewrite SK_findMinWaste_try_view.
  destruct (SK.findMinWaste_try q false i w h 0 0 st) as [[[st1 y1] wa1]|];
    cbn -[SK.findMinWaste_try]; [|done].
  destruct Hv as (<- & _ & _).
  destruct (allowFlip (SK.base p)); cbn -[SK.findMinWaste_try]; [|done].
  rewrite SK_findMinWaste_try_view.
  destruct (SK.findMinWaste_try q true i h w y1 wa1 st1) as [[[st2 y2] wa2]|];
    cbn -[SK.findMinWaste_try]; done.
Qed.

Lemma SK_Insert_scan_view i sizes best :
  SK.Insert_scan p i sizes best = SK.Insert_scan q i sizes best.
Proof.
  revert i best. induction sizes as [|s sizes IH]; intros i best; [done|].
  destruct best as [[[[bn b1] b2] bi] si].
  cbn -[SK.findMinWaste SK.findBottomLeft]. 
  unfold SK.findMinWaste, SK.findBottomLeft.
  rewrite !SK_findMinWaste_loop_view, !SK_findBottomLeft_loop_view.
  destruct Hv as (<- & <- & <-).
  destruct (if _ =? _ then _ else _) as [[[[nn s1] s2] ix]|]; cbn [mbind option_bind]; done.
Qed.
End same_view.

Lemma SK_waste_loop_app {A} (mk : Z -> Z -> SK.skylineNode -> A) l r segs acc :
  SK.waste_loop (fun acc a b s => acc ++ [mk a b s]) l r segs acc
  = acc ++ SK.waste_loop (fun acc a b s => acc ++ [mk a b s]) l r segs [].
Proof.
  revert acc. induction segs as [|s segs IH]; intros acc; cbn.
  - by rewrite app_nil_r.
  - destruct (_ <? _); [|by rewrite app_nil_r].
    destruct (_ || _); [by rewrite app_nil_r|].
    rewrite IH, (IH [_]). by rewrite app_assoc.
Qed.

(** [addLevel] moves the profile and appends to the free list of the waste
    map; what it does to the one does not depend on the other. *)
Lemma SK_addLevel_waste p index rect :
  exists o : option (list SK.skylineNode * list Rect), forall g,
    SK.addLevel index rect (SK.set_wasteMap (Some g) p)
    = (fun r => SK_after p g (SK.base p, r.1, r.2)) <$> o.
Proof.
  unfold SK.addLevel, SK.addWaste, SK.set_wasteMap. cbn [SK.wasteMap SK.skyline].
  destruct (idx (SK.skyline p) index) as [s|]; [|by exists None].
  cbn [mbind option_bind SK.skyline SK.set_wasteMap].
  destruct (SK.slices_Insert _ _ _) as [l|]; [|by exists None]. cbn [mbind option_bind].
  destruct (SK.addLevel_loop _ _ _) as [l'|]; [|by exists None]. cbn [mbind option_bind].
  unfold SK.mergeSkylines. cbn [SK.skyline SK.set_skyline].
  destruct (SK.merge_loop _ _ _) as [l''|]; [|by exists None]. cbn [mbind option_bind].
  eexists (Some (l'', _)). intros g. cbn. unfold SK_after, SK.set_skyline. cbn.
  f_equal. f_equal. f_equal. unfold GU.set_free. f_equal.
  apply (SK_waste_loop_app
           (fun a b s0 => setXYWH zeroRect a (SK.nY s0) (b ⊟ a) (rY rect ⊟ SK.nY s0))).
Qed.

Lemma SK_Insert_commit_waste p n bin index sizes :
  exists o : option (algorithmBase * list SK.skylineNode * list Rect * list Size), forall g,
    SK.Insert_commit n bin index (SK.set_wasteMap (Some g) p) sizes
    = (fun r => (SK_after p g r.1, r.2)) <$> o.
Proof.
  unfold SK.Insert_commit.
  destruct (SK_addLevel_waste p bin n) as [[[sk ext]|] Ho].
  2:{ exists None. intros g. by rewrite Ho. }
  destruct (idx sizes index) as [s|].
  2:{ exists None. intros g. by rewrite Ho. }
  destruct (slices_Delete sizes index) as [rest|].
  2:{ exists None. intros g. by rewrite Ho. }
  eexists (Some (_, sk, ext, rest)). intros g. rewrite Ho. cbn. reflexivity.
Qed.

Lemma SK_after_refl p g :
  SK_after p g (SK.base p, SK.skyline p, []) = SK.set_wasteMap (Some g) p.
Proof. unfold SK_after, SK.set_wasteMap. cbn. rewrite app_nil_r. by destruct g. Qed.

Lemma SK_Insert_loop_waste fuel p sizes :
  exists o : option (algorithmBase * list SK.skylineNode * list Rect * list Size), forall g,
    SK.Insert_loop fuel (SK.set_wasteMap (Some g) p) sizes
    = (fun r => (SK_after p g r.1, r.2)) <$> o.
Proof.
  revert p sizes. induction fuel as [|fuel IH]; intros p sizes.
  - destruct sizes as [|s sizes].
    { exists (Some (SK.base p, SK.skyline p, [], [])). intros g. cbn [SK.Insert_loop].
      cbn [fmap option_fmap option_map fst snd]. by rewrite SK_after_refl. }
    cbn [SK.Insert_loop].
    destruct (SK.Insert_scan p 0 (s :: sizes) (zeroRect, MaxInt, MaxInt, -1, -1))
      as [[[[[bn s1] s2] bin] index]|] eqn:Hscan.
    2:{ exists None. intros g.
        rewrite (SK_Insert_scan_view _ p) by done. by rewrite Hscan. }
    destruct (index =? -1) eqn:Ei.
    + exists (Some (SK.base p, SK.skyline p, [], s :: sizes)). intros g.
      rewrite (SK_Insert_scan_view _ p) by done. rewrite Hscan.
      cbn [mbind option_bind]. rewrite Ei.
      cbn [fmap option_fmap option_map fst snd]. by rewrite SK_after_refl.
    + exists None. intros g.
      rewrite (SK_Insert_scan_view _ p) by done. rewrite Hscan.
      cbn [mbind option_bind]. by rewrite Ei.
  - destruct sizes as [|s sizes].
    { exists (Some (SK.base p, SK.skyline p, [], [])). intros g. cbn [SK.Insert_loop].
      cbn [fmap option_fmap option_map fst snd]. by rewrite SK_after_refl. }
    cbn [SK.Insert_loop].
    destruct (SK.Insert_scan p 0 (s :: sizes) (zeroRect, MaxInt, MaxInt, -1, -1))
      as [[[[[bn s1] s2] bin] index]|] eqn:Hscan.
    2:{ exists None. intros g.
        rewrite (SK_Insert_scan_view _ p) by done. by rewrite Hscan. }
    destruct (index =? -1) eqn:Ei.
    { exists (Some (SK.base p, SK.skyline p, [], s :: sizes)). intros g.
      rewrite (SK_Insert_scan_view _ p) by done. rewrite Hscan.
      cbn [mbind option_bind]. rewrite Ei.
      cbn [fmap option_fmap option_map fst snd]. by rewrite SK_after_refl. }
    destruct (SK_Insert_commit_waste p bn bin index (s :: sizes))
      as [[[[[b' sk'] ext] rest]|] Hc].
    2:{ exists None. intros g.
        rewrite (SK_Insert_scan_view _ p) by done. rewrite Hscan.
        cbn [mbind option_bind]. rewrite Ei, Hc. done. }
    destruct (IH (SK.mk b' (SK.levelSelect p) sk' (SK.wasteMap p)) rest) as [o2 Ho2].
    exists ((fun r => (r.1.1.1, r.1.1.2, ext ++ r.1.2, r.2)) <$> o2). intros g.
    rewrite (SK_Insert_scan_view _ p) by done. rewrite Hscan.
    cbn [mbind option_bind]. rewrite Ei, Hc.
    cbn [fmap option_fmap option_map mbind option_bind fst snd].
    change (SK_after p g (b', sk', ext))
      with (SK.set_wasteMap (Some (GU.set_free (GU.freeRects g ++ ext) g))
              (SK.mk b' (SK.levelSelect p) sk' (SK.wasteMap p))).
    rewrite Ho2. destruct o2 as [[[[b'' sk''] ext2] rest2]|]; [|done].
    cbn. unfold SK_after. cbn. by rewrite app_assoc.
Qed.

(** C8: the Skyline [Insert] reads nothing from the waste map.  Two runs from
    the same state (base, heuristic and profile; in particular the MinWaste
    engines, the only ones [newSkyline] gives a waste map) on the same
    sizes, with waste maps [g1] and [g2] that may differ in everything,
    both panic or both return; and then they return the same sizes, leave
    the same packed list, base and profile, and each waste map is the one
    given with the same rectangles [ext] appended to its free list. *)
Theorem SK_Insert_ignores_waste_map p g1 g2 sizes :
  match SK.Insert sizes (SK.set_wasteMap (Some g1) p),
        SK.Insert sizes (SK.set_wasteMap (Some g2) p) with
  | Some (p1, rest1), Some (p2, rest2) =>
      rest1 = rest2 /\ SK.Rects p1 = SK.Rects p2 /\ SK_same_view p1 p2 /\
      exists ext,
        SK.wasteMap p1 = Some (GU.set_free (GU.freeRects g1 ++ ext) g1) /\
        SK.wasteMap p2 = Some (GU.set_free (GU.freeRects g2 ++ ext) g2)
  | None, None => True
  | _, _ => False
  end.
Proof.
  unfold SK.Insert.
  destruct (SK_Insert_loop_waste (length sizes) p sizes) as [o Ho].
  rewrite (Ho g1), (Ho g2). destruct o as [[[[b sk] ext] rest]|]; cbn; [|done].
  split; [done|]. split; [done|]. split; [done|]. by exists ext.
Qed.

(** The two runs of C8 on the example engine, with its own waste map and
    with an empty one: both return, with the same packed rectangles. *)
Lemma SK_Insert_ignores_waste_map_example :
  let g := GU.mk (mkBase [] 0 0 0 false 0) false 0 GU.scoreBestArea [] in
  let run w := SK.Insert [NewSizeID 4 1 1; NewSizeID 5 20 20] (SK.set_wasteMap w example_skyline) in
  (SK.Rects ∘ fst <$> run (SK.wasteMap example_skyline)) = (SK.Rects ∘ fst <$> run (Some g))
  /\ (length ∘ SK.Rects ∘ fst <$> run (Some g)) = Some 4%nat
  /\ (snd <$> run (Some g)) = Some [NewSizeID 5 20 20].
Proof. vm_compute. done. Qed.

(** ** Footprints *)

Lemma wrap_add_wrap a b : wrap (a + wrap b) = wrap (a + b).
Proof.
  unfold wrap. f_equal.
  replace (a + ((b + 9223372036854775808) `mod` 18446744073709551616 - 9223372036854775808)
           + 9223372036854775808)
    with (a + (b + 9223372036854775808) `mod` 18446744073709551616) by lia.
  rewrite Zplus_mod_idemp_r. f_equal. lia.
Qed.

(** Rectangles inside disjoint footprints: the code's own tests see no
    overlap, whatever the sides of the rectangles are. *)
Lemma shrunk_disj_no_overlap a b fa fb :
  shrunk a fa -> shrunk b fb -> disj fa fb ->
  rArea (Intersect a b) = 0 /\ Intersects a b = false.
Proof.
  unfold shrunk, disj, Intersect, Intersects, rArea, Area, Right, Bottom.
  intros Sa Sb D. rewrite !imax_spec, !imin_spec. split.
  - destruct (_ && _) eqn:E; [|done].
    apply andb_true_iff in E as [E1 E2]. apply Z.leb_le in E1, E2. cbn.
    assert (Z.min (rX a ⊞ rW a) (rX b ⊞ rW b) = Z.max (rX a) (rX b)
            \/ Z.min (rY a ⊞ rH a) (rY b ⊞ rH b) = Z.max (rY a) (rY b)) as [->| ->] by lia.
    + unfold sub, mul. by rewrite Z.sub_diag.
    + unfold sub, mul. by rewrite Z.sub_diag, Z.mul_0_r.
  - rewrite !andb_false_iff, !Z.ltb_ge. lia.
Qed.

Lemma within_shrunk W H r f :
  W <= MaxInt -> H <= MaxInt -> inbin W H f -> within r f -> shrunk r f.
Proof.
  unfold inbin, within, shrunk, Right, Bottom, MaxInt. intros. unwrap. lia.
Qed.



(** [unpadRect] on a node of the bin, for a padding that is an [int]. *)
Lemma unpadRect_shrunk W H n pad :
  W <= MaxInt -> H <= MaxInt -> inbin W H n -> pad <= MaxInt ->
  shrunk (unpadRect n pad) n.
Proof.
  intros HW HH Hn Hp. unfold unpadRect, inbin, MaxInt in *.
  destruct (Z.leb_spec pad 0).
  { unfold shrunk, Right, Bottom. unwrap. lia. }
  assert (forall x w, x = 0 -> 0 < w -> x + w <= 9223372036854775807 ->
            (x ⊞ pad) ⊞ (w ⊟ pad ⊠ 2) = x + w - pad) as Eorigin.
  { intros x w ???. unfold add, sub, mul.
    rewrite (wrap_small' (x + pad)) by lia.
    rewrite wrap_add_wrap, Z.add_sub_assoc, wrap_wrap_sub.
    replace (x + pad + w - pad * 2) with (x + w - pad) by lia. apply wrap_small'. lia. }
  assert (forall x w, 0 <= x -> 0 < w -> x + w <= 9223372036854775807 ->
            x ⊞ (w ⊟ pad) = x + w - pad) as Eother.
  { intros x w ???. unwrap. lia. }
  unfold shrunk, Right, Bottom.
  destruct (Z.eqb_spec (rX n) 0) as [Ex|Ex];
    match goal with |- context [if ?a =? 0 then _ else _] =>
      destruct (Z.eqb_spec a 0) as [Ey|Ey] end;
    rsimpl.
  all: repeat match goal with
       | E : _ |- context [(?x ⊞ _) ⊞ (?w ⊟ _ ⊠ 2)] => rewrite (E x w) by lia
       | E : _ |- context [?x ⊞ (?w ⊟ _)] => rewrite (E x w) by lia
       end.
  all: unwrap; lia.
Qed.

(** ** Guillotine: the free list *)

Lemma delete_app_lt {A} (l cs : list A) i :
  (i < length l)%nat -> delete i (l ++ cs) = delete i l ++ cs.
Proof.
  revert i. induction l as [|a l IH]; intros i Hi; cbn in *; [lia|].
  destruct i as [|i]; [done|]. cbn. f_equal. apply IH. lia.
Qed.

Lemma lookup_delete_orig {A} (l : list A) i j x :
  delete i l !! j = Some x -> exists k, k <> i /\ l !! k = Some x /\
    (k = j \/ k = S j) /\ ((j < i)%nat -> k = j) /\ ((i <= j)%nat -> k = S j).
Proof.
  intros Hx. destruct (decide (j < i)%nat).
  - rewrite list_lookup_delete_lt in Hx by done. exists j. repeat split; try done; lia.
  - rewrite list_lookup_delete_ge in Hx by lia. exists (S j). repeat split; try done; lia.
Qed.

Lemma pairwise_disj_delete l i : pairwise_disj l -> pairwise_disj (delete i l).
Proof.
  intros Hl j k a b Hjk Ha Hb.
  apply lookup_delete_orig in Ha as (j' & ? & Ha & ? & ? & ?).
  apply lookup_delete_orig in Hb as (k' & ? & Hb & ? & ? & ?).
  apply (Hl j' k'); [lia|done..].
Qed.

Lemma elem_of_delete_orig {A} (l : list A) i x :
  x ∈ delete i l -> exists k, k <> i /\ l !! k = Some x.
Proof.
  intros Hx. apply list_elem_of_lookup in Hx as [j Hj].
  apply lookup_delete_orig in Hj as (k & ? & ? & _). by exists k.
Qed.

Lemma pairwise_disj_app l cs :
  pairwise_disj l -> pairwise_disj cs ->
  (forall x c, x ∈ l -> c ∈ cs -> disj x c) -> pairwise_disj (l ++ cs).
Proof.
  intros Hl Hcs Hx i j a b Hij Ha Hb.
  apply lookup_app_Some in Ha as [Ha|[Hi Ha]]; apply lookup_app_Some in Hb as [Hb|[Hj Hb]].
  - by apply (Hl i j).
  - apply Hx; by eapply list_elem_of_lookup_2.
  - apply disj_sym, Hx; by eapply list_elem_of_lookup_2.
  - apply (Hcs (i - length l)%nat (j - length l)%nat); [lia|done..].
Qed.

(** ** Guillotine: the split *)

Lemma GU_splitAlongAxis_spec W H F n b p :
  W <= MaxInt -> H <= MaxInt -> inbin W H F ->
  rX n = rX F -> rY n = rY F -> 0 < rW n <= rW F -> 0 < rH n <= rH F ->
  exists cs,
    GU.splitAlongAxis F n b p = GU.set_free (GU.freeRects p ++ cs) p /\
    Forall (GU_child_ok W H F n) cs /\ pairwise_disj cs.
Proof.
  intros HW HH HF Ex Ey Hw Hh. unfold GU.splitAlongAxis, inbin, MaxInt in *. cbv zeta.
  destruct b; rsimpl; unwrap.
  all: repeat match goal with
       | |- context [if ?c then _ else _] => destruct c eqn:?
       end.
  all: repeat match goal with
       | E : (_ && _) = true |- _ => apply andb_true_iff in E as [? ?]
       | E : (_ <? _) = true |- _ => apply Z.ltb_lt in E
       end.
  all: unfold GU.set_free; cbn [GU.freeRects GU.base GU.Merge GU.splitMethod GU.scoreRect].
  all: try (rewrite <- app_assoc; cbn [app]).
  all: first [ eexists; split; [reflexivity|]
             | exists []; split; [rewrite app_nil_r; by destruct p|] ].
  all: split;
       [repeat constructor; unfold GU_child_ok; rsimpl; lia
       |intros i j x y Hij Hx Hy;
        destruct i as [|[|i]], j as [|[|j]]; try done;
        cbn in Hx, Hy; injection Hx as <-; injection Hy as <-; rsimpl; lia].
Qed.

Lemma GU_splitByHeuristic_spec W H F n p :
  W <= MaxInt -> H <= MaxInt -> inbin W H F ->
  rX n = rX F -> rY n = rY F -> 0 < rW n <= rW F -> 0 < rH n <= rH F ->
  exists cs,
    GU.splitByHeuristic F n p = GU.set_free (GU.freeRects p ++ cs) p /\
    Forall (GU_child_ok W H F n) cs /\ pairwise_disj cs.
Proof. intros. unfold GU.splitByHeuristic. cbv zeta. by apply GU_splitAlongAxis_spec. Qed.

(** ** Guillotine: the scan *)

Lemma padSize_ge pad s :
  valid_size pad s ->
  Width s <= Width (padSize s pad) /\ Height s <= Height (padSize s pad) /\
  ID (padSize s pad) = ID s.
Proof.
  unfold valid_size, padSize, MaxInt. intros (?&?&?&?).
  destruct (Z.leb_spec pad 0); cbn; unwrap; lia.
Qed.

Lemma GU_scan_sizes_spec p pad i F frees sizes0 pre sizes c :
  0 <= i -> frees !! Z.to_nat i = Some F -> sizes0 = pre ++ sizes ->
  GU_scan_ok frees pad sizes0 c ->
  GU_scan_ok frees pad sizes0 (GU.scan_sizes p pad i F (Z.of_nat (length pre)) sizes c).
Proof.
  intros Hi HF. revert pre c. induction sizes as [|s sizes IH]; intros pre c E Hc; [done|].
  cbn [GU.scan_sizes]. cbv zeta.
  assert (forall fl sc,
            (if fl : bool then Height (padSize s pad) <= rW F /\ Width (padSize s pad) <= rH F
             else Width (padSize s pad) <= rW F /\ Height (padSize s pad) <= rH F) ->
            GU_scan_ok frees pad sizes0 (GU.mkChoice i (Z.of_nat (length pre)) fl sc)) as Hnew.
  { intros fl sc Hfit. right. exists F, s. cbn. rewrite Nat2Z.id.
    split; [done|]. split; [done|]. split; [lia|]. split; [|done].
    rewrite E. by apply list_lookup_middle. }
  assert (forall c', GU_scan_ok frees pad sizes0 c' ->
            GU_scan_ok frees pad sizes0
              (GU.scan_sizes p pad i F (Z.of_nat (length pre) + 1) sizes c')) as Hnext.
  { intros c' Hc'.
    replace (Z.of_nat (length pre) + 1) with (Z.of_nat (length (pre ++ [s])))
      by (rewrite length_app; cbn; lia).
    apply IH; [by rewrite <- app_assoc|done]. }
  match goal with |- context [if ?b then _ else _] => destruct b eqn:E1 end.
  { apply andb_true_iff in E1 as [?%Z.eqb_eq ?%Z.eqb_eq]. apply (Hnew false). lia. }
  match goal with |- context [if ?b then _ else _] => destruct b eqn:E2 end.
  { apply andb_true_iff in E2 as [[_ ?%Z.eqb_eq]%andb_true_iff ?%Z.eqb_eq].
    apply (Hnew true). lia. }
  match goal with |- context [if ?b then _ else _] => destruct b eqn:E3 end.
  { apply andb_true_iff in E3 as [?%Z.leb_le ?%Z.leb_le]. apply Hnext.
    destruct (_ <? _); [|done]. by apply (Hnew false). }
  match goal with |- context [if ?b then _ else _] => destruct b eqn:E4 end.
  { apply andb_true_iff in E4 as [[_ ?%Z.leb_le]%andb_true_iff ?%Z.leb_le]. apply Hnext.
    destruct (_ <? _); [|done]. by apply (Hnew true). }
  by apply Hnext.
Qed.

Lemma GU_scan_free_spec p pad frees0 pre frees sizes c :
  frees0 = pre ++ frees ->
  GU_scan_ok frees0 pad sizes c ->
  GU_scan_ok frees0 pad sizes (GU.scan_free p pad (Z.of_nat (length pre)) frees sizes c).
Proof.
  revert pre c. induction frees as [|F frees IH]; intros pre c E Hc; [done|].
  cbn [GU.scan_free].
  replace (Z.of_nat (length pre) + 1) with (Z.of_nat (length (pre ++ [F])))
    by (rewrite length_app; cbn; lia).
  apply IH; [by rewrite <- app_assoc|].
  apply (GU_scan_sizes_spec p pad _ F frees0 sizes [] sizes); [lia| |done|done].
  rewrite Nat2Z.id, E. by apply list_lookup_middle.
Qed.

(** ** Guillotine: [Insert] *)

Lemma GU_Insert_commit_spec p fs pad sizes c :
  GU_inv p fs -> Forall (valid_size pad) sizes ->
  GU_scan_ok (GU.freeRects p) pad sizes c -> GU.bestScore c <> MaxInt ->
  exists p' n,
    GU.Insert_commit pad c p sizes = Some (p', delete (Z.to_nat (GU.bestRect c)) sizes) /\
    (Z.to_nat (GU.bestRect c) < length sizes)%nat /\
    GU_inv p' (fs ++ [n]).
Proof.
  intros (HW & HH & Hin & Hpd & Hfs & Hfd & Hsh & HFf) Hv [?|Hok] Hne; [done|].
  cbv zeta in *.
  destruct Hok as (F & s & Hi & HF & Hj & Hs & Hfit). cbv zeta in Hfit.
  pose proof (Forall_elem _ _ _ Hv (list_elem_of_lookup_2 _ _ _ Hs)) as Hvs.
  destruct (padSize_ge _ _ Hvs) as (Hpw & Hph & _).
  pose proof (list_elem_of_lookup_2 _ _ _ HF) as HFel.
  pose proof (Forall_elem _ _ _ Hin HFel) as HFin.
  pose proof (lookup_lt_Some _ _ _ HF) as HiF.
  pose proof (lookup_lt_Some _ _ _ Hs) as Hjs.
  set (n := let newNode := mkRect (rPoint F) s false in
            if GU.bestFlipped c
            then setFlipped (setH (setW newNode (rH newNode)) (rW newNode)) true
            else newNode).
  assert (rX n = rX F /\ rY n = rY F /\ 0 < rW n <= rW F /\ 0 < rH n <= rH F)
    as (Ex & Ey & Hw & Hh).
  { subst n. destruct Hvs as (? & ? & _). cbv zeta. destruct (GU.bestFlipped c); rsimpl; lia. }
  assert (inbin (maxWidth (GU.base p)) (maxHeight (GU.base p)) n) as Hnin.
  { unfold inbin in *. lia. }
  assert (contains F n) as HFn by (unfold contains; lia).
  assert (pad <= MaxInt) as Hpad.
  { destruct Hvs as (? & _ & ? & _). lia. }
  destruct (GU_splitByHeuristic_spec _ _ F n p (proj2 HW) (proj2 HH) HFin Ex Ey Hw Hh)
    as (cs & Esplit & Hcs & Hcsd).
  unfold GU.Insert_commit, idx.
  destruct (Z.ltb_spec (GU.bestFreeRect c) 0); [lia|]. rewrite HF. cbn [mbind option_bind].
  destruct (Z.ltb_spec (GU.bestRect c) 0); [lia|]. rewrite Hs. cbn [mbind option_bind].
  fold n. cbv zeta. rewrite Esplit. unfold slices_Delete, idx.
  destruct (Z.ltb_spec (GU.bestFreeRect c) 0); [lia|].
  destruct (Z.ltb_spec (GU.bestRect c) 0); [lia|].
  cbn [GU.freeRects GU.set_free].
  rewrite (lookup_app_l_Some _ _ _ _ HF). cbn [mbind option_bind]. rewrite Hs.
  cbn [mbind option_bind GU.Merge GU.set_free].
  rewrite delete_app_lt by done.
  set (l' := delete (Z.to_nat (GU.bestFreeRect c)) (GU.freeRects p) ++ cs).
  assert (Forall (inbin (maxWidth (GU.base p)) (maxHeight (GU.base p))) l') as Hin'.
  { apply Forall_app. split; [by apply Forall_delete|].
    eapply Forall_impl; [done|]. by intros x (? & _). }
  assert (forall x, x ∈ delete (Z.to_nat (GU.bestFreeRect c)) (GU.freeRects p) -> disj x F)
    as HdF.
  { intros x Hx. apply elem_of_delete_orig in Hx as (k & Hk & Hx).
    by apply (Hpd k (Z.to_nat (GU.bestFreeRect c))). }
  assert (forall x, x ∈ l' -> disj x n) as Hl'n.
  { intros x Hx. apply elem_of_app in Hx as [Hx|Hx].
    - apply (disj_contains x F n); [by apply HdF|done|lia..].
    - by destruct (Forall_elem _ _ _ Hcs Hx) as (_ & _ & ?). }
  assert (GU.mergeFreeList
            (GU.mk (GU.base p) (GU.Merge p) (GU.splitMethod p) (GU.scoreRect p) l')
          = Some (GU.mk (GU.base p) (GU.Merge p) (GU.splitMethod p) (GU.scoreRect p) l'))
    as Emerge.
  { apply GU_mergeFreeList_tall. cbn. eapply Forall_impl; [exact Hin'|].
    intros x Hx. unfold tall, inbin, in_int, MinInt, MaxInt in *. lia. }
  change (GU.set_free l' (GU.set_free (GU.freeRects p ++ cs) p))
    with (GU.mk (GU.base p) (GU.Merge p) (GU.splitMethod p) (GU.scoreRect p) l').
  assert (exists p1, (if GU.Merge p
                      then GU.mergeFreeList
                             (GU.mk (GU.base p) (GU.Merge p) (GU.splitMethod p)
                                    (GU.scoreRect p) l')
                      else Some (GU.mk (GU.base p) (GU.Merge p) (GU.splitMethod p)
                                       (GU.scoreRect p) l')) = Some p1 /\
                     GU.base p1 = GU.base p /\ GU.freeRects p1 = l') as (p1 & -> & Eb & El).
  { destruct (GU.Merge p); [rewrite Emerge|]; by eexists. }
  cbn [mbind option_bind].
  eexists _, n. split; [done|]. split; [done|].
  unfold GU_inv. cbn. rewrite Eb, El.
  repeat split; try done; try lia.
  - apply pairwise_disj_app; [by apply pairwise_disj_delete|done|].
    intros x y Hx Hy. destruct (Forall_elem _ _ _ Hcs Hy) as (Hyin & HFy & _).
    apply (disj_contains x F y); [by apply HdF|done|unfold inbin in Hyin; lia..].
  - apply Forall_app. by split; [|constructor].
  - apply pairwise_disj_snoc; [done|].
    intros f Hf. apply (disj_contains f F n); [|done|lia..].
    apply disj_sym. by apply HFf.
  - apply Forall2_app; [done|]. constructor; [|constructor].
    by apply (unpadRect_shrunk _ _ _ _ (proj2 HW) (proj2 HH) Hnin).
  - intros x f Hx Hf. apply elem_of_app in Hf as [Hf|Hf].
    + apply elem_of_app in Hx as [Hx|Hx].
      * apply elem_of_delete_orig in Hx as (k & _ & Hx).
        apply HFf; [by eapply list_elem_of_lookup_2|done].
      * destruct (Forall_elem _ _ _ Hcs Hx) as (Hxin & HFx & _).
        apply disj_sym. apply (disj_contains f F x); [|done|unfold inbin in Hxin; lia..].
        apply disj_sym. by apply HFf.
    + apply list_elem_of_singleton in Hf as ->. by apply Hl'n.
Qed.

Lemma GU_scan_spec p pad sizes c0 :
  GU_scan_ok (GU.freeRects p) pad sizes
    (GU.scan_free p pad 0 (GU.freeRects p) sizes
       (GU.mkChoice (GU.bestFreeRect c0) (GU.bestRect c0) (GU.bestFlipped c0) MaxInt)).
Proof. apply (GU_scan_free_spec p pad _ [] (GU.freeRects p)); [done|by left]. Qed.

Lemma GU_Reset_inv w h p p' :
  w <= MaxInt -> h <= MaxInt -> GU.Reset w h p = Some p' -> GU_inv p' [].
Proof.
  intros Hw Hh. unfold GU.Reset, base_Reset.
  destruct (Z.leb_spec w 0), (Z.leb_spec h 0); try done. cbn. intros [= <-].
  unfold GU_inv. cbn. repeat split; try done; try lia.
  - repeat constructor; rsimpl; lia.
  - intros [|i] [|j] a b Hij Ha Hb; done.
  - intros F f _ Hf. by apply elem_of_nil in Hf.
Qed.

Lemma GU_reachable_inv p : GU_reachable p -> exists fs, GU_inv p fs.
Proof.
  induction 1 as [w h heur p Hw Hh Hn | w h p p' Hw Hh _ _ Hr | b p _ [fs IH]
                 | pad sizes p c0 p' rest _ [fs IH] Hv c Hne Hc].
  - exists []. exact (GU_Reset_inv w h _ p Hw Hh Hn).
  - exists []. exact (GU_Reset_inv w h p p' Hw Hh Hr).
  - by exists fs.
  - destruct (GU_Insert_commit_spec p fs pad sizes c IH Hv (GU_scan_spec p pad sizes c0) Hne)
      as (p1 & n & Hc1 & _ & Hinv1).
    rewrite Hc in Hc1. injection Hc1 as <- _. by exists (fs ++ [n]).
Qed.

Lemma GU_Insert_loop_reachable fuel pad p sizes c0 :
  GU_reachable p -> Forall (valid_size pad) sizes ->
  (length sizes <= fuel)%nat ->
  exists p' rest, GU.Insert_loop fuel pad p sizes c0 = Some (p', rest) /\ GU_reachable p'.
Proof.
  revert p sizes c0. induction fuel as [|fuel IH]; intros p sizes c0 Hr Hv Hf.
  - destruct sizes; [|cbn in Hf; lia]. cbn. by exists p, [].
  - destruct sizes as [|s sizes]; [by exists p, []|].
    cbn -[GU.scan_free GU.Insert_commit]. 
    set (c := GU.scan_free p pad 0 (GU.freeRects p) (s :: sizes) _).
    destruct (Z.eqb_spec (GU.bestScore c) MaxInt) as [E|E]; [by exists p, (s :: sizes)|].
    destruct (GU_reachable_inv p Hr) as [fs Hinv].
    destruct (GU_Insert_commit_spec p fs pad (s :: sizes) c Hinv Hv
                (GU_scan_spec p pad (s :: sizes) c0) E) as (p1 & n & Hc & Hlt & Hinv1).
    rewrite Hc. cbn [mbind option_bind].
    apply IH.
    + by apply (GU_reach_step pad (s :: sizes) p c0 p1 _ Hr Hv E Hc).
    + by apply Forall_delete.
    + rewrite length_delete by (by apply lookup_lt_is_Some_2). cbn in *. lia.
Qed.

Lemma GU_Insert_reachable pad sizes p p' rest :
  GU_reachable p -> Forall (valid_size pad) sizes ->
  GU.Insert pad sizes p = Some (p', rest) -> GU_reachable p'.
Proof.
  intros Hr Hv Hi.
  destruct (GU_Insert_loop_reachable (length sizes) pad p sizes (GU.mkChoice 0 0 false 0)
              Hr Hv (le_n _)) as (p1 & rest1 & Hl & Hr1).
  unfold GU.Insert in Hi. rewrite Hl in Hi. by injection Hi as <- _.
Qed.

(** ** No overlap *)



Lemma PK_Insert_reachable (p p' : PK.Packer GU.guillotinePack) sizes failed :
  GU_reachable (PK.algo p) -> Forall (valid_size (PK.Padding p)) sizes ->
  PK.Insert sizes p = Some (failed, p') -> GU_reachable (PK.algo p').
Proof.
  intros Hr Hv. unfold PK.Insert. destruct (PK.Online p); [|by intros [= _ <-]].
  intros Hp. apply bind_Some in Hp as ([a f] & Hi & Hp).
  apply (GU_Insert_reachable _ _ _ a f Hr Hv) in Hi. by injection Hp as _ <-.
Qed.

Lemma example_guillotine_reachable : GU_reachable example_guillotine.
Proof.
  assert (GU.newGuillotine 10 10 GuillotineBAF
          = Some (default (GU.mk (mkBase [] 0 0 0 false 0) true 0 GU.scoreBestArea [])
                          (GU.newGuillotine 10 10 GuillotineBAF))) as E0
    by (vm_compute; reflexivity).
  eapply (GU_Insert_reachable 1 [NewSizeID 1 3 4; NewSizeID 2 5 2] _ example_guillotine []).
  - apply (GU_reach_new 10 10 GuillotineBAF); [unfold MaxInt; lia..|exact E0].
  - repeat constructor; vm_compute; discriminate.
  - vm_compute; reflexivity.
Qed.


(** C1, failing run: a 15 x 14 Guillotine packer with padding 2 is given the
    sizes 7 x 9, 1 x 3, 4 x 8 and 9 x 7, all with sides of at least 1.
    [Pack] stores the 1 x 3 as a rectangle of width -3 ([Insert] builds the
    node from the unpadded size and [unpadRect] shrinks it again);
    [RepackAll] hands the sizes of the packed rectangles back to [Insert],
    and the packed list then holds the rectangles (2, 2, 5, 3) and
    (6, 2, 1, 1): [Intersects] is true and their intersection has area 1. *)
Lemma RepackAll_with_padding_overlaps :
  Forall (valid_size 2) (PK.Unpacked example_padded_staged)
  /\ PK.Rects example_padded_staged = []
  /\ PK.Pack PK.insertion_sort example_padded_staged = Some (false, example_padded_packed)
  /\ PK.Rects example_padded_packed
     = [mkRect (mkPoint 2 2) (mkSize 3 5 1) false; mkRect (mkPoint 2 9) (mkSize (-3) 1 2) false;
        mkRect (mkPoint 7 2) (mkSize 2 4 3) false]
  /\ PK.RepackAll PK.insertion_sort example_padded_packed
     = Some (false, example_padded_repacked)
  /\ PK.Rects example_padded_repacked
     = [mkRect (mkPoint 2 2) (mkSize 5 3 4) false; mkRect (mkPoint 9 2) (mkSize (-5) (-3) 2) false;
        mkRect (mkPoint 6 2) (mkSize 1 1 1) false]
  /\ Intersects (mkRect (mkPoint 2 2) (mkSize 5 3 4) false)
                (mkRect (mkPoint 6 2) (mkSize 1 1 1) false) = true
  /\ rArea (Intersect (mkRect (mkPoint 2 2) (mkSize 5 3 4) false)
                      (mkRect (mkPoint 6 2) (mkSize 1 1 1) false)) = 1
  /\ ~ no_overlap (PK.Rects example_padded_repacked).
Proof.
  assert (PK.Rects example_padded_repacked
     = [mkRect (mkPoint 2 2) (mkSize 5 3 4) false; mkRect (mkPoint 9 2) (mkSize (-5) (-3) 2) false;
        mkRect (mkPoint 6 2) (mkSize 1 1 1) false]) as E by (vm_compute; reflexivity).
  split; [repeat constructor; vm_compute; discriminate|].
  split; [vm_compute; reflexivity|].
  split; [apply run_eq; vm_compute; reflexivity|].
  split; [vm_compute; reflexivity|].
  split; [apply run_eq; vm_compute; reflexivity|].
  split; [exact E|].
  split; [vm_compute; reflexivity|].
  split; [vm_compute; reflexivity|].
  intros H. rewrite E in H.
  destruct (H 0%nat 2%nat _ _ ltac:(discriminate) eq_refl eq_refl) as [_ Hi].
  vm_compute in Hi. discriminate.
Qed.

(** * Further properties of the code *)

(** ** Geometry (rect.go) *)

Ltac gsimpl :=
  unfold in_plane, int_rect, IsEmpty, Contains, ContainsRect, Intersects, Intersect, Union,
    Rect_Eq, Point_Eq, Size_Eq, Right, Bottom, Left, Top, NewRect, zeroRect,
    rX, rY, rW, rH, rID, MaxInt in *;
  cbn [X Y Width Height ID rPoint rSize Flipped] in *.

Ltac bsimpl :=
  repeat match goal with
    | H : _ && _ = true |- _ => apply andb_true_iff in H as [? ?]
    | H : _ || _ = false |- _ => apply orb_false_iff in H as [? ?]
    | H : (_ <=? _) = true |- _ => apply Z.leb_le in H
    | H : (_ <=? _) = false |- _ => apply Z.leb_gt in H
    | H : (_ <? _) = true |- _ => apply Z.ltb_lt in H
    | H : (_ <? _) = false |- _ => apply Z.ltb_ge in H
    | H : (_ =? _) = true |- _ => apply Z.eqb_eq in H
    | H : (_ =? _) = false |- _ => apply Z.eqb_neq in H
    end.

(** X1: for two non-empty rectangles of the non-negative quadrant,
    [Intersects] is true exactly when [Intersect] is not empty, and then the
    intersection is contained in both rectangles; [Intersect] and
    [Intersects] do not depend on the order of the two. *)
Theorem Intersects_iff_Intersect_nonempty a b :
  in_plane a -> in_plane b -> IsEmpty a = false -> IsEmpty b = false ->
  Intersects a b = negb (IsEmpty (Intersect a b))
  /\ (Intersects a b = true ->
      ContainsRect a (Intersect a b) = true /\ ContainsRect b (Intersect a b) = true)
  /\ Intersect a b = Intersect b a /\ Intersects a b = Intersects b a.
Proof.
  intros Ha Hb Ea Eb. gsimpl. rewrite !imax_spec, !imin_spec. bsimpl. unwrap.
  split; [|split; [|split]].
  - match goal with |- context [if ?c then _ else _] => destruct c eqn:E end.
    + bsimpl. cbn. unwrap. zcmp; cbn; lia.
    + cbn. zcmp; cbn in *; try done; lia.
  - intros Hi. bsimpl.
    match goal with |- context [if ?c then _ else _] => destruct c eqn:E end;
      [|zcmp; cbn in *; try done; lia].
    bsimpl. cbn. unwrap. zcmp; cbn; lia.
  - rewrite (Z.max_comm (X (rPoint b))), (Z.max_comm (Y (rPoint b))),
      (Z.min_comm (X (rPoint b) + _)), (Z.min_comm (Y (rPoint b) + _)). done.
  - zcmp; cbn; try done; lia.
Qed.

Lemma Intersects_iff_Intersect_nonempty_witness :
  Intersects (NewRect 0 0 4 4) (NewRect 2 1 5 2) = true
  /\ Intersect (NewRect 0 0 4 4) (NewRect 2 1 5 2) = NewRect 2 1 2 2
  /\ Intersects (NewRect 0 0 4 4) (NewRect 2 1 5 2)
     = negb (IsEmpty (Intersect (NewRect 0 0 4 4) (NewRect 2 1 5 2))).
Proof.
  split; [reflexivity|]. split; [reflexivity|].
  apply (Intersects_iff_Intersect_nonempty (NewRect 0 0 4 4) (NewRect 2 1 5 2));
    first [reflexivity | (unfold in_plane, MaxInt; cbn; lia)].
Defined.

(** X2: for rectangles of the non-negative quadrant, [Union] contains both
    of its arguments and is contained in every rectangle that contains
    both. *)
Theorem Union_least_container a b :
  in_plane a -> in_plane b ->
  ContainsRect (Union a b) a = true /\ ContainsRect (Union a b) b = true
  /\ (forall c, in_plane c -> ContainsRect c a = true -> ContainsRect c b = true ->
        ContainsRect c (Union a b) = true).
Proof.
  intros Ha Hb. gsimpl. rewrite !imax_spec, !imin_spec. unwrap.
  split; [|split].
  - rewrite !andb_true_iff, !Z.leb_le. repeat split; lia.
  - rewrite !andb_true_iff, !Z.leb_le. repeat split; lia.
  - intros c Hc Ca Cb. gsimpl. unwrap. bsimpl.
    rewrite !andb_true_iff, !Z.leb_le. repeat split; lia.
Qed.

Lemma Union_least_container_witness :
  Union (NewRect 0 0 4 4) (NewRect 2 1 5 2) = NewRect 0 0 7 4
  /\ ContainsRect (Union (NewRect 0 0 4 4) (NewRect 2 1 5 2)) (NewRect 0 0 4 4) = true.
Proof.
  split; [reflexivity|].
  refine (proj1 (Union_least_container (NewRect 0 0 4 4) (NewRect 2 1 5 2) _ _));
    unfold in_plane, MaxInt; cbn; lia.
Defined.

Lemma wrap_mul_wrap k z : wrap (k * wrap z) = wrap (k * z).
Proof.
  unfold wrap. f_equal.
  replace (k * ((z + 9223372036854775808) `mod` 18446744073709551616 - 9223372036854775808)
           + 9223372036854775808)
    with (k * ((z + 9223372036854775808) `mod` 18446744073709551616)
          + (9223372036854775808 - k * 9223372036854775808)) by lia.
  rewrite <- Zplus_mod_idemp_l, Zmult_mod_idemp_r, Zplus_mod_idemp_l.
  f_equal. lia.
Qed.

Lemma wrap_add_mul_wrap c k z : wrap (c + k * wrap z) = wrap (c + k * z).
Proof. by rewrite <- wrap_add_wrap, wrap_mul_wrap, wrap_add_wrap. Qed.

Lemma wrap_sub_wrap_l a b : wrap (wrap a - b) = wrap (a - b).
Proof.
  replace (wrap a - b) with (- b + wrap a) by lia.
  rewrite wrap_add_wrap. f_equal. lia.
Qed.

(** X3: [Inflate] by [(w, h)] followed by [Inflate] by [(-w, -h)] gives the
    rectangle back, overflow or not; and [Inflate] keeps the [Center] when
    the new width and height are [int]s. *)
Theorem Inflate_round_trip r w h :
  int_rect r ->
  Inflate (Inflate r w h) (neg w) (neg h) = r
  /\ (in_int (rW r + 2 * w) -> in_int (rH r + 2 * h) ->
      Center (Inflate r w h) = Center r).
Proof.
  intros (Hx & Hy & Hw & Hh). split.
  - unfold Inflate, neg. rsimpl. destruct r as [[x y] [rw rh i] f]. cbn in *.
    rewrite !Z.shiftl_mul_pow2 by lia. change (2 ^ 1) with 2.
    unfold add, sub.
    assert (wrap (wrap (x - w) - wrap (- w)) = x) as ->.
    { rewrite wrap_wrap_sub, wrap_sub_wrap_l.
      replace (x - w - - w) with x by lia. by apply wrap_small. }
    assert (wrap (wrap (y - h) - wrap (- h)) = y) as ->.
    { rewrite wrap_wrap_sub, wrap_sub_wrap_l.
      replace (y - h - - h) with y by lia. by apply wrap_small. }
    assert (forall a d, in_int a ->
              wrap (wrap (a + wrap (d * 2)) + wrap (wrap (- d) * 2)) = a) as Hs.
    { intros a d Ha. rewrite wrap_add_wrap, (Z.add_comm (wrap (a + _))), wrap_add_wrap.
      replace (wrap (- d) * 2 + (a + wrap (d * 2)))
        with (wrap (- d) * 2 + a + wrap (d * 2)) by lia.
      rewrite wrap_add_wrap.
      replace (wrap (- d) * 2 + a + d * 2) with (a + d * 2 + 2 * wrap (- d)) by lia.
      rewrite wrap_add_mul_wrap.
      replace (a + d * 2 + 2 * - d) with a by lia. by apply wrap_small. }
    by rewrite !Hs.
  - intros Hw' Hh'. unfold Inflate, Center. rsimpl.
    rewrite !Z.shiftl_mul_pow2, !Z.shiftr_div_pow2 by lia. change (2 ^ 1) with 2.
    unfold add, sub.
    assert (forall a d, in_int (a + 2 * d) -> wrap (a + wrap (d * 2)) = a + 2 * d) as Hs.
    { intros a d Ha. rewrite wrap_add_wrap. replace (a + d * 2) with (a + 2 * d) by lia.
      by apply wrap_small. }
    rewrite !Hs by done.
    assert (forall a d, (a + 2 * d) `div` 2 = a `div` 2 + d) as Hd.
    { intros a d. replace (a + 2 * d) with (a + d * 2) by lia. by apply Z.div_add. }
    rewrite !Hd. f_equal.
    + rewrite (Z.add_comm (wrap _)), wrap_add_wrap. f_equal. lia.
    + rewrite (Z.add_comm (wrap _)), wrap_add_wrap. f_equal. lia.
Qed.

Lemma Inflate_round_trip_witness :
  Inflate (NewRect 5 5 10 7) 2 3 = NewRect 3 2 14 13
  /\ Inflate (Inflate (NewRect 5 5 10 7) 2 3) (neg 2) (neg 3) = NewRect 5 5 10 7.
Proof.
  split; [reflexivity|].
  apply (Inflate_round_trip (NewRect 5 5 10 7) 2 3).
  unfold int_rect, in_int, MinInt, MaxInt. cbn. lia.
Defined.

(** X4: on rectangles of the non-negative quadrant [ContainsRect] is
    reflexive and transitive, two rectangles that contain each other are
    [Eq], and a point that [Contains] finds in a rectangle is in every
    rectangle that contains it. *)
Theorem ContainsRect_order a b c :
  in_plane a -> in_plane b -> in_plane c ->
  ContainsRect a a = true
  /\ (ContainsRect a b = true -> ContainsRect b c = true -> ContainsRect a c = true)
  /\ (ContainsRect a b = true -> ContainsRect b a = true -> Rect_Eq a b = true)
  /\ (forall x y, ContainsRect a b = true -> Contains b x y = true -> Contains a x y = true).
Proof.
  intros Ha Hb Hc. gsimpl. unwrap.
  split; [|split; [|split]].
  - rewrite !andb_true_iff, !Z.leb_le. repeat split; lia.
  - intros H1 H2. bsimpl. rewrite !andb_true_iff, !Z.leb_le. repeat split; lia.
  - intros H1 H2. bsimpl. rewrite !andb_true_iff, !Z.eqb_eq. repeat split; lia.
  - intros x y H1 H2. bsimpl. rewrite !andb_true_iff, !Z.leb_le, !Z.ltb_lt. repeat split; lia.
Qed.

Lemma ContainsRect_order_witness :
  ContainsRect (NewRect 0 0 9 9) (NewRect 1 1 5 5) = true
  /\ ContainsRect (NewRect 1 1 5 5) (NewRect 2 3 1 1) = true
  /\ ContainsRect (NewRect 0 0 9 9) (NewRect 2 3 1 1) = true.
Proof.
  split; [reflexivity|]. split; [reflexivity|].
  refine (proj1 (proj2 (ContainsRect_order (NewRect 0 0 9 9) (NewRect 1 1 5 5)
                          (NewRect 2 3 1 1) _ _ _)) _ _);
    first [reflexivity | (unfold in_plane, MaxInt; cbn; lia)].
Defined.

(** X5: the rectangle [NewRectLTRB l t r b] has the left edge [l], the right
    edge [r], the width [r - l] and the height [b - t]; its top edge is [r],
    not [t], and its bottom edge [r + (b - t)]. *)
Theorem NewRectLTRB_edges l t r b :
  0 <= l <= r -> 0 <= t <= b -> r + (b - t) <= MaxInt ->
  let n := NewRectLTRB l t r b in
  Left n = l /\ Right n = r /\ rW n = r - l /\ rH n = b - t
  /\ Top n = r /\ Bottom n = r + (b - t).
Proof.
  intros Hl Ht Hr. unfold NewRectLTRB, Left, Top, Right, Bottom, MaxInt in *.
  rsimpl. unwrap. repeat split; lia.
Qed.

Lemma NewRectLTRB_edges_witness :
  let n := NewRectLTRB 1 2 6 10 in
  Left n = 1 /\ Right n = 6 /\ rW n = 6 - 1 /\ rH n = 10 - 2
  /\ Top n = 6 /\ Bottom n = 6 + (10 - 2).
Proof. apply (NewRectLTRB_edges 1 2 6 10); unfold MaxInt; lia. Defined.

(** ** Comparators (sort.go) *)

Lemma cmp_Compare_spec a b :
  (cmp_Compare a b < 0 <-> a < b) /\ (cmp_Compare a b = 0 <-> a = b)
  /\ cmp_Compare a b = - cmp_Compare b a.
Proof. unfold cmp_Compare. zcmp; lia. Qed.

(** X6: each of the five integer comparators puts the size with the greater
    key first (area, perimeter, difference of the sides, shorter side,
    longer side, as the code computes them), calls two sizes equal exactly
    when their keys are equal, and is antisymmetric; so it is the strict
    weak order that sorting needs. *)
Theorem comparators_descending f key a b :
  (f, key) ∈ [(SortArea, Area); (SortPerimeter, Perimeter);
              (SortDiff, fun s => abs (Width s ⊟ Height s));
              (SortMinSide, MinSide); (SortMaxSide, MaxSide)] ->
  (f a b < 0 <-> key b < key a) /\ (f a b = 0 <-> key a = key b)
  /\ f a b = - f b a
  /\ (forall c, f a b <= 0 -> f b c <= 0 -> f a c <= 0).
Proof.
  intros Hf.
  assert (forall x y, f x y = cmp_Compare (key y) (key x)) as E.
  { repeat (apply elem_of_cons in Hf as [[= -> ->]|Hf]); try done.
    by apply elem_of_nil in Hf. }
  rewrite !E.
  destruct (cmp_Compare_spec (key b) (key a)) as (H1 & H2 & H3).
  split; [done|]. split; [rewrite H2; split; congruence|]. split; [done|].
  intros c. rewrite !E. unfold cmp_Compare. zcmp; lia.
Qed.

Lemma comparators_descending_witness :
  SortArea (NewSize 2 3) (NewSize 4 5) = 1
  /\ (SortArea (NewSize 4 5) (NewSize 2 3) < 0 <-> Area (NewSize 2 3) < Area (NewSize 4 5)).
Proof.
  split; [reflexivity|].
  refine (proj1 (comparators_descending SortArea Area (NewSize 4 5) (NewSize 2 3) _)).
  by left.
Defined.

(** ** Heuristics (heuristic.go) and the constructors *)

(** X7: [Algorithm], [Bin] and [Split] give back the three parts a
    heuristic was or'ed together from, and or'ing the three parts of a
    heuristic gives back its low twelve bits. *)
Theorem Heuristic_parts_round_trip x y z :
  let h := Z.lor (Z.lor (Algorithm x) (Bin y)) (Split z) in
  Algorithm h = Algorithm x /\ Bin h = Bin y /\ Split h = Split z
  /\ Z.lor (Z.lor (Algorithm x) (Bin x)) (Split x) = Z.land x 0x0FFF.
Proof.
  cbv zeta. unfold Algorithm, Bin, Split.
  repeat split.
  - rewrite !Z.land_lor_distr_l, <- !Z.land_assoc.
    change (Z.land typeMask typeMask) with typeMask.
    change (Z.land fitMask typeMask) with 0. change (Z.land splitMask typeMask) with 0.
    by rewrite !Z.land_0_r, !Z.lor_0_r.
  - rewrite !Z.land_lor_distr_l, <- !Z.land_assoc.
    change (Z.land typeMask fitMask) with 0.
    change (Z.land fitMask fitMask) with fitMask. change (Z.land splitMask fitMask) with 0.
    by rewrite !Z.land_0_r, !Z.lor_0_r, Z.lor_0_l.
  - rewrite !Z.land_lor_distr_l, <- !Z.land_assoc.
    change (Z.land typeMask splitMask) with 0.
    change (Z.land fitMask splitMask) with 0.
    change (Z.land splitMask splitMask) with splitMask.
    by rewrite !Z.land_0_r, !Z.lor_0_l.
  - by rewrite <- !Z.land_lor_distr_r.
Qed.

Lemma base_Reset_Some w h b :
  0 < w -> 0 < h -> base_Reset w h b = Some (mkBase [] w h 0 (allowFlip b) (padding b)).
Proof. intros. unfold base_Reset. zcmp; try lia. done. Qed.

(** X8: the constructor switch of [NewPacker] panics exactly when the width
    or the height is not positive or [Validate] reports an invalid
    algorithm type; otherwise it returns an engine in a reachable state,
    with nothing packed and the given maximum size. *)
Theorem newEngine_panics_iff w h heur :
  w <= MaxInt -> h <= MaxInt ->
  (newEngine w h heur = None <-> w <= 0 \/ h <= 0 \/ Validate heur = Some algoErr)
  /\ (forall e, newEngine w h heur = Some e ->
        reachable e /\ engine_Rects e = []
        /\ maxWidth (engine_base e) = w /\ maxHeight (engine_base e) = h).
Proof.
  intros Hw Hh.
  assert (Validate heur = Some algoErr <->
          (Z.land heur typeMask <> MaxRects /\ Z.land heur typeMask <> Skyline
           /\ Z.land heur typeMask <> Guillotine)) as Hv.
  { unfold Validate. cbv zeta.
    destruct (Z.eqb_spec (Z.land heur typeMask) MaxRects) as [E1|E1].
    { split; [|intros (? & _); done].
      destruct (negb _); [done|]. by destruct (one_of _ _). }
    destruct (Z.eqb_spec (Z.land heur typeMask) Skyline) as [E2|E2].
    { split; [|intros (_ & ? & _); done].
      destruct (negb _); [done|]. by destruct (one_of _ _). }
    destruct (Z.eqb_spec (Z.land heur typeMask) Guillotine) as [E3|E3].
    { split; [|intros (_ & _ & ?); done].
      destruct (one_of _ _); [|done]. by destruct (one_of _ _). }
    done. }
  split.
  - rewrite Hv. unfold newEngine, MR.newMaxRects, SK.newSkyline, GU.newGuillotine,
      MR.Reset, SK.Reset, GU.Reset. cbv zeta.
    destruct (decide (0 < w /\ 0 < h)) as [[? ?]|Hn].
    + destruct (Z.eqb_spec (Z.land heur typeMask) MaxRects).
      { rewrite base_Reset_Some by done. cbn. split; [done|]. intros [?|[?|(? & _)]]; done || lia. }
      destruct (Z.eqb_spec (Z.land heur typeMask) Skyline).
      { destruct (_ =? MinWaste); cbn; repeat (rewrite base_Reset_Some by done; cbn);
          (split; [done|]); intros [?|[?|(_ & ? & _)]]; done || lia. }
      destruct (Z.eqb_spec (Z.land heur typeMask) Guillotine).
      { rewrite base_Reset_Some by done. cbn. split; [done|].
        intros [?|[?|(_ & _ & ?)]]; done || lia. }
      split; [intros _|done]. by right; right.
    + assert (forall b, base_Reset w h b = None) as En.
      { intros b. apply base_Reset_panics. lia. }
      split; [intros _; lia|intros _].
      destruct (_ =? MaxRects); [by rewrite En|].
      destruct (_ =? Skyline); [destruct (_ =? MinWaste); cbn; by rewrite !En|].
      destruct (_ =? Guillotine); [by rewrite En|done].
  - intros e. unfold newEngine. cbv zeta.
    destruct (_ =? MaxRects).
    { intros He. apply fmap_Some in He as (p & Hp & ->). cbn.
      split; [by apply (MR_reach_new w h heur)|].
      unfold MR.newMaxRects, MR.Reset, base_Reset in Hp.
      destruct (_ || _); [done|]. cbn in Hp. by injection Hp as <-. }
    destruct (_ =? Skyline).
    { intros He. apply fmap_Some in He as (p & Hp & ->). cbn.
      split; [by apply (SK_reach_new w h heur)|].
      unfold SK.newSkyline, SK.Reset, GU.newGuillotine, GU.Reset, base_Reset in Hp.
      cbv zeta in Hp. destruct (_ || _); [by destruct (_ =? MinWaste)|].
      destruct (_ =? MinWaste); cbn in Hp; by injection Hp as <-. }
    destruct (_ =? Guillotine); [|done].
    intros He. apply fmap_Some in He as (p & Hp & ->). cbn.
    split; [by apply (GU_reach_new w h heur)|].
    unfold GU.newGuillotine, GU.Reset, base_Reset in Hp.
    destruct (_ || _); [done|]. cbn in Hp. by injection Hp as <-.
Qed.

Lemma newEngine_panics_iff_witness :
  newEngine 10 10 0x0003 = None
  /\ (newEngine 10 10 0x0003 = None <->
      10 <= 0 \/ 10 <= 0 \/ Validate 0x0003 = Some algoErr).
Proof.
  split; [reflexivity|].
  refine (proj1 (newEngine_panics_iff 10 10 0x0003 _ _)); unfold MaxInt; lia.
Defined.

(** X9: a heuristic that [Validate] rejects with the bin error builds the
    same engine as the default preset of its algorithm ([MaxRectsBSSF] or
    [SkylineBLF]); and the MaxRects and Skyline constructors ignore the
    split bits. *)
Theorem newEngine_falls_back_to_default w h heur :
  (Validate heur = Some binErr ->
   newEngine w h heur
   = newEngine w h (if Algorithm heur =? MaxRects then MaxRectsBSSF else SkylineBLF))
  /\ (Algorithm heur = MaxRects \/ Algorithm heur = Skyline ->
      newEngine w h heur = newEngine w h (Z.lor (Algorithm heur) (Bin heur))).
Proof.
  unfold Algorithm, Bin. split.
  - unfold Validate. cbv zeta. unfold newEngine. cbv zeta.
    destruct (Z.eqb_spec (Z.land heur typeMask) MaxRects) as [E1|E1].
    { destruct (negb _); [done|]. destruct (one_of _ _) eqn:Eo; [done|]. intros _.
      change (Z.land MaxRectsBSSF typeMask =? MaxRects) with true. cbn [fmap].
      unfold MR.newMaxRects. f_equal. f_equal. f_equal.
      unfold MR.select_findNode. cbv zeta. unfold one_of in Eo. cbn in Eo.
      repeat (apply orb_false_iff in Eo as [?%Z.eqb_neq Eo]).
      zcmp; try done. }
    destruct (Z.eqb_spec (Z.land heur typeMask) Skyline) as [E2|E2].
    { destruct (negb _); [done|]. destruct (one_of _ _) eqn:Eo; [done|]. intros _.
      change (Z.land SkylineBLF typeMask =? MaxRects) with false.
      change (Z.land SkylineBLF typeMask =? Skyline) with true. cbn match.
      unfold SK.newSkyline. cbv zeta. unfold one_of in Eo. cbn in Eo.
      repeat (apply orb_false_iff in Eo as [?%Z.eqb_neq Eo]).
      destruct (Z.eqb_spec (Z.land heur fitMask) MinWaste); [done|].
      by change (Z.land SkylineBLF fitMask =? MinWaste) with false. }
    destruct (Z.eqb_spec (Z.land heur typeMask) Guillotine) as [E3|E3]; [|done].
    destruct (one_of _ _); [|done]. by destruct (one_of _ _).
  - assert (Z.land (Z.lor (Z.land heur typeMask) (Z.land heur fitMask)) typeMask
            = Z.land heur typeMask) as Et.
    { rewrite Z.land_lor_distr_l, <- !Z.land_assoc.
      change (Z.land typeMask typeMask) with typeMask.
      change (Z.land fitMask typeMask) with 0. by rewrite Z.land_0_r, Z.lor_0_r. }
    assert (Z.land (Z.lor (Z.land heur typeMask) (Z.land heur fitMask)) fitMask
            = Z.land heur fitMask) as Ef.
    { rewrite Z.land_lor_distr_l, <- !Z.land_assoc.
      change (Z.land typeMask fitMask) with 0.
      change (Z.land fitMask fitMask) with fitMask. by rewrite Z.land_0_r, Z.lor_0_l. }
    unfold newEngine, MR.newMaxRects, MR.select_findNode, SK.newSkyline. cbv zeta.
    rewrite Et, !Ef. intros [E|E]; rewrite E; reflexivity.
Qed.

Lemma newEngine_falls_back_to_default_witness :
  Validate 0x0050 = Some binErr
  /\ newEngine 10 10 0x0050 = newEngine 10 10 MaxRectsBSSF.
Proof.
  split; [reflexivity|].
  refine (proj1 (newEngine_falls_back_to_default 10 10 0x0050) _). reflexivity.
Defined.

(** ** Padding (algorithm.go) *)

(** X10: for a rectangle that touches neither the left nor the top edge of
    the bin, [unpadRect] undoes [padSize]: a rectangle of the padded size
    gets back the width, the height and the ID of the size, and keeps its
    position. *)
Theorem unpadRect_padSize_round_trip s pad r :
  valid_size pad s -> rX r <> 0 -> rY r <> 0 -> rSize r = padSize s pad ->
  rSize (unpadRect r pad) = s /\ rPoint (unpadRect r pad) = rPoint r.
Proof.
  unfold valid_size, padSize, unpadRect, MaxInt. intros (Hw & Hh & Hpw & Hph) Hx Hy Hs.
  destruct (Z.leb_spec pad 0); [done|].
  destruct (Z.eqb_spec (rX r) 0) as [?|_]; [done|].
  match goal with |- context [if ?a =? 0 then _ else _] =>
    destruct (Z.eqb_spec a 0) as [E|_] end.
  { rsimpl. done. }
  destruct r as [pt sz f], s as [w0 h0 i]. rsimpl. subst sz. cbn. split; [|done].
  f_equal; unwrap; lia.
Qed.

Lemma unpadRect_padSize_round_trip_witness :
  unpadRect (mkRect (mkPoint 5 7) (padSize (NewSizeID 9 3 4) 2) false) 2
  = mkRect (mkPoint 5 7) (NewSizeID 9 3 4) false
  /\ rSize (unpadRect (mkRect (mkPoint 5 7) (padSize (NewSizeID 9 3 4) 2) false) 2)
     = NewSizeID 9 3 4.
Proof.
  split; [reflexivity|].
  refine (proj1 (unpadRect_padSize_round_trip (NewSizeID 9 3 4) 2
                   (mkRect (mkPoint 5 7) (padSize (NewSizeID 9 3 4) 2) false) _ _ _ _));
    first [reflexivity | discriminate | (unfold valid_size, MaxInt; cbn; lia)].
Defined.

(** ** [Insert]: what becomes of the sizes *)

Lemma insert_delete_Permutation {A} (l : list A) i x y :
  l !! i = Some x -> <[i := y]> l ≡ₚ y :: delete i l.
Proof.
  revert i. induction l as [|a l IH]; intros [|i] Hx; try done; cbn in *.
  rewrite (IH i Hx). apply Permutation_swap.
Qed.

Lemma swap_remove_Permutation {A} (l : list A) i x :
  l !! i = Some x -> l ≡ₚ x :: swap_remove i l.
Proof.
  intros Hx. pose proof (lookup_lt_Some _ _ _ Hx) as Hi.
  destruct (decide (l = [])) as [->|Hne]; [done|].
  destruct (exists_last Hne) as (l' & y & ->).
  unfold swap_remove. rewrite last_snoc, length_app. cbn.
  replace (pred (length l' + 1)) with (length l') by lia.
  rewrite length_app in Hi. cbn in Hi.
  destruct (decide (i = length l')) as [->|Hil].
  - rewrite insert_app_r_alt by lia. rewrite Nat.sub_diag. cbn.
    rewrite take_app_length. rewrite list_lookup_middle in Hx by done.
    injection Hx as <-. by rewrite Permutation_app_comm.
  - rewrite insert_app_l by lia.
    rewrite lookup_app_l in Hx by lia.
    replace (length l') with (length (<[i := y]> l')) by apply length_insert.
    rewrite take_app_length.
    rewrite (insert_delete_Permutation l' i x y Hx).
    rewrite (delete_Permutation l' i x Hx) at 1.
    rewrite Permutation_app_comm. cbn. apply Permutation_swap.
Qed.

Lemma rID_unpadRect r pad : rID (unpadRect r pad) = rID r.
Proof.
  unfold unpadRect. destruct (_ <=? _); [done|].
  destruct (rX r =? 0); match goal with |- context [if ?a =? 0 then _ else _] =>
    destruct (a =? 0) end; done.
Qed.

Lemma MR_insertNew_loop_base fuel N i p p' :
  MR.insertNew_loop fuel N i p = Some p' -> MR.base p' = MR.base p.
Proof.
  revert i p. induction fuel as [|fuel IH]; intros i p; cbn [MR.insertNew_loop].
  - destruct (bool_decide _); [done|]. by intros [= <-].
  - destruct (bool_decide _); [|by intros [= <-]].
    intros H. apply bind_Some in H as (cur & _ & H).
    destruct (ContainsRect cur N); [by injection H as <-|].
    destruct (ContainsRect N cur); [|by apply IH in H].
    cbv zeta in H. apply bind_Some in H as (a & _ & H).
    apply bind_Some in H as (b & _ & H). by apply IH in H.
Qed.

Ltac case_if H :=
  match type of H with context [if ?c then _ else _] => destruct c end.

Lemma MR_splitFreeNode_base F U p b p' :
  MR.splitFreeNode F U p = Some (b, p') -> MR.base p' = MR.base p.
Proof.
  unfold MR.splitFreeNode, MR.insertNewFreeRectangle.
  destruct (_ || _); [by intros [= _ <-]|]. cbv zeta. intros H.
  apply bind_Some in H as (p1 & H1 & H). apply bind_Some in H as (p2 & H2 & H).
  injection H as _ <-.
  assert (forall c1 c2 c3 N1 N2 (q0 q1 : MR.maxRects),
            (if c1 : bool
             then q ← (if c2 : bool then MR.insertNew_loop (MR.newLastSize q0) N1 0 q0
                       else Some q0);
                  if c3 : bool then MR.insertNew_loop (MR.newLastSize q) N2 0 q else Some q
             else Some q0) = Some q1 -> MR.base q1 = MR.base q0) as Hstep.
  { intros c1 c2 c3 N1 N2 q0 q1 Hq. destruct c1; [|by injection Hq as <-].
    apply bind_Some in Hq as (q & Hq0 & Hq).
    assert (MR.base q = MR.base q0) as Eq.
    { destruct c2; [|by injection Hq0 as <-]. by apply MR_insertNew_loop_base in Hq0. }
    destruct c3; [|by injection Hq as <-].
    apply MR_insertNew_loop_base in Hq. by rewrite Hq. }
  apply Hstep in H1, H2. by rewrite H2, H1.
Qed.

Lemma MR_placeRect_loop_base fuel node i p p' :
  MR.placeRect_loop fuel node i p = Some p' -> MR.base p' = MR.base p.
Proof.
  revert i p. induction fuel as [|fuel IH]; intros i p; cbn [MR.placeRect_loop].
  - destruct (_ !! _); [done|]. by intros [= <-].
  - destruct (_ !! _) as [F|]; [|by intros [= <-]].
    intros H. apply bind_Some in H as ([b q] & Hs & H).
    apply MR_splitFreeNode_base in Hs. destruct b; apply IH in H; by rewrite H.
Qed.

Lemma MR_placeRect_base node p p' :
  MR.placeRect node p = Some p' ->
  MR.base p' = set_usedArea (usedArea (MR.base p) ⊞ rArea node) (MR.base p).
Proof.
  unfold MR.placeRect, MR.pruneFreeList. intros H.
  apply bind_Some in H as (p1 & H1 & H). apply bind_Some in H as (p2 & H2 & H).
  apply bind_Some in H2 as (new & _ & H2). injection H2 as <-. injection H as <-.
  apply MR_placeRect_loop_base in H1. cbn. by rewrite H1.
Qed.

Lemma MR_Insert_scan_ID p sizes0 pre sizes best :
  sizes0 = pre ++ sizes ->
  (best.2 = -1 \/ exists s, 0 <= best.2 /\ sizes0 !! Z.to_nat best.2 = Some s
                            /\ rID best.1.1.1 = ID s) ->
  let best' := MR.Insert_scan p (Z.of_nat (length pre)) sizes best in
  best'.2 = -1 \/ exists s, 0 <= best'.2 /\ sizes0 !! Z.to_nat best'.2 = Some s
                            /\ rID best'.1.1.1 = ID s.
Proof.
  revert pre best. induction sizes as [|s sizes IH]; intros pre best E Hb; cbn; [done|].
  destruct best as [[[bn b1] b2] index].
  destruct (MR.scoreRect _ _ _) as [[n s1] s2].
  replace (Z.of_nat (length pre) + 1) with (Z.of_nat (length (pre ++ [s])))
    by (rewrite length_app; cbn; lia).
  apply IH; [by rewrite <- app_assoc|].
  destruct (_ || _); [|done]. right. exists s. cbn. split; [lia|]. split.
  - rewrite Nat2Z.id, E. by apply list_lookup_middle.
  - unfold padSize. by destruct (_ <=? _).
Qed.

Lemma moved_refl packed sizes : moved packed packed sizes sizes.
Proof. exists [], []. by rewrite app_nil_r. Qed.

Lemma moved_step packed r packed' s sizes sizes1 rest :
  rID r = ID s -> sizes ≡ₚ s :: sizes1 ->
  moved (packed ++ [r]) packed' sizes1 rest -> moved packed packed' sizes rest.
Proof.
  intros Hr Hs (new & chosen & -> & Hp & Hi).
  exists (r :: new), (s :: chosen). split; [by rewrite <- app_assoc|]. split.
  - rewrite Hs. cbn. by rewrite Hp.
  - cbn. by rewrite Hr, Hi.
Qed.

Lemma MR_Insert_loop_moved fuel p sizes p' rest :
  MR.Insert_loop fuel p sizes = Some (p', rest) ->
  moved (MR.Rects p) (MR.Rects p') sizes rest.
Proof.
  revert p sizes. induction fuel as [|fuel IH]; intros p sizes;
    (destruct sizes as [|s0 sizes]; [cbn; intros [= <- <-]; apply moved_refl|]);
    cbn -[MR.Insert_scan MR.Insert_commit];
    pose proof (MR_Insert_scan_ID p (s0 :: sizes) [] (s0 :: sizes)
                  (zeroRect, MaxInt, MaxInt, -1) eq_refl (or_introl eq_refl)) as Hid;
    cbv zeta in Hid; change (Z.of_nat (length (@nil Size))) with 0 in Hid;
    destruct (MR.Insert_scan _ _ _ _) as [[[bn s1] s2] index]; cbn in Hid;
    (destruct (Z.eqb_spec index (-1)); [intros [= <- <-]; apply moved_refl|]);
    [done|].
  destruct Hid as [?|(s & Hi & Hs & Hid)]; [done|].
  intros H. apply bind_Some in H as ([p1 sizes1] & Hc & H). apply IH in H.
  unfold MR.Insert_commit in Hc.
  apply bind_Some in Hc as (q & Hq & Hc). cbv zeta in Hc.
  apply bind_Some in Hc as (x & _ & Hc). injection Hc as <- <-.
  apply MR_placeRect_base in Hq.
  eapply (moved_step _ (unpadRect bn (padding (MR.base q))) _ s); [| |].
  - by rewrite rID_unpadRect.
  - by apply swap_remove_Permutation.
  - unfold MR.Rects in *. cbn in H. rewrite Hq in H |- *. exact H.
Qed.

Lemma SK_addLevel_base index rect p p' :
  SK.addLevel index rect p = Some p' -> SK.base p' = SK.base p.
Proof.
  unfold SK.addLevel, SK.addWaste, SK.mergeSkylines. intros H.
  apply bind_Some in H as (p1 & H1 & H). cbv zeta in H.
  apply bind_Some in H as (l & _ & H). apply bind_Some in H as (l1 & _ & H).
  apply bind_Some in H as (l2 & _ & H). injection H as <-. cbn.
  destruct (SK.wasteMap p) as [g0|]; [|by injection H1 as <-].
  apply bind_Some in H1 as (s & _ & H1). apply bind_Some in H1 as (g & _ & H1).
  by injection H1 as <-.
Qed.

Lemma SK_Insert_loop_moved fuel p sizes p' rest :
  SK.Insert_loop fuel p sizes = Some (p', rest) ->
  moved (SK.Rects p) (SK.Rects p') sizes rest.
Proof.
  revert p sizes. induction fuel as [|fuel IH]; intros p sizes;
    (destruct sizes as [|s0 sizes]; [cbn; intros [= <- <-]; apply moved_refl|]);
    cbn -[SK.Insert_scan SK.Insert_commit]; intros H;
    apply bind_Some in H as ([[[[bn s1] s2] bin] index] & _ & H);
    (destruct (Z.eqb_spec index (-1)); [injection H as <- <-; apply moved_refl|]);
    [done|].
  apply bind_Some in H as ([p1 sizes1] & Hc & H). apply IH in H.
  unfold SK.Insert_commit in Hc.
  apply bind_Some in Hc as (q & Hq & Hc). cbv zeta in Hc.
  apply bind_Some in Hc as (s & Hs & Hc).
  apply bind_Some in Hc as (l & Hl & Hc). injection Hc as <- <-.
  apply SK_addLevel_base in Hq.
  unfold slices_Delete, idx in Hs, Hl. destruct (_ <? 0); [done|].
  rewrite Hs in Hl. cbn in Hl. injection Hl as <-.
  eapply (moved_step _ _ _ s); [| |].
  2: by apply delete_Permutation.
  2: { unfold SK.Rects in *. cbn in H. rewrite Hq in H. exact H. }
  done.
Qed.

Lemma GU_Insert_loop_moved fuel pad p sizes c p' rest :
  GU.Insert_loop fuel pad p sizes c = Some (p', rest) ->
  moved (GU.Rects p) (GU.Rects p') sizes rest.
Proof.
  revert p sizes c. induction fuel as [|fuel IH]; intros p sizes c;
    (destruct sizes as [|s0 sizes]; [cbn; intros [= <- <-]; apply moved_refl|]);
    cbn -[GU.scan_free GU.Insert_commit];
    (destruct (_ =? MaxInt); [intros [= <- <-]; apply moved_refl|]);
    [done|].
  intros H. apply bind_Some in H as ([p1 sizes1] & Hc & H). apply IH in H.
  unfold GU.Insert_commit in Hc.
  apply bind_Some in Hc as (F & _ & Hc). apply bind_Some in Hc as (s & Hs & Hc).
  cbv zeta in Hc.
  apply bind_Some in Hc as (l & _ & Hc). apply bind_Some in Hc as (sizes2 & Hd & Hc).
  apply bind_Some in Hc as (q & Hq & Hc). injection Hc as <- <-.
  assert (GU.base q = GU.base p) as Eb.
  { destruct (GU.Merge _).
    - apply GU_mergeFreeList_base in Hq. rewrite Hq. cbn. apply GU_splitByHeuristic_base.
    - injection Hq as <-. cbn. apply GU_splitByHeuristic_base. }
  unfold slices_Delete, idx in Hs, Hd. destruct (_ <? 0); [done|].
  rewrite Hs in Hd. cbn in Hd. injection Hd as <-.
  eapply (moved_step _ _ _ s); [| |].
  2: by apply delete_Permutation.
  2: { unfold GU.Rects in *. cbn in H. rewrite Eb in H. exact H. }
  rewrite rID_unpadRect.
  match goal with |- context [if ?b then _ else _] => destruct b end; reflexivity.
Qed.

(** X11: whenever [Insert] of one of the three engines returns, the packed
    list has only grown at its end, and every input size is either among
    the returned ones or has its ID on one of the new rectangles: the new
    rectangles are, ID by ID, the sizes that with the returned ones make up
    the input. *)
Theorem Insert_packs_or_returns_every_size pad sizes e e' rest :
  engine_Insert pad sizes e = Some (e', rest) ->
  exists new chosen,
    engine_Rects e' = engine_Rects e ++ new /\
    sizes ≡ₚ chosen ++ rest /\
    rID <$> new = ID <$> chosen.
Proof.
  destruct e as [p|p|p]; cbn; intros H; apply fmap_Some in H as ([p' r] & H & [= -> ->]).
  - by apply MR_Insert_loop_moved in H.
  - by apply SK_Insert_loop_moved in H.
  - by apply GU_Insert_loop_moved in H.
Qed.

Lemma Insert_packs_or_returns_every_size_witness :
  exists e' new chosen,
    engine_Insert 0 [NewSizeID 3 8 8; NewSizeID 4 1 1] (GuillotineEngine example_guillotine)
    = Some (e', [NewSizeID 3 8 8]) /\
    engine_Rects e' = engine_Rects (GuillotineEngine example_guillotine) ++ new /\
    [NewSizeID 3 8 8; NewSizeID 4 1 1] ≡ₚ chosen ++ [NewSizeID 3 8 8] /\
    rID <$> new = ID <$> chosen.
Proof.
  pose (e0 := GuillotineEngine example_guillotine).
  pose (e1 := default e0 (fst <$> engine_Insert 0 [NewSizeID 3 8 8; NewSizeID 4 1 1] e0)).
  assert (engine_Insert 0 [NewSizeID 3 8 8; NewSizeID 4 1 1] e0
          = Some (e1, [NewSizeID 3 8 8])) as E by (vm_compute; reflexivity).
  destruct (Insert_packs_or_returns_every_size 0 _ e0 e1 _ E) as (new & chosen & H1 & H2 & H3).
  exists e1, new, chosen. split; [exact E|]. split; [exact H1|]. split; [exact H2|exact H3].
Defined.

(** ** The packed rectangles and the bin *)






(** ** The free lists *)

(** X14: in every reachable state of the MaxRects engine every free
    rectangle is a non-empty rectangle of the bin that no packed rectangle
    overlaps: [Intersects] is false and [Intersect] has area 0. *)
Theorem MR_free_rects_avoid_packed p F :
  MR_reachable p -> F ∈ MR.freeRects p ->
  inbin (maxWidth (MR.base p)) (maxHeight (MR.base p)) F
  /\ forall r, r ∈ MR.Rects p -> Intersects F r = false /\ rArea (Intersect F r) = 0.
Proof.
  intros Hr HF.
  destruct (MR_reachable_inv p Hr) as (fs & HW & HH & Hin & _ & _ & Hfs & _ & Hw & Hd).
  cbv zeta in *. pose proof (Forall_elem _ _ _ Hin HF) as HFin. split; [done|].
  intros r Hrp. apply list_elem_of_lookup in Hrp as [i Hi].
  destruct (Forall2_lookup_l _ _ _ _ _ Hw Hi) as (f & Hf & Hrf).
  apply list_elem_of_lookup_2 in Hf.
  pose proof (Forall_elem _ _ _ Hfs Hf) as Hfin.
  destruct (shrunk_disj_no_overlap F r F f) as [H1 H2]; [| |by apply Hd|done].
  - unfold shrunk, Right, Bottom, inbin, MaxInt in *. unwrap. lia.
  - by apply (within_shrunk _ _ _ _ (proj2 HW) (proj2 HH)).
Qed.

Lemma MR_free_rects_avoid_packed_witness :
  MR.freeRects example_maxrects !! 0%nat = Some (NewRect 0 5 10 5)
  /\ forall r, r ∈ MR.Rects example_maxrects ->
       Intersects (NewRect 0 5 10 5) r = false /\ rArea (Intersect (NewRect 0 5 10 5) r) = 0.
Proof.
  split; [vm_compute; reflexivity|].
  apply (MR_free_rects_avoid_packed example_maxrects (NewRect 0 5 10 5)
           example_maxrects_reachable).
  apply (list_elem_of_lookup_2 _ 0%nat). vm_compute. reflexivity.
Defined.

(** ** Guillotine: the free list is what is left of the bin *)

Lemma area_sum_cons a l : area_sum (a :: l) = rW a * rH a + area_sum l.
Proof. done. Qed.

Lemma area_sum_app l1 l2 : area_sum (l1 ++ l2) = area_sum l1 + area_sum l2.
Proof.
  induction l1 as [|a l1 IH]; [done|].
  rewrite <- app_comm_cons, !area_sum_cons, IH. lia.
Qed.

Lemma area_sum_delete l i F :
  l !! i = Some F -> area_sum l = rW F * rH F + area_sum (delete i l).
Proof.
  revert i. induction l as [|a l IH]; intros [|i] HF; try done.
  - cbn in HF. by injection HF as ->.
  - change (delete (S i) (a :: l)) with (a :: delete i l).
    rewrite !area_sum_cons, (IH i HF). lia.
Qed.

Lemma area_sum_nonneg W H l : Forall (inbin W H) l -> 0 <= area_sum l.
Proof.
  induction 1 as [|a l Ha _ IH]; [done|]. rewrite area_sum_cons. unfold inbin in Ha. nia.
Qed.

Lemma GU_splitAlongAxis_area W H F n b p cs :
  W <= MaxInt -> H <= MaxInt -> inbin W H F ->
  rX n = rX F -> rY n = rY F -> 0 < rW n <= rW F -> 0 < rH n <= rH F ->
  GU.splitAlongAxis F n b p = GU.set_free (GU.freeRects p ++ cs) p ->
  area_sum cs + rW n * rH n = rW F * rH F.
Proof.
  intros HW HH HF Ex Ey Hw Hh. unfold GU.splitAlongAxis, inbin, MaxInt in *. cbv zeta.
  destruct b; rsimpl; unwrap.
  all: repeat match goal with
       | |- context [if ?c then _ else _] => destruct c eqn:?
       end.
  all: unfold GU.set_free; cbn [GU.freeRects GU.base GU.Merge GU.splitMethod GU.scoreRect].
  all: try (rewrite <- app_assoc; cbn [app]).
  all: intros E;
       assert (GU.freeRects p ++ cs = GU.freeRects p ++ cs) as _ by done;
       match type of E with
       | GU.mk _ _ _ _ (_ ++ ?l) = _ =>
           assert (cs = l) as -> by (injection E as E; by apply app_inv_head in E)
       | ?q = _ =>
           assert (cs = []) as ->
             by (apply (f_equal GU.freeRects) in E; cbn in E;
                 rewrite <- (app_nil_r (GU.freeRects q)) in E at 1;
                 by apply app_inv_head in E)
       end.
  all: repeat match goal with
       | E : (_ && _) = true |- _ => apply andb_true_iff in E as [? ?]
       | E : (_ && _) = false |- _ => apply andb_false_iff in E as [?|?]
       | E : (_ <? _) = true |- _ => apply Z.ltb_lt in E
       | E : (_ <? _) = false |- _ => apply Z.ltb_ge in E
       end.
  all: clear E; unfold area_sum; cbn [foldr]; rsimpl; nia.
Qed.

Lemma GU_Insert_commit_area p fs pad sizes c p' rest :
  GU_inv p fs -> Forall (valid_size pad) sizes ->
  GU_scan_ok (GU.freeRects p) pad sizes c -> GU.bestScore c <> MaxInt ->
  GU.Insert_commit pad c p sizes = Some (p', rest) ->
  exists a, 0 < a /\
    usedArea (GU.base p') = usedArea (GU.base p) ⊞ wrap a /\
    area_sum (GU.freeRects p') + a = area_sum (GU.freeRects p) /\
    maxWidth (GU.base p') = maxWidth (GU.base p) /\
    maxHeight (GU.base p') = maxHeight (GU.base p).
Proof.
  intros (HW & HH & Hin & Hpd & Hfs & Hfd & Hsh & HFf) Hv [?|Hok] Hne; [done|].
  cbv zeta in *.
  destruct Hok as (F & s & Hi & HF & Hj & Hs & Hfit). cbv zeta in Hfit.
  pose proof (Forall_elem _ _ _ Hv (list_elem_of_lookup_2 _ _ _ Hs)) as Hvs.
  destruct (padSize_ge _ _ Hvs) as (Hpw & Hph & _).
  pose proof (list_elem_of_lookup_2 _ _ _ HF) as HFel.
  pose proof (Forall_elem _ _ _ Hin HFel) as HFin.
  pose proof (lookup_lt_Some _ _ _ HF) as HiF.
  set (n := let newNode := mkRect (rPoint F) s false in
            if GU.bestFlipped c
            then setFlipped (setH (setW newNode (rH newNode)) (rW newNode)) true
            else newNode).
  assert (rX n = rX F /\ rY n = rY F /\ 0 < rW n <= rW F /\ 0 < rH n <= rH F)
    as (Ex & Ey & Hw & Hh).
  { subst n. destruct Hvs as (? & ? & _). cbv zeta. destruct (GU.bestFlipped c); rsimpl; lia. }
  destruct (GU_splitByHeuristic_spec _ _ F n p (proj2 HW) (proj2 HH) HFin Ex Ey Hw Hh)
    as (cs & Esplit & Hcs & Hcsd).
  assert (area_sum cs + rW n * rH n = rW F * rH F) as Harea.
  { unfold GU.splitByHeuristic in Esplit. cbv zeta in Esplit.
    by eapply (GU_splitAlongAxis_area _ _ F n _ p cs (proj2 HW) (proj2 HH)). }
  unfold GU.Insert_commit, idx.
  destruct (Z.ltb_spec (GU.bestFreeRect c) 0); [lia|]. rewrite HF. cbn [mbind option_bind].
  destruct (Z.ltb_spec (GU.bestRect c) 0); [lia|]. rewrite Hs. cbn [mbind option_bind].
  fold n. cbv zeta. rewrite Esplit. unfold slices_Delete, idx.
  destruct (Z.ltb_spec (GU.bestFreeRect c) 0); [lia|].
  destruct (Z.ltb_spec (GU.bestRect c) 0); [lia|].
  cbn [GU.freeRects GU.set_free].
  rewrite (lookup_app_l_Some _ _ _ _ HF). cbn [mbind option_bind]. rewrite Hs.
  cbn [mbind option_bind GU.Merge GU.set_free].
  rewrite delete_app_lt by done.
  set (l' := delete (Z.to_nat (GU.bestFreeRect c)) (GU.freeRects p) ++ cs).
  assert (Forall (inbin (maxWidth (GU.base p)) (maxHeight (GU.base p))) l') as Hin'.
  { apply Forall_app. split; [by apply Forall_delete|].
    eapply Forall_impl; [done|]. by intros x (? & _). }
  assert (GU.mergeFreeList
            (GU.mk (GU.base p) (GU.Merge p) (GU.splitMethod p) (GU.scoreRect p) l')
          = Some (GU.mk (GU.base p) (GU.Merge p) (GU.splitMethod p) (GU.scoreRect p) l'))
    as Emerge.
  { apply GU_mergeFreeList_tall. cbn. eapply Forall_impl; [exact Hin'|].
    intros x Hx. unfold tall, inbin, in_int, MinInt, MaxInt in *. lia. }
  change (GU.set_free l' (GU.set_free (GU.freeRects p ++ cs) p))
    with (GU.mk (GU.base p) (GU.Merge p) (GU.splitMethod p) (GU.scoreRect p) l').
  assert (exists p1, (if GU.Merge p
                      then GU.mergeFreeList
                             (GU.mk (GU.base p) (GU.Merge p) (GU.splitMethod p)
                                    (GU.scoreRect p) l')
                      else Some (GU.mk (GU.base p) (GU.Merge p) (GU.splitMethod p)
                                       (GU.scoreRect p) l')) = Some p1 /\
                     GU.base p1 = GU.base p /\ GU.freeRects p1 = l') as (p1 & -> & Eb & El).
  { destruct (GU.Merge p); [rewrite Emerge|]; by eexists. }
  cbn [mbind option_bind]. intros [= <- <-]. cbn. rewrite Eb, El.
  exists (rW n * rH n). split; [nia|]. split; [done|]. split; [|done].
  subst l'. rewrite area_sum_app.
  rewrite (area_sum_delete _ _ _ HF). lia.
Qed.

Lemma GU_Reset_area w h p p' : GU.Reset w h p = Some p' -> GU_area_inv p'.
Proof.
  unfold GU.Reset, base_Reset. destruct (_ || _); [done|]. cbn. intros [= <-].
  exists 0. cbn. unfold area_sum. cbn. rsimpl. repeat split; lia.
Qed.

Lemma GU_reachable_area p : GU_reachable p -> GU_area_inv p.
Proof.
  induction 1 as [w h heur p Hw Hh Hn | w h p p' Hw Hh _ _ Hr | b p _ IH
                 | pad sizes p c0 p' rest Hp IH Hv c Hne Hc].
  - exact (GU_Reset_area w h _ p Hn).
  - exact (GU_Reset_area w h p p' Hr).
  - exact IH.
  - destruct (GU_reachable_inv p Hp) as [fs Hinv].
    destruct (GU_Insert_commit_area p fs pad sizes c p' rest Hinv Hv
                (GU_scan_spec p pad sizes c0) Hne Hc) as (a & Ha & Eu & Ef & EW & EH).
    destruct IH as (U & HU & EU & Esum).
    exists (U + a). split; [lia|]. split.
    + rewrite Eu, EU. unfold add. by rewrite wrap_add_wrap, Z.add_comm, wrap_add_wrap, Z.add_comm.
    + rewrite EW, EH. lia.
Qed.

(** X15: as long as every size handed to [Insert] has sides of at least 1
    that stay [int]s when padded, the Guillotine engine accounts for the
    whole bin.  In every state that it reaches from its constructor or
    [Reset] through [AllowFlip] and [Insert] on such sizes, and whose bin
    area is an [int], [UsedArea] and the areas of the free rectangles add
    up to the area of the bin exactly; so [UsedArea] lies between 0 and the
    area of the bin.  The states that [RepackAll] produces after padding has
    shrunk a packed rectangle to a side below 1 are not among these, and
    the property fails there. *)
Theorem GU_used_and_free_area_fill_bin p :
  GU_reachable p ->
  maxWidth (GU.base p) * maxHeight (GU.base p) <= MaxInt ->
  usedArea (GU.base p) + area_sum (GU.freeRects p)
    = maxWidth (GU.base p) * maxHeight (GU.base p)
  /\ 0 <= usedArea (GU.base p) <= maxWidth (GU.base p) * maxHeight (GU.base p).
Proof.
  intros Hr Hbin. destruct (GU_reachable_area p Hr) as (U & HU & EU & Esum).
  destruct (GU_reachable_inv p Hr) as (fs & _ & _ & Hin & _).
  pose proof (area_sum_nonneg _ _ _ Hin) as Hnn.
  unfold MaxInt in *. rewrite EU, wrap_small' by lia. lia.
Qed.

Lemma GU_used_and_free_area_fill_bin_witness :
  usedArea (GU.base example_guillotine) = 22
  /\ area_sum (GU.freeRects example_guillotine) = 78
  /\ usedArea (GU.base example_guillotine) + area_sum (GU.freeRects example_guillotine)
     = maxWidth (GU.base example_guillotine) * maxHeight (GU.base example_guillotine).
Proof.
  split; [vm_compute; reflexivity|]. split; [vm_compute; reflexivity|].
  refine (proj1 (GU_used_and_free_area_fill_bin example_guillotine
                   example_guillotine_reachable _)).
  vm_compute. discriminate.
Defined.

(** X16: as long as every size handed to [Insert] has sides of at least 1
    that stay [int]s when padded, the free list of the Guillotine engine
    stays a set of disjoint pieces of the bin.  In every state that the
    engine reaches from its constructor or [Reset] through [AllowFlip] and
    [Insert] on such sizes, the free rectangles are non-empty rectangles of
    the bin, no two of them overlap, none overlaps a packed rectangle, and
    [mergeFreeList] leaves the engine as it is.  The states that
    [RepackAll] produces after padding has shrunk a packed rectangle to a
    side below 1 are not among these, and the property fails there. *)
Theorem GU_free_list_invariant p :
  GU_reachable p ->
  Forall (inbin (maxWidth (GU.base p)) (maxHeight (GU.base p))) (GU.freeRects p)
  /\ no_overlap (GU.freeRects p)
  /\ (forall F r, F ∈ GU.freeRects p -> r ∈ GU.Rects p ->
        Intersects F r = false /\ rArea (Intersect F r) = 0)
  /\ GU.mergeFreeList p = Some p.
Proof.
  intros Hr.
  destruct (GU_reachable_inv p Hr) as (fs & HW & HH & Hin & Hpd & Hfs & _ & Hsh & Hd).
  cbv zeta in *.
  assert (forall F, F ∈ GU.freeRects p -> shrunk F F) as Hself.
  { intros F HF. pose proof (Forall_elem _ _ _ Hin HF) as HFin.
    unfold shrunk, Right, Bottom, inbin, MaxInt in *. unwrap. lia. }
  split; [done|]. split; [|split].
  - intros i j a b Hij Ha Hb.
    destruct (shrunk_disj_no_overlap a b a b) as [H1 H2];
      [apply Hself; by eapply list_elem_of_lookup_2..|by apply (Hpd i j)|done].
  - intros F r HF Hrp. apply list_elem_of_lookup in Hrp as [i Hi].
    destruct (Forall2_lookup_l _ _ _ _ _ Hsh Hi) as (f & Hf & Hrf).
    apply list_elem_of_lookup_2 in Hf.
    destruct (shrunk_disj_no_overlap F r F f) as [H1 H2];
      [by apply Hself|done|by apply Hd|done].
  - apply GU_mergeFreeList_tall. eapply Forall_impl; [exact Hin|].
    intros x Hx. unfold tall, inbin, in_int, MinInt, MaxInt in *. lia.
Qed.

Lemma GU_free_list_invariant_witness :
  length (GU.freeRects example_guillotine) = 3%nat
  /\ no_overlap (GU.freeRects example_guillotine)
  /\ GU.mergeFreeList example_guillotine = Some example_guillotine.
Proof.
  split; [vm_compute; reflexivity|].
  split.
  - exact (proj1 (proj2 (GU_free_list_invariant example_guillotine
                           example_guillotine_reachable))).
  - exact (proj2 (proj2 (proj2 (GU_free_list_invariant example_guillotine
                                  example_guillotine_reachable)))).
Defined.

(** ** Skyline: the packed rectangles lie under the profile *)



(** ** The packer (packer.go) *)

Section packer_more.
Context {A : Type} `{packAlgorithm A}.

Lemma PK_Size_fold pad (rects : list Rect) (acc : Size) :
  let f := fun (size : Size) rect =>
    let size := mkSize (imax (Width size) (Right rect ⊞ pad)) (Height size) (ID size) in
    mkSize (Width size) (imax (Height size) (Bottom rect ⊞ pad)) (ID size) in
  let sz := foldl f acc rects in
  ID sz = ID acc
  /\ Width acc <= Width sz /\ Height acc <= Height sz
  /\ (forall r, r ∈ rects -> Right r ⊞ pad <= Width sz /\ Bottom r ⊞ pad <= Height sz)
  /\ (Width sz = Width acc \/ exists r, r ∈ rects /\ Width sz = Right r ⊞ pad)
  /\ (Height sz = Height acc \/ exists r, r ∈ rects /\ Height sz = Bottom r ⊞ pad).
Proof.
  cbv zeta. revert acc. induction rects as [|a rects IH]; intros acc; cbn [foldl].
  - split; [done|]. split; [lia|]. split; [lia|]. split; [|split; by left].
    intros r Hr. by apply elem_of_nil in Hr.
  - match goal with |- context [foldl ?f ?acc' rects] =>
      destruct (IH acc') as (Hid & Hw & Hh & Hall & Haw & Hah) end.
    cbn [Width Height ID] in *. rewrite !imax_spec in *.
    split; [done|]. split; [lia|]. split; [lia|]. split; [|split].
    + intros r Hr. apply elem_of_cons in Hr as [->|Hr]; [lia|by apply Hall].
    + destruct Haw as [E|(r & Hr & E)].
      * destruct (Z.max_spec (Width acc) (Right a ⊞ pad)) as [[_ Em]|[_ Em]];
          [right; exists a; split; [by left|by rewrite E] | left; by rewrite E].
      * right. exists r. split; [by right|done].
    + destruct Hah as [E|(r & Hr & E)].
      * destruct (Z.max_spec (Height acc) (Bottom a ⊞ pad)) as [[_ Em]|[_ Em]];
          [right; exists a; split; [by left|by rewrite E] | left; by rewrite E].
      * right. exists r. split; [by right|done].
Qed.

(** X18: [Size] is the least size that holds every packed rectangle
    together with the padding: its width is at least [Right] plus the
    padding of each packed rectangle and is either 0 or attained by one of
    them, and the same holds for the height and [Bottom]. *)
Theorem Packer_Size_is_least_bound (p : PK.Packer A) :
  (forall r, r ∈ PK.Rects p ->
     Right r ⊞ PK.Padding p <= Width (PK.Size_ p) /\
     Bottom r ⊞ PK.Padding p <= Height (PK.Size_ p))
  /\ 0 <= Width (PK.Size_ p) /\ 0 <= Height (PK.Size_ p)
  /\ (Width (PK.Size_ p) = 0 \/
      exists r, r ∈ PK.Rects p /\ Width (PK.Size_ p) = Right r ⊞ PK.Padding p)
  /\ (Height (PK.Size_ p) = 0 \/
      exists r, r ∈ PK.Rects p /\ Height (PK.Size_ p) = Bottom r ⊞ PK.Padding p).
Proof.
  pose proof (PK_Size_fold (PK.Padding p) (algo_Rects (PK.algo p)) zeroSize) as Hf.
  cbv zeta in Hf. destruct Hf as (_ & Hw & Hh & Hall & Haw & Hah).
  unfold PK.Size_, PK.Rects. unfold zeroSize in *. cbn [Width Height] in *.
  split; [exact Hall|]. split; [exact Hw|]. split; [exact Hh|]. split; [exact Haw|exact Hah].
Qed.
End packer_more.

Lemma Map_fold_lookup (rects : list Rect) (m : gmap Z Rect) (id : Z) :
  foldl (fun mapping rect => <[rID rect := rect]> mapping) m rects !! id =
  match last (filter (fun r => rID r = id) rects) with
  | Some r => Some r
  | None => m !! id
  end.
Proof.
  revert m. induction rects as [|a rects IH]; intros m; cbn [foldl]; [done|].
  rewrite IH. rewrite filter_cons. destruct (decide (rID a = id)) as [E|E].
  - destruct (filter _ rects) as [|b l] eqn:El.
    + subst id. cbn [last]. apply lookup_insert_eq.
    + rewrite last_cons_cons. destruct (last (b :: l)) eqn:Eb; [done|].
      by apply last_None in Eb.
  - destruct (last _); [done|]. by rewrite lookup_insert_ne.
Qed.

Lemma filter_ID_absent (l : list Rect) (id : Z) :
  id ∉ rID <$> l -> filter (fun x => rID x = id) l = [].
Proof.
  induction l as [|a l IH]; intros Hn; [done|].
  rewrite fmap_cons in Hn. apply not_elem_of_cons in Hn as [Hne Hn].
  rewrite filter_cons, decide_False by done. by apply IH.
Qed.

Lemma filter_ID_NoDup (l : list Rect) (r : Rect) :
  NoDup (rID <$> l) -> r ∈ l -> filter (fun x => rID x = rID r) l = [r].
Proof.
  induction l as [|a l IH]; intros Hnd Hr; [by apply elem_of_nil in Hr|].
  rewrite fmap_cons in Hnd. apply NoDup_cons in Hnd as [Hna Hnd].
  rewrite filter_cons. apply elem_of_cons in Hr as [->|Hr].
  - rewrite decide_True by done. by rewrite filter_ID_absent.
  - rewrite decide_False; [by apply IH|].
    intros E. apply Hna. rewrite E. by apply list_elem_of_fmap_2.
Qed.

(** X19: [Map] sends an ID to the last packed rectangle that carries it and
    has no entry for an ID that no packed rectangle carries; so every value
    of the map is a packed rectangle stored under its own ID, and when the
    IDs of the packed rectangles are pairwise distinct, every packed
    rectangle is found under its ID. *)
Theorem Packer_Map_lookup {A : Type} `{packAlgorithm A} (p : PK.Packer A) :
  (forall id, Packer_Map p !! id = last (filter (fun r => rID r = id) (PK.Rects p)))
  /\ (forall id r, Packer_Map p !! id = Some r -> r ∈ PK.Rects p /\ rID r = id)
  /\ (NoDup (rID <$> PK.Rects p) ->
      forall r, r ∈ PK.Rects p -> Packer_Map p !! rID r = Some r).
Proof.
  assert (Hl : forall id,
    Packer_Map p !! id = last (filter (fun r => rID r = id) (PK.Rects p))).
  { intros id. unfold Packer_Map. rewrite Map_fold_lookup, lookup_empty.
    by destruct (last _). }
  split; [exact Hl|]. split.
  - intros id r Hr. rewrite Hl in Hr. apply last_Some in Hr as [l' Hr].
    assert (Hin : r ∈ filter (fun r => rID r = id) (PK.Rects p)).
    { rewrite Hr. apply elem_of_app. right. by left. }
    apply list_elem_of_filter in Hin as [? ?]. by split.
  - intros Hnd r Hr. by rewrite Hl, filter_ID_NoDup.
Qed.

(** Witness of [Packer_Map_lookup]: the online packer holds the IDs 1 and 2,
    and the map returns the second packed rectangle for the ID 2. *)
Lemma Packer_Map_lookup_witness :
  rID <$> PK.Rects example_online = [1; 2]
  /\ Packer_Map example_online !! 2 = Some (mkRect (mkPoint 1 0) (mkSize 3 1 2) false).
Proof.
  assert (E : rID <$> PK.Rects example_online = [1; 2]) by (vm_compute; reflexivity).
  split; [exact E|].
  refine (proj2 (proj2 (Packer_Map_lookup example_online)) _
            (mkRect (mkPoint 1 0) (mkSize 3 1 2) false) _).
  - rewrite E. apply NoDup_cons. split; [|apply NoDup_singleton].
    intros Hin. apply list_elem_of_singleton in Hin. discriminate.
  - apply (list_elem_of_lookup_2 _ 1%nat). vm_compute. reflexivity.
Defined.

Lemma example_online_reachable : GU_reachable (PK.algo example_online).
Proof.
  pose (p0 := PK.set_Online true (guillotine_packer 4 4 GuillotineBAF)).
  pose (p1 := default p0 (snd <$> PK.Insert [NewSizeID 1 1 2] p0)).
  assert (H0 : GU_reachable (PK.algo p0)).
  { apply (GU_reach_new 4 4 GuillotineBAF); [unfold MaxInt; lia..|].
    vm_compute; reflexivity. }
  assert (H1 : GU_reachable (PK.algo p1)).
  { apply (PK_Insert_reachable p0 p1 [NewSizeID 1 1 2] []); [exact H0| |].
    - repeat constructor; vm_compute; discriminate.
    - apply (run_eq (PK.Insert [NewSizeID 1 1 2] p0) [] p0). vm_compute; reflexivity. }
  apply (PK_Insert_reachable p1 example_online [NewSizeID 2 3 1] []); [exact H1| |].
  - repeat constructor; vm_compute; discriminate.
  - apply (run_eq (PK.Insert [NewSizeID 2 3 1] p1) [] p1). vm_compute; reflexivity.
Qed.

(** X20: [Clear] of a packer over a Guillotine engine in a reachable state
    never panics.  It empties the packed and the staged rectangles, sets the
    used area to 0 and the free list to the whole bin, keeps the maximum
    size and every setting, leaves the engine in a reachable state, and a
    second [Clear] changes nothing. *)
Theorem Packer_Clear_resets (p : PK.Packer GU.guillotinePack) :
  GU_reachable (PK.algo p) ->
  exists p', PK.Clear p = Some p'
    /\ PK.Rects p' = [] /\ PK.Unpacked p' = []
    /\ algo_UsedArea (PK.algo p') = 0
    /\ GU.freeRects (PK.algo p')
       = [NewRect 0 0 (maxWidth (GU.base (PK.algo p))) (maxHeight (GU.base (PK.algo p)))]
    /\ algo_MaxSize (PK.algo p') = algo_MaxSize (PK.algo p)
    /\ allowFlip (GU.base (PK.algo p')) = allowFlip (GU.base (PK.algo p))
    /\ (GU.Merge (PK.algo p'), GU.splitMethod (PK.algo p'), GU.scoreRect (PK.algo p'))
       = (GU.Merge (PK.algo p), GU.splitMethod (PK.algo p), GU.scoreRect (PK.algo p))
    /\ (PK.Padding p', PK.Online p', PK.sortFunc p', PK.sortRev p')
       = (PK.Padding p, PK.Online p, PK.sortFunc p, PK.sortRev p)
    /\ GU_reachable (PK.algo p')
    /\ PK.Clear p' = Some p'.
Proof.
  intros Hr. destruct (GU_reachable_inv _ Hr) as (fs & HW & HH & _).
  unfold PK.Clear. cbn [algo_MaxSize algo_Reset guillotine_packAlgorithm].
  unfold base_MaxSize, NewSize. cbn [Width Height].
  unfold GU.Reset. rewrite base_Reset_Some by lia. cbn [mbind option_bind].
  eexists. split; [reflexivity|]. cbn.
  repeat (split; [reflexivity|]).
  split.
  - apply (GU_reach_Reset (maxWidth (GU.base (PK.algo p))) (maxHeight (GU.base (PK.algo p)))
             (PK.algo p)); [lia|lia|exact Hr|].
    unfold GU.Reset. by rewrite base_Reset_Some by lia.
  - unfold GU.Reset. by rewrite base_Reset_Some by lia.
Qed.

(** Witness of [Packer_Clear_resets]: the online packer with two packed
    rectangles. *)
Lemma Packer_Clear_resets_witness :
  length (PK.Rects example_online) = 2%nat
  /\ exists p', PK.Clear example_online = Some p'
       /\ PK.Rects p' = [] /\ PK.Unpacked p' = [].
Proof.
  split; [vm_compute; reflexivity|].
  destruct (Packer_Clear_resets example_online example_online_reachable)
    as (p' & Hc & Hrs & Hu & _).
  exists p'. split; [exact Hc|]. split; [exact Hrs|exact Hu].
Defined.

Lemma moved_singleton packed packed' s rest :
  moved packed packed' [s] rest ->
  (rest = [] /\ exists r, packed' = packed ++ [r] /\ rID r = ID s)
  \/ (rest = [s] /\ packed' = packed).
Proof.
  intros (new & chosen & -> & Hp & Hi).
  apply Permutation_singleton_l in Hp.
  destruct chosen as [|c chosen].
  - right. cbn in Hp. subst rest. apply fmap_nil_inv in Hi. subst new.
    by rewrite app_nil_r.
  - left. cbn in Hp. injection Hp as -> Hp. symmetry in Hp. apply app_eq_nil in Hp as [-> ->].
    destruct new as [|r [|r' new]]; try done. cbn in Hi. injection Hi as Hi.
    split; [done|]. by exists r.
Qed.

(** X21: [InsertSize] on a packer over a Guillotine engine in a reachable
    state never panics for a size with sides of at least 1 that stay [int]s
    when padded, and its result tells what happened.  Online, [true] means the size was packed (one
    rectangle with the given ID was appended to the packed ones) and [false]
    that the packed rectangles are as before; nothing is staged either way.
    Offline the result is always [true]: the size is only appended to the
    staged ones. *)
Theorem Packer_InsertSize_reports (p : PK.Packer GU.guillotinePack) (id w h : Z) :
  GU_reachable (PK.algo p) ->
  valid_size (PK.Padding p) (NewSizeID id w h) ->
  exists b p', PK.InsertSize id w h p = Some (b, p')
    /\ GU_reachable (PK.algo p')
    /\ if PK.Online p
       then PK.Unpacked p' = PK.Unpacked p /\
            if b then exists r, PK.Rects p' = PK.Rects p ++ [r] /\ rID r = id
            else PK.Rects p' = PK.Rects p
       else b = true /\ PK.Rects p' = PK.Rects p /\
            PK.Unpacked p' = PK.Unpacked p ++ [NewSizeID id w h].
Proof.
  intros Hr Hv. unfold PK.InsertSize, PK.Insert.
  destruct (PK.Online p) eqn:Eo.
  - destruct (GU_Insert_loop_reachable 1 (PK.Padding p) (PK.algo p) [NewSizeID id w h]
                (GU.mkChoice 0 0 false 0) Hr (proj2 (Forall_singleton _ _) Hv) (le_n _))
      as (a & rest & Hi & Ha).
    pose proof (GU_Insert_loop_moved _ _ _ _ _ _ _ Hi) as Hm.
    apply moved_singleton in Hm.
    cbn [algo_Insert guillotine_packAlgorithm]. unfold GU.Insert. cbn [length].
    rewrite Hi. cbn [mbind option_bind PK.Online PK.set_algo]. rewrite Eo.
    destruct Hm as [(-> & r & Hp & Hid)|(-> & Hp)]; cbn.
    + exists true. eexists. split; [reflexivity|]. cbn. split; [done|]. split; [done|].
      by exists r.
    + exists false. eexists. split; [reflexivity|]. cbn. by split.
  - cbn. rewrite Eo. cbn. exists true. eexists. split; [reflexivity|]. by cbn.
Qed.

(** Witness of [Packer_InsertSize_reports]: a 1 x 1 size offered to the
    online packer. *)
Lemma Packer_InsertSize_reports_witness :
  exists b p', PK.InsertSize 7 1 1 example_online = Some (b, p')
    /\ GU_reachable (PK.algo p').
Proof.
  destruct (Packer_InsertSize_reports example_online 7 1 1 example_online_reachable)
    as (b & p' & Hi & Hr & _).
  - vm_compute. repeat split; discriminate.
  - exists b, p'. split; [exact Hi|exact Hr].
Defined.

(** ** Orientation *)

Lemma placed_refl R packed sizes : placed R packed packed sizes sizes.
Proof. exists [], []. by rewrite app_nil_r. Qed.

Lemma placed_step R packed r packed' s sizes sizes1 rest :
  R r s -> sizes ≡ₚ s :: sizes1 ->
  placed R (packed ++ [r]) packed' sizes1 rest -> placed R packed packed' sizes rest.
Proof.
  intros Hr Hs (new & chosen & -> & Hp & Hi).
  exists (r :: new), (s :: chosen). split; [by rewrite <- app_assoc|]. split.
  - rewrite Hs. cbn. by rewrite Hp.
  - by constructor.
Qed.

Lemma unturned_zero width height : unturned width height zeroRect.
Proof. split; [done|by left]. Qed.

Lemma unturned_setXYWH width height n x y :
  Flipped n = false -> unturned width height (setXYWH n x y width height).
Proof. intros Hf. split; [done|]. by right. Qed.

Lemma MR_find_step_unturned width height score better frees st :
  unturned width height st.1 ->
  unturned width height (foldl (MR.find_step false width height score better) st frees).1.
Proof.
  revert st. induction frees as [|F frees IH]; intros st Hst; [done|].
  cbn [foldl]. apply IH. unfold MR.find_step, MR.try_orient.
  destruct st as [n b]. cbn [fst] in Hst.
  destruct (_ && _); [|done]. destruct (better _ _); [|done].
  cbn [fst]. apply unturned_setXYWH. apply Hst.
Qed.

Lemma MR_call_findNode_unturned p width height :
  allowFlip (MR.base p) = false ->
  unturned width height (MR.call_findNode p width height).1.1.
Proof.
  intros Hf. unfold MR.call_findNode, MR.do_findPositionBestAreaFit,
    MR.do_findPositionBottomLeft, MR.do_findPositionContactPoint,
    MR.do_findPositionBestLongSideFit, MR.do_findPositionBestShortSideFit.
  rewrite Hf.
  destruct (MR.findNode p);
    match goal with |- context [foldl (MR.find_step _ _ _ ?sc ?bt) ?st ?l] =>
      pose proof (MR_find_step_unturned width height sc bt l st
                    (unturned_zero width height)) as Hu;
      destruct (foldl (MR.find_step false width height sc bt) st l) as [n [a b]] end;
    exact Hu.
Qed.

Lemma MR_scoreRect_unturned p width height n s1 s2 :
  allowFlip (MR.base p) = false ->
  MR.scoreRect p width height = (n, s1, s2) ->
  unturned width height n /\ (rH n = 0 -> s1 = MaxInt /\ s2 = MaxInt).
Proof.
  intros Hf. unfold MR.scoreRect.
  pose proof (MR_call_findNode_unturned p width height Hf) as Hu.
  destruct (MR.call_findNode p width height) as [[n0 a] b]. cbn in Hu.
  destruct (Z.eqb_spec (rH n0) 0); intros [= <- <- <-]; by split.
Qed.

Lemma MR_Insert_scan_upright p sizes0 pre sizes best :
  allowFlip (MR.base p) = false ->
  sizes0 = pre ++ sizes ->
  best.1.1.2 <= MaxInt /\ (best.1.1.2 = MaxInt -> best.1.2 <= MaxInt) ->
  (best.2 = -1 \/ exists s, 0 <= best.2 /\ sizes0 !! Z.to_nat best.2 = Some s
      /\ Flipped best.1.1.1 = false
      /\ rSize best.1.1.1 = padSize s (padding (MR.base p))) ->
  let best' := MR.Insert_scan p (Z.of_nat (length pre)) sizes best in
  best'.2 = -1 \/ exists s, 0 <= best'.2 /\ sizes0 !! Z.to_nat best'.2 = Some s
      /\ Flipped best'.1.1.1 = false
      /\ rSize best'.1.1.1 = padSize s (padding (MR.base p)).
Proof.
  intros Hf. revert pre best.
  induction sizes as [|s sizes IH]; intros pre best E Hsc Hb; cbn; [done|].
  destruct best as [[[bn b1] b2] index]. cbn [fst snd] in Hsc, Hb.
  destruct (MR.scoreRect _ _ _) as [[n s1] s2] eqn:Es.
  apply (MR_scoreRect_unturned _ _ _ _ _ _ Hf) in Es as [[Hnf Hn] Hz].
  replace (Z.of_nat (length pre) + 1) with (Z.of_nat (length (pre ++ [s])))
    by (rewrite length_app; cbn; lia).
  match goal with |- context [if ?c then _ else _] => destruct c eqn:Ec end.
  - assert (rH n <> 0) as Hh.
    { intros Hh. destruct (Hz Hh) as [-> ->]. revert Ec. zcmp; lia. }
    destruct Hn as [?|[Hw Hh']]; [done|].
    apply IH; [by rewrite <- app_assoc| |].
    + cbn [fst snd]. revert Ec. zcmp; lia.
    + right. exists s. cbn [fst snd]. split; [lia|]. split.
      { rewrite Nat2Z.id, E. by apply list_lookup_middle. }
      split; [done|]. unfold setID. cbn. rewrite Hw, Hh'.
      by destruct (padSize s (padding (MR.base p))).
  - apply IH; [by rewrite <- app_assoc|done|done].
Qed.

Lemma MR_Insert_loop_upright fuel p sizes p' rest :
  allowFlip (MR.base p) = false ->
  MR.Insert_loop fuel p sizes = Some (p', rest) ->
  placed (upright (padding (MR.base p)) (fun s => padSize s (padding (MR.base p))))
         (MR.Rects p) (MR.Rects p') sizes rest.
Proof.
  revert p sizes. induction fuel as [|fuel IH]; intros p sizes Hf;
    (destruct sizes as [|s0 sizes]; [cbn; intros [= <- <-]; apply placed_refl|]);
    cbn -[MR.Insert_scan MR.Insert_commit];
    pose proof (MR_Insert_scan_upright p (s0 :: sizes) [] (s0 :: sizes)
                  (zeroRect, MaxInt, MaxInt, -1) Hf eq_refl
                  (conj (Z.le_refl _) (fun _ => Z.le_refl _)) (or_introl eq_refl)) as Hid;
    cbv zeta in Hid; change (Z.of_nat (length (@nil Size))) with 0 in Hid;
    destruct (MR.Insert_scan _ _ _ _) as [[[bn s1] s2] index]; cbn in Hid;
    (destruct (Z.eqb_spec index (-1)); [intros [= <- <-]; apply placed_refl|]);
    [done|].
  destruct Hid as [?|(s & Hi & Hs & Hnf & Hsz)]; [done|].
  intros H. apply bind_Some in H as ([p1 sizes1] & Hc & H).
  unfold MR.Insert_commit in Hc.
  apply bind_Some in Hc as (q & Hq & Hc). cbv zeta in Hc.
  apply bind_Some in Hc as (x & _ & Hc). injection Hc as <- <-.
  apply MR_placeRect_base in Hq.
  apply IH in H; [|cbn; by rewrite Hq].
  cbn in H. rewrite Hq in H. cbn in H.
  eapply (placed_step _ _ (unpadRect bn (padding (MR.base p))) _ s); [| |].
  - by exists bn.
  - by apply swap_remove_Permutation.
  - unfold MR.Rects in *. exact H.
Qed.

Lemma SK_findBottomLeft_try_unturned p i w h y st st' y' :
  SK.findBottomLeft_try p false i w h y st = Some (st', y') ->
  unturned w h st.1.1.1 -> unturned w h st'.1.1.1.
Proof.
  unfold SK.findBottomLeft_try. intros H Hu.
  apply bind_Some in H as ([fits y1] & _ & H). apply bind_Some in H as (s & _ & H).
  destruct st as [[[n b1] b2] bi]. cbn [fst] in Hu.
  destruct (_ && _); injection H as <- _; [|done].
  cbn [fst]. apply unturned_setXYWH. apply Hu.
Qed.

Lemma SK_findBottomLeft_loop_unturned p width height n i st st' :
  allowFlip (SK.base p) = false ->
  SK.findBottomLeft_loop p width height n i st = Some st' ->
  unturned width height st.1.1.1 -> unturned width height st'.1.1.1.
Proof.
  intros Hf. revert i st. induction n as [|n IH]; intros i st; cbn [SK.findBottomLeft_loop].
  - by intros [= <-].
  - rewrite Hf. cbv zeta. intros H Hu.
    apply bind_Some in H as ([st1 y1] & H1 & H). cbn in H.
    apply (IH _ _ H). by apply (SK_findBottomLeft_try_unturned _ _ _ _ _ _ _ _ H1).
Qed.

Lemma SK_findMinWaste_try_unturned p i w h y wasted st st' y' wasted' :
  SK.findMinWaste_try p false i w h y wasted st = Some (st', y', wasted') ->
  unturned w h st.1.1.1 -> unturned w h st'.1.1.1.
Proof.
  unfold SK.findMinWaste_try. intros H Hu.
  apply bind_Some in H as ([[fits y1] w1] & _ & H). apply bind_Some in H as (s & _ & H).
  destruct st as [[[n b1] b2] bi]. cbn [fst] in Hu.
  destruct (_ && _); injection H as <- _ _; [|done].
  cbn [fst]. apply unturned_setXYWH. apply Hu.
Qed.

Lemma SK_findMinWaste_loop_unturned p width height n i st st' :
  allowFlip (SK.base p) = false ->
  SK.findMinWaste_loop p width height n i st = Some st' ->
  unturned width height st.1.1.1 -> unturned width height st'.1.1.1.
Proof.
  intros Hf. revert i st. induction n as [|n IH]; intros i st; cbn [SK.findMinWaste_loop].
  - by intros [= <-].
  - rewrite Hf. cbv zeta. intros H Hu.
    apply bind_Some in H as ([[st1 y1] w1] & H1 & H). cbn in H.
    apply (IH _ _ H). by apply (SK_findMinWaste_try_unturned _ _ _ _ _ _ _ _ _ _ H1).
Qed.

Lemma SK_Insert_scan_upright p sizes0 pre sizes best best' :
  allowFlip (SK.base p) = false ->
  sizes0 = pre ++ sizes ->
  (best.2 = -1 \/ exists s, 0 <= best.2 /\ sizes0 !! Z.to_nat best.2 = Some s
      /\ Flipped best.1.1.1.1 = false
      /\ rW best.1.1.1.1 = Width (padSize s (padding (SK.base p)))
      /\ rH best.1.1.1.1 = Height (padSize s (padding (SK.base p)))) ->
  SK.Insert_scan p (Z.of_nat (length pre)) sizes best = Some best' ->
  best'.2 = -1 \/ exists s, 0 <= best'.2 /\ sizes0 !! Z.to_nat best'.2 = Some s
      /\ Flipped best'.1.1.1.1 = false
      /\ rW best'.1.1.1.1 = Width (padSize s (padding (SK.base p)))
      /\ rH best'.1.1.1.1 = Height (padSize s (padding (SK.base p))).
Proof.
  intros Hf. revert pre best.
  induction sizes as [|s sizes IH]; intros pre best E Hb; cbn [SK.Insert_scan].
  - by intros [= <-].
  - destruct best as [[[[bn b1] b2] bi] index]. cbn [fst snd] in Hb. cbv zeta.
    intros H. apply bind_Some in H as ([[[n s1] s2] ix] & Hfind & H).
    assert (unturned (Width (padSize s (padding (SK.base p))))
                     (Height (padSize s (padding (SK.base p)))) n) as [Hnf Hn].
    { destruct (SK.levelSelect p =? MinWaste).
      - apply (SK_findMinWaste_loop_unturned _ _ _ _ _ _ _ Hf Hfind). apply unturned_zero.
      - apply (SK_findBottomLeft_loop_unturned _ _ _ _ _ _ _ Hf Hfind). apply unturned_zero. }
    replace (Z.of_nat (length pre) + 1) with (Z.of_nat (length (pre ++ [s]))) in H
      by (rewrite length_app; cbn; lia).
    revert H. apply IH; [by rewrite <- app_assoc|].
    destruct (Z.eqb_spec (rH n) 0) as [Hz|Hz]; cbn [negb andb]; [done|].
    destruct (_ || _); [|done].
    destruct Hn as [?|[Hw Hh]]; [done|].
    right. exists s. cbn [fst snd]. split; [lia|]. split; [|done].
    rewrite Nat2Z.id, E. by apply list_lookup_middle.
Qed.

Lemma unpadRect_setID r pad id : setID (unpadRect r pad) id = unpadRect (setID r id) pad.
Proof.
  unfold unpadRect. destruct (_ <=? _); [done|].
  destruct r as [[x y] [w h i] f]. cbn.
  destruct (x =? 0); cbn; destruct (y =? 0); reflexivity.
Qed.

Lemma SK_Insert_loop_upright fuel p sizes p' rest :
  allowFlip (SK.base p) = false ->
  SK.Insert_loop fuel p sizes = Some (p', rest) ->
  placed (upright (padding (SK.base p)) (fun s => padSize s (padding (SK.base p))))
         (SK.Rects p) (SK.Rects p') sizes rest.
Proof.
  revert p sizes. induction fuel as [|fuel IH]; intros p sizes Hf;
    (destruct sizes as [|s0 sizes]; [cbn; intros [= <- <-]; apply placed_refl|]);
    cbn -[SK.Insert_scan SK.Insert_commit]; intros H;
    apply bind_Some in H as ([[[[bn s1] s2] bin] index] & Hscan & H);
    (destruct (Z.eqb_spec index (-1)); [injection H as <- <-; apply placed_refl|]);
    [done|].
  pose proof (SK_Insert_scan_upright p (s0 :: sizes) [] (s0 :: sizes)
                (zeroRect, MaxInt, MaxInt, -1, -1) _ Hf eq_refl
                (or_introl eq_refl) Hscan) as Hid.
  cbn [fst snd] in Hid. destruct Hid as [?|(s' & Hi & Hs' & Hnf & Hw & Hh)]; [done|].
  apply bind_Some in H as ([p1 sizes1] & Hc & H).
  unfold SK.Insert_commit in Hc.
  apply bind_Some in Hc as (q & Hq & Hc). cbv zeta in Hc.
  apply bind_Some in Hc as (s & Hs & Hc).
  apply bind_Some in Hc as (l & Hl & Hc). injection Hc as <- <-.
  apply SK_addLevel_base in Hq.
  apply IH in H; [|cbn; by rewrite Hq].
  cbn in H. rewrite Hq in H. cbn in H.
  unfold slices_Delete, idx in Hs, Hl. destruct (_ <? 0); [done|].
  rewrite Hs in Hl. cbn in Hl. injection Hl as <-.
  rewrite Hs' in Hs. injection Hs as <-.
  eapply (placed_step _ _ _ _ s'); [| |].
  2: by apply delete_Permutation.
  2: { unfold SK.Rects in *. exact H. }
  exists (setID bn (ID s')). split; [by rewrite unpadRect_setID|]. split; [done|].
  unfold setID. cbn. rewrite Hw, Hh.
  unfold padSize. by destruct (_ <=? _), s'.
Qed.

Lemma GU_scan_sizes_unflipped p pad i F j sizes c :
  allowFlip (GU.base p) = false -> GU.bestFlipped c = false ->
  GU.bestFlipped (GU.scan_sizes p pad i F j sizes c) = false.
Proof.
  intros Hf. revert j c. induction sizes as [|s sizes IH]; intros j c Hc; [done|].
  cbn [GU.scan_sizes]. rewrite Hf. cbn [andb]. cbv zeta.
  destruct (_ && _); [done|]. destruct (_ && _); [|by apply IH].
  apply IH. by destruct (_ <? _).
Qed.

Lemma GU_scan_free_unflipped p pad i frees sizes c :
  allowFlip (GU.base p) = false -> GU.bestFlipped c = false ->
  GU.bestFlipped (GU.scan_free p pad i frees sizes c) = false.
Proof.
  intros Hf. revert i c. induction frees as [|F frees IH]; intros i c Hc; [done|].
  cbn [GU.scan_free]. apply IH. by apply GU_scan_sizes_unflipped.
Qed.

Lemma GU_Insert_loop_upright fuel pad p sizes c p' rest :
  allowFlip (GU.base p) = false -> GU.bestFlipped c = false ->
  GU.Insert_loop fuel pad p sizes c = Some (p', rest) ->
  placed (upright pad (fun s => s)) (GU.Rects p) (GU.Rects p') sizes rest.
Proof.
  revert p sizes c. induction fuel as [|fuel IH]; intros p sizes c Hf Hc;
    (destruct sizes as [|s0 sizes]; [cbn; intros [= <- <-]; apply placed_refl|]);
    cbn -[GU.scan_free GU.Insert_commit];
    (destruct (_ =? MaxInt); [intros [= <- <-]; apply placed_refl|]);
    [done|].
  set (c1 := GU.scan_free _ _ _ _ _ _).
  assert (GU.bestFlipped c1 = false) as Hc1 by (by apply GU_scan_free_unflipped).
  intros H. apply bind_Some in H as ([p1 sizes1] & Hcm & H).
  unfold GU.Insert_commit in Hcm. rewrite Hc1 in Hcm.
  apply bind_Some in Hcm as (F & _ & Hcm). apply bind_Some in Hcm as (s & Hs & Hcm).
  cbv zeta in Hcm.
  apply bind_Some in Hcm as (l & _ & Hcm). apply bind_Some in Hcm as (sizes2 & Hd & Hcm).
  apply bind_Some in Hcm as (q & Hq & Hcm). injection Hcm as <- <-.
  assert (GU.base q = GU.base p) as Eb.
  { destruct (GU.Merge _).
    - apply GU_mergeFreeList_base in Hq. rewrite Hq. cbn. apply GU_splitByHeuristic_base.
    - injection Hq as <-. cbn. apply GU_splitByHeuristic_base. }
  apply IH in H; [|cbn; by rewrite Eb|done].
  unfold slices_Delete, idx in Hs, Hd. destruct (_ <? 0); [done|].
  rewrite Hs in Hd. cbn in Hd. injection Hd as <-.
  eapply (placed_step _ _ _ _ s); [| |].
  2: by apply delete_Permutation.
  2: { unfold GU.Rects in *. cbn in H. rewrite Eb in H. exact H. }
  by exists (mkRect (rPoint F) s false).
Qed.

Lemma upright_no_padding pad ns new chosen :
  pad <= 0 -> (forall s, ns s = s) ->
  Forall2 (upright pad ns) new chosen ->
  rSize <$> new = chosen /\ Forall (fun r => Flipped r = false) new.
Proof.
  intros Hp Hns. induction 1 as [|r s new chosen (n & -> & Hf & Hs) _ [IH1 IH2]]; [done|].
  assert (unpadRect n pad = n) as ->.
  { unfold unpadRect. destruct (Z.leb_spec pad 0); [done|lia]. }
  split.
  - cbn. by rewrite Hs, Hns, IH1.
  - by constructor.
Qed.

(** X22: without [AllowFlip] nothing is turned.  When flipping is off,
    every rectangle that [Insert] of one of the three engines appends is
    what [unpadRect] makes of an unflipped node that has the sides and the
    ID of one input size (padded in MaxRects and Skyline, as given in
    Guillotine), so it is not marked [Flipped]; and when the padding is not
    positive, the new rectangles carry exactly the sizes that were packed,
    width, height and ID. *)
Theorem Insert_without_flip_keeps_orientation pad sizes e e' rest :
  allowFlip (engine_base e) = false ->
  engine_Insert pad sizes e = Some (e', rest) ->
  exists new chosen,
    engine_Rects e' = engine_Rects e ++ new /\
    sizes ≡ₚ chosen ++ rest /\
    Forall2 (upright (engine_padding pad e) (engine_node_size pad e)) new chosen /\
    Forall (fun r => Flipped r = false) new /\
    (engine_padding pad e <= 0 -> rSize <$> new = chosen).
Proof.
  intros Hf H.
  assert (exists new chosen,
    engine_Rects e' = engine_Rects e ++ new /\ sizes ≡ₚ chosen ++ rest /\
    Forall2 (upright (engine_padding pad e) (engine_node_size pad e)) new chosen)
    as (new & chosen & Hn & Hp & Hu).
  { destruct e as [p|p|p]; cbn in Hf, H |- *;
      apply fmap_Some in H as ([p' r] & H & [= -> ->]).
    - by apply MR_Insert_loop_upright in H.
    - by apply SK_Insert_loop_upright in H.
    - by apply GU_Insert_loop_upright in H. }
  exists new, chosen. split; [done|]. split; [done|]. split; [done|]. split.
  - clear -Hu. induction Hu as [|r s new chosen (n & -> & Hfl & _) _ IH]; constructor; [|done].
    unfold unpadRect. destruct (_ <=? _); [done|].
    destruct (rX n =? 0); match goal with |- context [if ?a =? 0 then _ else _] =>
      destruct (a =? 0) end; done.
  - intros Hpad. refine (proj1 (upright_no_padding _ _ _ _ Hpad _ Hu)).
    intros s. destruct e as [p|p|p]; cbn [engine_node_size engine_padding] in *;
      [| |done]; unfold padSize;
      match goal with |- context [?a <=? 0] => destruct (Z.leb_spec a 0) end;
      (done || lia).
Qed.

(** Witness of [Insert_without_flip_keeps_orientation]: a 2 x 2 size and one
    that is too large, offered to the MaxRects example. *)
Lemma Insert_without_flip_keeps_orientation_witness :
  exists e' new chosen,
    engine_Insert 0 [NewSizeID 7 20 20; NewSizeID 8 2 2] (MaxRectsEngine example_maxrects)
    = Some (e', [NewSizeID 7 20 20]) /\
    engine_Rects e' = engine_Rects (MaxRectsEngine example_maxrects) ++ new /\
    [NewSizeID 7 20 20; NewSizeID 8 2 2] ≡ₚ chosen ++ [NewSizeID 7 20 20] /\
    Forall (fun r => Flipped r = false) new.
Proof.
  pose (e0 := MaxRectsEngine example_maxrects).
  pose (e1 := default e0 (fst <$> engine_Insert 0 [NewSizeID 7 20 20; NewSizeID 8 2 2] e0)).
  assert (engine_Insert 0 [NewSizeID 7 20 20; NewSizeID 8 2 2] e0
          = Some (e1, [NewSizeID 7 20 20])) as E by (vm_compute; reflexivity).
  assert (allowFlip (engine_base e0) = false) as Hf by (vm_compute; reflexivity).
  destruct (Insert_without_flip_keeps_orientation 0 _ e0 e1 _ Hf E)
    as (new & chosen & H1 & H2 & _ & H3 & _).
  exists e1, new, chosen. split; [exact E|]. split; [exact H1|]. split; [exact H2|exact H3].
Defined.

(** ** Points and intervals *)

(** X23: on a point with [int] coordinates, two [Offset]s are the [Offset]
    by the wrapped sums, [Offset] by the negated amounts undoes an
    [Offset], overflow or not, and [Offset] by 0 changes nothing. *)
Theorem Offset_composes p x y x' y' :
  in_int (X p) -> in_int (Y p) ->
  Offset (Offset p x y) x' y' = Offset p (x ⊞ x') (y ⊞ y')
  /\ Offset (Offset p x y) (neg x) (neg y) = p
  /\ Offset p 0 0 = p.
Proof.
  intros Hx Hy. destruct p as [a b]. cbn in Hx, Hy. unfold Offset, neg, add. cbn.
  assert (forall c d d', wrap (wrap (c + d) + d') = wrap (c + wrap (d + d'))) as E1.
  { intros c d d'. rewrite (Z.add_comm (wrap _)), !wrap_add_wrap. f_equal. lia. }
  assert (forall c d, in_int c -> wrap (wrap (c + d) + wrap (- d)) = c) as E2.
  { intros c d Hc. rewrite wrap_add_wrap, (Z.add_comm (wrap _)), wrap_add_wrap.
    replace (- d + (c + d)) with c by lia. by apply wrap_small. }
  split; [by rewrite !E1|]. split; [by rewrite !E2|].
  by rewrite !Z.add_0_r, !wrap_small.
Qed.

Lemma Offset_composes_witness :
  Offset (Offset (mkPoint 3 4) 5 (-6)) (neg 5) (neg (-6)) = mkPoint 3 4.
Proof.
  refine (proj1 (proj2 (Offset_composes (mkPoint 3 4) 5 (-6) 0 0 _ _)));
    unfold in_int, MinInt, MaxInt; cbn; lia.
Defined.

(** X24: for two intervals of non-negative [int]s, [commonIntervalLength] is
    the length of their common part, 0 when they share at most a point; it
    does not depend on the order of the two intervals and never exceeds
    the length of either. *)
Theorem commonIntervalLength_is_overlap s1 e1 s2 e2 :
  0 <= s1 <= e1 -> e1 <= MaxInt -> 0 <= s2 <= e2 -> e2 <= MaxInt ->
  MR.commonIntervalLength s1 e1 s2 e2 = Z.max 0 (Z.min e1 e2 - Z.max s1 s2)
  /\ MR.commonIntervalLength s1 e1 s2 e2 = MR.commonIntervalLength s2 e2 s1 e1
  /\ 0 <= MR.commonIntervalLength s1 e1 s2 e2 <= Z.min (e1 - s1) (e2 - s2).
Proof.
  intros H1 He1 H2 He2. unfold MR.commonIntervalLength, MaxInt in *.
  rewrite !imin_spec, !imax_spec. unfold sub.
  rewrite (Z.min_comm e2 e1), (Z.max_comm s2 s1).
  rewrite (wrap_small' (Z.min e1 e2 - Z.max s1 s2)) by lia.
  zcmp; cbn; repeat split; lia.
Qed.

Lemma commonIntervalLength_is_overlap_witness :
  MR.commonIntervalLength 2 9 5 12 = 4.
Proof.
  refine (eq_trans (proj1 (commonIntervalLength_is_overlap 2 9 5 12 _ _ _ _)) _);
    unfold MaxInt; (lia || reflexivity).
Defined.

(** ** [RepackAll] on rectangles that padding has not shrunk away *)








